(** * beamcon_3D: smoothing spectral cubes to a common resolution

    A shallow embedding of [beamcon_3D.py] and the properties of its
    channel-chunk planner, validity aggregation, target-beam selection,
    same-file guard and per-channel smoothing.

    Conventions.
    - Python [int] is [Z]; a float (numpy [float64], Python [float]) is
      a [spec_float] read at precision 53 and exponent bound 1024.
    - A Python exception is a value of [exn]; a call that may raise
      returns a [result].  Code that touches the file system or writes
      the output cube threads a [World] through the [M] monad; the
      world reached when an exception escapes is kept, so that one can
      say what had already happened.
    - Functions of [radio_beam], [scipy], [au2], [astropy] and
      [spectral_cube] are not part of the program: they are the fields
      of the class [Libs], and every theorem holds for every
      implementation of them.  What they read from disk (header, beam
      log, cube) is a function of the file name: the inputs are taken
      not to change during a run. *)

From Stdlib Require Import ZArith List Lia Bool Ascii String Floats.SpecFloat.
From stdpp Require Import gmap strings list fin_maps.

Open Scope Z_scope.

(* ===================================================================== *)
(** ** Floats *)
(* ===================================================================== *)

Module F64.

Definition prec : Z := 53.
Definition emax : Z := 1024.

Definition float64 : Type := spec_float.

Definition nan : float64 := S754_nan.
Definition mul : float64 -> float64 -> float64 := SFmul prec emax.
Definition div : float64 -> float64 -> float64 := SFdiv prec emax.
Definition ltb : float64 -> float64 -> bool := SFltb.

(** [m * 2^e] rounded to the nearest float. *)
Definition of_Z2 (m e : Z) : float64 := binary_normalize prec emax m e false.
Definition of_Z (m : Z) : float64 := of_Z2 m 0.

(** [np.isnan] on a scalar. *)
Definition isnan (x : float64) : bool :=
  match x with S754_nan => true | _ => false end.

(** [np.ceil]: the least integral float that is not below [x].  A finite
    float [(-1)^s * m * 2^e] with [0 <= e] is integral already;
    otherwise the integer is the ceiling of the quotient by [2^(-e)],
    and a zero result keeps the sign of [x]. *)
Definition ceil (x : float64) : float64 :=
  match x with
  | S754_finite s m e =>
      if 0 <=? e then x
      else binary_normalize prec emax
             (- ((- cond_Zopp s (Zpos m)) / 2 ^ (- e))) 0 s
  | _ => x
  end.

End F64.

Abbreviation float64 := F64.float64.

(* ===================================================================== *)
(** ** Exceptions and results *)
(* ===================================================================== *)

(** The exception classes the program raises itself, those of the
    built-ins and numpy that the model raises where Python would, and
    one constructor for whatever an external library raises. *)
Inductive exn : Type :=
  | Exception_ (msg : string)            (* raise Exception(msg) *)
  | SameFileError (src dst : string)
  | SpecialFileError (fn : string)
  | OSError
  | ValueError
  | IndexError
  | NameError
  | LibraryError (tag : string).

Inductive result (A : Type) : Type :=
  | Ok (a : A)
  | Raise (e : exn).
Arguments Ok {A} a.
Arguments Raise {A} e.

Definition rbind {A B} (r : result A) (k : A -> result B) : result B :=
  match r with
  | Ok a => k a
  | Raise e => Raise e
  end.

Declare Scope result_scope.
Delimit Scope result_scope with res.
Notation "'let?' x ':=' c 'in' k" := (rbind c (fun x => k))
  (at level 10, x pattern, c at level 100, k at level 200) : result_scope.
Open Scope result_scope.

(** Run a fallible function over a list, left to right, stopping at the
    first exception. *)
Fixpoint rmap {A B} (f : A -> result B) (l : list A) : result (list B) :=
  match l with
  | [] => Ok []
  | a :: l' =>
      let? b := f a in
      let? bs := rmap f l' in
      Ok (b :: bs)
  end.

Definition is_Raise {A} (r : result A) : Prop :=
  match r with Raise _ => True | Ok _ => False end.

(* ===================================================================== *)
(** ** The chunk planner *)
(* ===================================================================== *)

(** Python's [max] over a sequence: [ValueError] on an empty one. *)
Definition py_max (l : list Z) : result Z :=
  match l with
  | [] => Raise ValueError
  | x :: l' => Ok (fold_left Z.max l' x)
  end.

(** [factors = [i for i in range(1, count + 1) if count % i == 0]] *)
Definition factors (count : Z) : list Z :=
  filter (fun i => count mod i = 0) (seqZ 1 count).

(** [cpu_to_use(max_cpu, count)]:
    [max(factors[factors <= max_cpu])]. *)
Definition cpu_to_use (max_cpu count : Z) : result Z :=
  py_max (filter (fun i => i <= max_cpu) (factors count)).

(** The iterations of [for i in trange(n_chunks)] with
    [start = i*width] and [stop = start+width], in the order they are
    run. *)
Definition chunk_of (width i : Z) : Z * Z := (i * width, i * width + width).

Definition chunks (width n_chunks : Z) : list (Z * Z) :=
  chunk_of width <$> seqZ 0 n_chunks.


(* ===================================================================== *)
(** ** Strings: the few [str] and [os.path] operations the program uses *)
(* ===================================================================== *)

Module Str.

(** [s.replace(old, new)] for a non-empty [old]: every occurrence, left
    to right, without overlap.  [skip] counts the characters of a
    matched occurrence that are still to be dropped. *)
Fixpoint replace_from (old new s : string) (skip : nat) : string :=
  match s with
  | EmptyString => EmptyString
  | String c s' =>
      match skip with
      | S k => replace_from old new s' k
      | O =>
          if String.prefix old s
          then new +:+ replace_from old new s' (String.length old - 1)
          else String c (replace_from old new s' 0)
      end
  end.

Definition replace (old new s : string) : string := replace_from old new s 0.

(** [os.path.basename]: what follows the last slash. *)
Fixpoint basename_from (s acc : string) : string :=
  match s with
  | EmptyString => acc
  | String c s' =>
      if Ascii.eqb c "/"%char then basename_from s' EmptyString
      else basename_from s' (acc +:+ String c EmptyString)
  end.

Definition basename (s : string) : string := basename_from s EmptyString.

(** [s[-1]], an [IndexError] on the empty string, and [s[:-1]]. *)
Fixpoint last_char (s : string) : option Ascii.ascii :=
  match s with
  | EmptyString => None
  | String c EmptyString => Some c
  | String _ s' => last_char s'
  end.

Fixpoint drop_last (s : string) : string :=
  match s with
  | EmptyString => EmptyString
  | String _ EmptyString => EmptyString
  | String c s' => String c (drop_last s')
  end.

End Str.

(* ===================================================================== *)
(** ** Data model *)
(* ===================================================================== *)

(** A beam: major and minor axis in arcsec, position angle in degrees.
    An undefined beam has NaN fields. *)
Record Beam : Type := mkBeam {
  major : float64;
  minor : float64;
  pa : float64
}.

(** One row of a beam log, columns
    ['Channel', 'BMAJarcsec', 'BMINarcsec', 'BPAdeg']. *)
Record BeamRow : Type := mkRow {
  Channel : float64;
  BMAJarcsec : float64;
  BMINarcsec : float64;
  BPAdeg : float64
}.

(** A 2-D image, row major. *)
Abbreviation image := (list (list float64)).

(** A spectral cube of shape [(nchan, ny, nx)]: its pixels and its
    exclusion mask ([true] = missing), both as functions of
    (channel, y, x). *)
Record Cube : Type := mkCube {
  nchan : nat;
  ny : nat;
  nx : nat;
  pix : nat -> nat -> nat -> float64;
  excl : nat -> nat -> nat -> bool
}.

(** [cube[c]] as an array of shape [(ny, nx)]. *)
Definition channel_image (c : Cube) (ch : nat) : image :=
  (fun y => (fun x => pix c ch y x) <$> seq 0 (nx c)) <$> seq 0 (ny c).

(** The command line, after [argparse]. *)
Record Args : Type := mkArgs {
  infile : string;
  outdir : option string;
  bmaj : option float64;
  bmin : option float64;
  bpa : option float64;
  n_cores : Z;
  mpi : bool
}.

(** What the program keeps per cube in [datadict]. *)
Record CubeEntry : Type := mkEntry {
  filename : string;
  dx : float64;                 (* degrees *)
  dy : float64;                 (* degrees *)
  beamlog : string;
  oldbeams : list Beam;
  conbeams : list Beam;
  sfactors : list float64
}.

(** The library functions the program calls.  [Beam_new] is the
    constructor [Beam(major, minor, pa)]; [deconvolve t b] is
    [t.deconvolve(b)]; [attr_bpa b] is the attribute access [b.bpa];
    [np_isnan_beam] is [np.isnan] applied to a beam object;
    [convolve_same im k] is
    [scipy.signal.convolve(im, k, mode='same')]; [as_kernel b dy] is
    the array of [b.as_kernel(dy)]; [choose_pool mpi processes] is the
    call [schwimmbad.choose_pool(mpi=mpi, processes=processes,
    initializer=init_worker)], which builds the pool of a chunk or
    raises. *)
Class Libs : Type := {
  glob : string -> list string;
  getheader : string -> result (float64 * float64);      (* CDELT1, CDELT2 *)
  genfromtxt : string -> result (list BeamRow);
  SpectralCube_read : string -> result Cube;
  Beam_new : float64 -> float64 -> float64 -> result Beam;
  largest_beam : list Beam -> result Beam;
  attr_bpa : Beam -> result float64;
  deconvolve : Beam -> Beam -> result Beam;
  gauss_factor :
    float64 * float64 * float64 -> float64 * float64 * float64 ->
    float64 -> float64 -> result float64;
  to_arcsec : float64 -> float64;
  np_isnan_beam : Beam -> bool;
  as_kernel : Beam -> float64 -> result image;
  convolve_same : image -> image -> result image;
  choose_pool : bool -> Z -> result unit;
  mpi_size : Z
}.

(* ===================================================================== *)
(** ** The world: a file system and the record of what was done *)
(* ===================================================================== *)

(** What a name denotes and what an inode holds.  Names are whole
    paths, taken literally; directories are known by their paths (field
    [dirs] of the world); permissions are left out. *)
Inductive dirent : Type :=
  | HardLink (ino : nat)
  | SymLink (target : string).

Inductive node : Type :=
  | Regular (content : list Byte.byte)
  | Fifo.

(** The steps of a run that matter to its order: building the
    convolution plan of a cube, copying the input to the output file,
    smoothing one channel, writing one chunk, updating the header. *)
Inductive event : Type :=
  | EvGetfacs (file : string)
  | EvCopyfile (src dst : string)
  | EvSmooth (file : string) (chan : Z)
  | EvWrite (outfile : string) (start stop : Z) (data : list image)
  | EvHeader (outfile : string) (b : Beam).

(** The file system, the log of steps, and the module-level globals
    [arr_in], [arr_out] and [cubedict] that the workers share
    ([None]: not assigned yet). *)
Record World : Type := mkWorld {
  has_samefile : bool;            (* hasattr(os.path, 'samefile') *)
  names : gmap string dirent;
  inodes : gmap nat node;
  dirs : gset string;             (* the directories that exist *)
  log : list event;               (* oldest first *)
  arr_in : list image;
  arr_out : list image;
  cubedict : option CubeEntry
}.

Definition set_names (w : World) (ns : gmap string dirent) : World :=
  mkWorld (has_samefile w) ns (inodes w) (dirs w) (log w)
          (arr_in w) (arr_out w) (cubedict w).
Definition set_inodes (w : World) (ins : gmap nat node) : World :=
  mkWorld (has_samefile w) (names w) ins (dirs w) (log w)
          (arr_in w) (arr_out w) (cubedict w).
Definition set_log (w : World) (l : list event) : World :=
  mkWorld (has_samefile w) (names w) (inodes w) (dirs w) l
          (arr_in w) (arr_out w) (cubedict w).
Definition set_arr_in (w : World) (a : list image) : World :=
  mkWorld (has_samefile w) (names w) (inodes w) (dirs w) (log w)
          a (arr_out w) (cubedict w).
Definition set_arr_out (w : World) (a : list image) : World :=
  mkWorld (has_samefile w) (names w) (inodes w) (dirs w) (log w)
          (arr_in w) a (cubedict w).
Definition set_cubedict (w : World) (d : option CubeEntry) : World :=
  mkWorld (has_samefile w) (names w) (inodes w) (dirs w) (log w)
          (arr_in w) (arr_out w) d.

Definition M (A : Type) : Type := World -> result A * World.

Definition ret {A} (a : A) : M A := fun w => (Ok a, w).
Definition raise {A} (e : exn) : M A := fun w => (Raise e, w).
Definition bind {A B} (m : M A) (k : A -> M B) : M B :=
  fun w =>
    match m w with
    | (Ok a, w') => k a w'
    | (Raise e, w') => (Raise e, w')
    end.
Definition lift {A} (r : result A) : M A := fun w => (r, w).
Definition get_world : M World := fun w => (Ok w, w).
Definition modify (f : World -> World) : M unit := fun w => (Ok tt, f w).
Definition emit (e : event) : M unit :=
  modify (fun w => set_log w (log w ++ [e])).

Declare Scope M_scope.
Delimit Scope M_scope with M.
Notation "'let!' x ':=' c 'in' k" := (bind c (fun x => k))
  (at level 10, x pattern, c at level 100, k at level 200) : M_scope.
Notation "c ';;' k" := (bind c (fun _ => k))
  (at level 100, k at level 200, right associativity) : M_scope.

(** [for x in l: body x], stopping at the first exception. *)
Fixpoint for_each {A} (l : list A) (body : A -> M unit) : M unit :=
  match l with
  | [] => ret tt
  | a :: l' => bind (body a) (fun _ => for_each l' body)
  end.

Module FS.

(** The kernel gives up on a path after 40 symbolic links. *)
Definition MAXSYMLINKS : nat := 40.

(** Follow symbolic links from [p] to a name that is not one. *)
Fixpoint follow (fuel : nat) (w : World) (p : string) : result string :=
  match names w !! p with
  | Some (SymLink t) =>
      match fuel with
      | O => Raise OSError
      | S k => follow k w t
      end
  | _ => Ok p
  end.

(** [os.stat]: the inode behind a path and what it holds. *)
Definition stat (w : World) (p : string) : result (nat * node) :=
  let? q := follow MAXSYMLINKS w p in
  match names w !! q with
  | Some (HardLink i) =>
      match inodes w !! i with
      | Some n => Ok (i, n)
      | None => Raise OSError
      end
  | _ => Raise OSError
  end.

(** [os.path.samefile]: both paths are stat-ed and the inodes
    compared. *)
Definition samefile (w : World) (src dst : string) : result bool :=
  let? s1 := stat w src in
  let? s2 := stat w dst in
  Ok (bool_decide (fst s1 = fst s2)).

Definition S_ISFIFO (n : node) : bool :=
  match n with Fifo => true | Regular _ => false end.

Definition islink (w : World) (p : string) : bool :=
  match names w !! p with Some (SymLink _) => true | _ => false end.

(** The directory a path lies in: what precedes its last slash (or
    run of slashes), empty for a path without a slash and for one
    directly under the root.  [head] is the path up to the last slash
    seen, [cur] what follows, that slash included. *)
Fixpoint parent_from (s head cur : string) : string :=
  match s with
  | EmptyString => head
  | String c s' =>
      if Ascii.eqb c "/"%char then
        if String.eqb cur "/" then parent_from s' head cur
        else parent_from s' (head +:+ cur) "/"
      else parent_from s' head (cur +:+ String c EmptyString)
  end.

Definition parent (p : string) : string := parent_from p "" "".

(** The current directory and the root always exist; another
    directory exists when it is among [dirs]. *)
Definition dir_exists (w : World) (d : string) : bool :=
  bool_decide (d = ""%string) || bool_decide (d = "."%string)
  || bool_decide (d ∈ dirs w).

(** [os.symlink(target, dst)]: fails when [dst] exists
    ([FileExistsError]) and when the directory of [dst] does not
    ([FileNotFoundError]), both of them [OSError]s. *)
Definition symlink (target dst : string) : M unit :=
  fun w =>
    match names w !! dst with
    | Some _ => (Raise OSError, w)
    | None =>
        if dir_exists w (parent dst)
        then (Ok tt, set_names w (<[dst := SymLink target]> (names w)))
        else (Raise OSError, w)
    end.

(** An open binary file: its inode and the position of the next read
    or write. *)
Record handle : Type := mkHandle {
  h_ino : nat;
  h_pos : nat
}.

(** [open(p, 'rb')]: a handle at the start of the file. *)
Definition open_rb (p : string) : M handle :=
  fun w =>
    match stat w p with
    | Ok (i, _) => (Ok (mkHandle i 0), w)
    | Raise e => (Raise e, w)
    end.

(** [open(p, 'wb')]: a handle at the start of the file.  An existing
    file is truncated; a missing one is created under the name the
    links lead to, which takes its directory to exist
    ([FileNotFoundError], an [OSError], otherwise). *)
Definition open_wb (p : string) : M handle :=
  fun w =>
    match follow MAXSYMLINKS w p with
    | Raise e => (Raise e, w)
    | Ok q =>
        match names w !! q with
        | Some (HardLink i) =>
            match inodes w !! i with
            | Some (Regular _) =>
                (Ok (mkHandle i 0), set_inodes w (<[i := Regular []]> (inodes w)))
            | Some Fifo => (Ok (mkHandle i 0), w)
            | None => (Raise OSError, w)
            end
        | _ =>
            if dir_exists w (parent q) then
              let i := fresh (dom (inodes w)) in
              (Ok (mkHandle i 0),
               set_inodes (set_names w (<[q := HardLink i]> (names w)))
                          (<[i := Regular []]> (inodes w)))
            else (Raise OSError, w)
        end
    end.

(** The bytes of an inode from offset [pos], at most [n] of them. *)
Definition read_at (w : World) (i pos n : nat) : list Byte.byte :=
  match inodes w !! i with
  | Some (Regular c) => take n (drop pos c)
  | _ => []
  end.

(** The contents [c] of a file after [buf] is written at offset [pos]:
    the bytes from [pos] on are replaced, the file grows as needed, and
    a gap between its end and [pos] reads as zeros. *)
Definition overwrite (c : list Byte.byte) (pos : nat) (buf : list Byte.byte)
  : list Byte.byte :=
  take pos c ++ replicate (pos - List.length c) Byte.x00 ++ buf
  ++ drop (pos + List.length buf) c.

(** [f.write(buf)] through a handle at offset [pos] (a file not opened
    for appending). *)
Definition write_at (i pos : nat) (buf : list Byte.byte) : M unit :=
  fun w =>
    match inodes w !! i with
    | Some (Regular c) =>
        (Ok tt, set_inodes w (<[i := Regular (overwrite c pos buf)]> (inodes w)))
    | _ => (Ok tt, w)
    end.

End FS.

(* ===================================================================== *)
(** ** Copying the input cube to the output file *)
(* ===================================================================== *)

(** [_samefile(src, dst)].  The value is [None] (Python's [None]) when
    [os.path] has no [samefile]; an [OSError] of the comparison reads as
    [False]. *)
Definition _samefile (w : World) (src dst : string) : option bool :=
  if has_samefile w then
    match FS.samefile w src dst with
    | Ok b => Some b
    | Raise _ => Some false
    end
  else None.

(** Truth value of what [_samefile] returns. *)
Definition truthy (v : option bool) : bool :=
  match v with Some b => b | None => false end.

(** The [while True] loop of [copyfileobj] on the inodes of the two
    handles: read at most [length] bytes from [fsrc] at its position
    [spos], stop on an empty read, else write them to [fdst] at its
    position [dpos]; either position advances by what was read.
    [fuel] bounds the number of reads. *)
Fixpoint copy_loop (fuel fsrc fdst spos dpos length : nat) : M unit :=
  match fuel with
  | O => raise (LibraryError "copy_loop")
  | S k =>
      fun w =>
        let buf := FS.read_at w fsrc spos length in
        match buf with
        | [] => (Ok tt, w)
        | _ :: _ =>
            bind (FS.write_at fdst dpos buf)
                 (fun _ =>
                    copy_loop k fsrc fdst (spos + List.length buf)%nat
                              (dpos + List.length buf)%nat length) w
        end
  end.

(** [copyfileobj(fsrc, fdst, length=16*1024)]; one read per byte of the
    source and one more are always enough. *)
Definition copyfileobj (fsrc fdst : FS.handle) (length : nat) : M unit :=
  fun w =>
    let total :=
      match inodes w !! FS.h_ino fsrc with
      | Some (Regular c) => List.length c
      | _ => O
      end in
    copy_loop (S total) (FS.h_ino fsrc) (FS.h_ino fdst)
              (FS.h_pos fsrc) (FS.h_pos fdst) length w.

(** The [try: os.stat(fn) ... else: if S_ISFIFO: raise] of [copyfile]. *)
Definition check_not_fifo (fn : string) : M unit :=
  fun w =>
    match FS.stat w fn with
    | Raise _ => (Ok tt, w)
    | Ok (_, n) =>
        if FS.S_ISFIFO n then (Raise (SpecialFileError fn), w) else (Ok tt, w)
    end.

(** [copyfile(src, dst, *, follow_symlinks=True, verbose=True)] *)
Definition copyfile (src dst : string) (follow_symlinks : bool) : M string :=
  (let! w := get_world in
   if truthy (_samefile w src dst) then raise (SameFileError src dst)
   else
     for_each [src; dst] check_not_fifo ;;
     let! w1 := get_world in
     (if negb follow_symlinks && FS.islink w1 src then
        match names w1 !! src with
        | Some (SymLink t) => FS.symlink t dst
        | _ => raise OSError
        end
      else
        let! fsrc := FS.open_rb src in
        let! fdst := FS.open_wb dst in
        copyfileobj fsrc fdst (16 * 1024)) ;;
     ret dst)%M.

(* ===================================================================== *)
(** ** numpy: the array operations the program relies on *)
(* ===================================================================== *)

Module Np.

(** Element-wise binary operation on 1-D arrays under numpy's
    broadcasting: equal lengths pair up, a length-1 array is repeated,
    anything else is a [ValueError]. *)
Definition broadcast2 {A B C} (f : A -> B -> C) (l1 : list A) (l2 : list B)
  : result (list C) :=
  if bool_decide (List.length l1 = List.length l2) then Ok (zip_with f l1 l2)
  else
    match l1, l2 with
    | [a], _ => Ok (f a <$> l2)
    | _, [b] => Ok ((fun a => f a b) <$> l1)
    | _, _ => Raise ValueError
    end.

(** What [sum(masks)] accumulates: Python's [0] to start with, an
    integer array from the first mask on. *)
Inductive int_acc : Type :=
  | Scalar (z : Z)
  | Arr (l : list Z).

(** [acc + mask] for a boolean array [mask]. *)
Definition add_mask (acc : int_acc) (m : list bool) : result int_acc :=
  match acc with
  | Scalar a => Ok (Arr ((fun b => a + Z.b2z b) <$> m))
  | Arr l =>
      let? r := broadcast2 (fun x b => x + Z.b2z b) l m in Ok (Arr r)
  end.

(** The built-in [sum(masks)]: [0 + masks[0] + masks[1] + ...]. *)
Fixpoint sum_from (acc : int_acc) (masks : list (list bool)) : result int_acc :=
  match masks with
  | [] => Ok acc
  | m :: ms => let? acc' := add_mask acc m in sum_from acc' ms
  end.

Definition sum (masks : list (list bool)) : result int_acc :=
  sum_from (Scalar 0) masks.

(** A boolean that is either Python's [bool] or a boolean array. *)
Inductive bool_val : Type :=
  | BScalar (b : bool)
  | BArr (l : list bool).

(** [acc > 0] *)
Definition gt0 (acc : int_acc) : bool_val :=
  match acc with
  | Scalar a => BScalar (0 <? a)
  | Arr l => BArr ((fun x => 0 <? x) <$> l)
  end.

(** [row[mask] = v] for a 1-D [row]: a boolean array must have the
    length of [row] ([IndexError] otherwise); a scalar [True] selects
    everything and a scalar [False] nothing. *)
Definition assign_where {A} (row : list A) (mask : bool_val) (v : A)
  : result (list A) :=
  match mask with
  | BScalar b => Ok (if b then (fun _ => v) <$> row else row)
  | BArr m =>
      if bool_decide (List.length m = List.length row)
      then Ok (zip_with (fun x (b : bool) => if b then v else x) row m)
      else Raise IndexError
  end.

(** [np.array(tables)] for a list of 1-D record arrays: a 2-D array
    when all have the same length.  A ragged list yields no such array
    (the call, or the field access that follows it, raises). *)
Definition array {A} (tables : list (list A)) : result (list (list A)) :=
  match tables with
  | [] => Ok []
  | t :: ts =>
      if forallb (fun t' => Nat.eqb (List.length t') (List.length t)) ts
      then Ok tables
      else Raise ValueError
  end.

(** [a.max()] on floats: NaN wins, an empty array is a [ValueError]. *)
Definition fmax (a b : float64) : float64 :=
  if F64.isnan a || F64.isnan b then F64.nan
  else if F64.ltb a b then b else a.

Definition amax (im : image) : result float64 :=
  match concat im with
  | [] => Raise ValueError
  | x :: l => Ok (fold_left fmax l x)
  end.

(** [im * c] and [im / c] with a scalar [c]. *)
Definition scale (im : image) (c : float64) : image :=
  (fun row : list float64 => (fun x => F64.mul x c) <$> row) <$> im.

Definition divide (im : image) (c : float64) : image :=
  (fun row : list float64 => (fun x => F64.div x c) <$> row) <$> im.

(** [np.zeros(shape) * np.nan] for [shape = (n, ny, nx)]. *)
Definition nans (n ny nx : nat) : list image :=
  replicate n (replicate ny (replicate nx F64.nan)).

(** [buf[:] = src] along the first axis: same length, or a single
    entry repeated; the shape of [buf] never changes. *)
Definition assign_all {A} (buf src : list A) : result (list A) :=
  if bool_decide (List.length src = List.length buf) then Ok src
  else
    match src with
    | [a] => Ok ((fun _ => a) <$> buf)
    | _ => Raise ValueError
    end.

End Np.

(* ===================================================================== *)
(** ** The program *)
(* ===================================================================== *)

(** An index into a sequence of length [n]: negative indices count from
    the end, an index out of range is an [IndexError]. *)
Definition py_norm (n : nat) (i : Z) : result nat :=
  let j := if i <? 0 then i + Z.of_nat n else i in
  if (0 <=? j) && (j <? Z.of_nat n) then Ok (Z.to_nat j) else Raise IndexError.

(** [l[i]] *)
Definition py_index {A} (l : list A) (i : Z) : result A :=
  let? j := py_norm (List.length l) i in
  match l !! j with
  | Some a => Ok a
  | None => Raise IndexError
  end.

(** [buf[idx] = newim[:]] on the shared 3-D buffer, for an image of the
    shape of the slot.  The slot keeps its shape, and an image of
    another shape is refused; numpy would first stretch an image of a
    single row, or of single-pixel rows, to the slot, which no image
    from [smooth] is: scaling keeps the shape and so does a convolution
    of mode ['same']. *)
Definition assign_slot (buf : list image) (idx : Z) (newim : image)
  : result (list image) :=
  let? j := py_norm (List.length buf) idx in
  let? old := py_index buf idx in
  if bool_decide (List.length <$> newim = List.length <$> old)
  then Ok (<[j := newim]> buf)
  else Raise ValueError.

(** [round_up(n, decimals=0)] *)
Definition round_up (n : float64) (decimals : nat) : float64 :=
  let multiplier := F64.of_Z (10 ^ Z.of_nat decimals) in
  F64.div (F64.ceil (F64.mul n multiplier)) multiplier.

(** [cube[:, cube.shape[1]//2, cube.shape[2]//2].mask.view()]: the
    exclusion flag of every channel at the central pixel. *)
Definition central_mask (c : Cube) : result (list bool) :=
  if (Nat.eqb (ny c) 0 || Nat.eqb (nx c) 0)%bool then Raise IndexError
  else Ok ((fun ch => excl c ch (ny c / 2)%nat (nx c / 2)%nat) <$> seq 0 (nchan c)).

(** [cube[start:stop, :]] for [0 <= start]: the channels below both
    [stop] and the channel count. *)
Definition cube_slice (c : Cube) (start stop : Z) : list image :=
  (fun ch => channel_image c (Z.to_nat ch))
    <$> seqZ start (Z.min stop (Z.of_nat (nchan c)) - start).

Definition beam_of_row (r : BeamRow) : Beam :=
  mkBeam (BMAJarcsec r) (BMINarcsec r) (BPAdeg r).

(** The three assignments [beams[col][i][totalmask] = np.nan] on the
    table of one cube. *)
Definition mask_table (totalmask : Np.bool_val) (t : list BeamRow)
  : result (list BeamRow) :=
  let? bmajs := Np.assign_where (BMAJarcsec <$> t) totalmask F64.nan in
  let? bmins := Np.assign_where (BMINarcsec <$> t) totalmask F64.nan in
  let? bpas := Np.assign_where (BPAdeg <$> t) totalmask F64.nan in
  Ok (zip_with (fun r '(a, b, c) => mkRow (Channel r) a b c) t
        (zip (zip bmajs bmins) bpas)).

(** [totalmask = sum(masks) > 0] *)
Definition totalmask_of (masks : list (list bool)) : result Np.bool_val :=
  let? s := Np.sum masks in Ok (Np.gt0 s).

(** [all(elem == nchans[0] for elem in nchans)] *)
Definition all_equal_first (nchans : list nat) : bool :=
  match nchans with
  | [] => true
  | n0 :: _ => forallb (fun n => Nat.eqb n n0) nchans
  end.

Section Program.
Context `{L : Libs}.

(** [getbeams(beamlog)].  [np.genfromtxt(names=True)] gives a 1-D
    record array with one entry per data row, except that a table of a
    single row comes as a 0-d record: its [shape] is [()] and
    [beams.shape[0]] is an [IndexError]. *)
Definition getbeams (beamlog : string) : result (list BeamRow * nat) :=
  let? beams := genfromtxt beamlog in
  match beams with
  | [_] => Raise IndexError
  | _ => Ok (beams, List.length beams)
  end.

(** One turn of the loop of [getfacs]. *)
Definition getfacs_one (datadict : CubeEntry) (new_beam oldbeam : Beam)
  : result (Beam * float64) :=
  let? conbm := deconvolve new_beam oldbeam in
  let? fac :=
    gauss_factor (major conbm, minor conbm, pa conbm)
                 (major oldbeam, minor oldbeam, pa oldbeam)
                 (to_arcsec (dx datadict)) (to_arcsec (dy datadict)) in
  Ok (conbm, fac).

(** [getfacs(datadict, new_beam)] *)
Definition getfacs (datadict : CubeEntry) (new_beam : Beam)
  : result (list Beam * list float64) :=
  let? l := rmap (getfacs_one datadict new_beam) (oldbeams datadict) in
  Ok (fst <$> l, snd <$> l).

(** [smooth(image, dy, conbeam, sfactor)] *)
Definition smooth (im : image) (dy : float64) (conbeam : Beam) (sfactor : float64)
  : result image :=
  if np_isnan_beam conbeam then Ok (Np.scale im F64.nan)
  else
    let? gauss_kern := as_kernel conbeam dy in
    let? peak := Np.amax gauss_kern in
    let conbm1 := Np.divide gauss_kern peak in
    let? newim := convolve_same im conbm1 in
    Ok (Np.scale newim sfactor).

(** [worker(idx, start)], on the globals. *)
Definition worker (idx start : Z) : M unit :=
  (let! w := get_world in
   match cubedict w with
   | None => raise NameError
   | Some cd =>
       let! im := lift (py_index (arr_in w) idx) in
       let! conbeam := lift (py_index (conbeams cd) (start + idx)) in
       let! sfactor := lift (py_index (sfactors cd) (start + idx)) in
       emit (EvSmooth (filename cd) (start + idx)) ;;
       let! newim := lift (smooth im (dy cd) conbeam sfactor) in
       let! w' := get_world in
       let! out := lift (assign_slot (arr_out w') idx newim) in
       modify (fun w'' => set_arr_out w'' out)
   end)%M.

(** What the first loop of [main] gathers for one file. *)
Record Loaded : Type := mkLoaded {
  l_entry : CubeEntry;
  l_beam : list BeamRow;
  l_nchan : nat;
  l_mask : list bool
}.

(** [f"beamlog.{file}".replace('.fits', '.txt')] *)
Definition beamlog_of (file : string) : string :=
  Str.replace ".fits" ".txt" ("beamlog." +:+ file).

(** The body of [for i, file in enumerate(files)]. *)
Definition load_file (file : string) : result Loaded :=
  let? header := getheader file in
  let dxas := F64.mul (fst header) (F64.of_Z (-1)) in
  let dyas := snd header in
  let beamlog := beamlog_of file in
  let? bn := getbeams beamlog in
  let? cube := SpectralCube_read file in
  let? mask := central_mask cube in
  Ok (mkLoaded (mkEntry file dxas dyas beamlog [] [] []) (fst bn) (snd bn) mask).

(** The outdir fix-up at the top of [main]. *)
Definition fix_outdir (o : option string) : result string :=
  match o with
  | Some d =>
      match Str.last_char d with
      | None => Raise IndexError
      | Some c => Ok (if Ascii.eqb c "/"%char then Str.drop_last d else d)
      end
  | None => Ok "."%string
  end.

(** The masking loop: the table of cube [i] is masked with the joint
    mask and becomes [datadict["cube_i"]["oldbeams"]]. *)
Definition mask_cube (totalmask : Np.bool_val) (ld : Loaded)
  : result (CubeEntry * list BeamRow) :=
  let e := l_entry ld in
  let? t' := mask_table totalmask (l_beam ld) in
  Ok (mkEntry (filename e) (dx e) (dy e) (beamlog e)
        (beam_of_row <$> t') (conbeams e) (sfactors e), t').

(** [main] from the file loop to [beamlst]: the entries of [datadict]
    in order, and the beams of all cubes after masking. *)
Definition aggregate (files : list string) : result (list CubeEntry * list Beam) :=
  let? loaded := rmap load_file files in
  let? _beams := Np.array (l_beam <$> loaded) in
  let nchans := l_nchan <$> loaded in
  let? totalmask := totalmask_of (l_mask <$> loaded) in
  let? masked := rmap (mask_cube totalmask) loaded in
  if negb (all_equal_first nchans)
  then Raise (Exception_ "Unequal channel count in beamlogs!")
  else Ok (fst <$> masked, beam_of_row <$> concat (snd <$> masked)).

(** The arguments of [Beam(bmaj, bmin, bpa)] that [main] settles on,
    given the largest beam. *)
Definition target_params (args : Args) (big_beam : Beam)
  : result (float64 * float64 * float64) :=
  let? bpa' :=
    match bpa args, bmin args, bmaj args with
    | None, Some _, Some _ => attr_bpa big_beam
    | _, _, _ => Ok (F64.of_Z 0)
    end in
  let? bmaj' :=
    match bmaj args with
    | None => Ok (round_up (major big_beam) 0)
    | Some x =>
        if F64.ltb x (round_up (major big_beam) 0)
        then Raise (Exception_ "Selected BMAJ is too small!")
        else Ok x
    end in
  let? bmin' :=
    match bmin args with
    | None => Ok (round_up (major big_beam) 0)
    | Some x =>
        if F64.ltb x (round_up (major big_beam) 0)
        then Raise (Exception_ "Selected BMIN is too small!")
        else Ok x
    end in
  Ok (bmaj', bmin', bpa').

(** Everything [main] does before the loop over the cubes: the output
    directory, the entries of [datadict], the largest beam and the
    target beam. *)
Definition prepare (args : Args)
  : result (string * list CubeEntry * Beam * Beam) :=
  let? outdir' := fix_outdir (outdir args) in
  let files := glob (infile args) in
  if bool_decide (files = []) then Raise (Exception_ "No files found!")
  else
    let? agg := aggregate files in
    let? big_beam := largest_beam (snd agg) in
    let? p := target_params args big_beam in
    let? new_beam := Beam_new (fst (fst p)) (snd (fst p)) (snd p) in
    Ok (outdir', fst agg, big_beam, new_beam).

(** One turn of [for i in trange(n_chunks)]: the chunk is copied into
    [arr_in], the pool is built, [pool.map] runs the workers, the pool
    is closed, and the chunk is written.  The tasks of [pool.map] are
    run here in index order; each writes its own slot of [arr_out]
    only.  [pool.close()] returns nothing and touches nothing of the
    world, so it leaves no step of its own. *)
Definition process_chunk (args : Args) (cube : Cube) (outfile : string)
    (width : Z) (c : Z * Z) : M unit :=
  (let start := fst c in
   let stop := snd c in
   let! w := get_world in
   let! buf := lift (Np.assign_all (arr_in w) (cube_slice cube start stop)) in
   modify (fun w' => set_arr_in w' buf) ;;
   lift (choose_pool (mpi args) (n_cores args)) ;;
   for_each (seqZ 0 width) (fun idx => worker idx start) ;;
   let! w2 := get_world in
   emit (EvWrite outfile start stop (arr_out w2)))%M.

(** [cubedict = datadict[key]] with its [conbeams] and [sfactors]
    set to the plan [cf] of [getfacs]. *)
Definition with_plan (entry : CubeEntry) (cf : list Beam * list float64)
  : CubeEntry :=
  mkEntry (filename entry) (dx entry) (dy entry) (beamlog entry)
          (oldbeams entry) (fst cf) (snd cf).

(** The body of [for key in datadict.keys()]. *)
Definition process_cube (args : Args) (outdir' : string) (new_beam : Beam)
    (entry : CubeEntry) : M unit :=
  (emit (EvGetfacs (filename entry)) ;;
   let! cf := lift (getfacs entry new_beam) in
   let! cube := lift (SpectralCube_read (filename entry)) in
   let outname := Str.basename (Str.replace ".fits" ".sm.fits" (filename entry)) in
   let outfile := outdir' +:+ "/" +:+ outname in
   emit (EvCopyfile (filename entry) outfile) ;;
   copyfile (filename entry) outfile true ;;
   modify (fun w => set_cubedict w (Some (with_plan entry cf))) ;;
   let n_cores' := if mpi args then mpi_size else n_cores args in
   let width_max := n_cores' in
   let! width := lift (cpu_to_use width_max (Z.of_nat (nchan cube))) in
   let n_chunks := Z.of_nat (nchan cube) / width in
   modify (fun w => set_arr_out w (Np.nans (Z.to_nat width) (ny cube) (nx cube))) ;;
   modify (fun w => set_arr_in w (Np.nans (Z.to_nat width) (ny cube) (nx cube))) ;;
   for_each (chunks width n_chunks) (process_chunk args cube outfile width) ;;
   emit (EvHeader outfile new_beam))%M.

(** [main(args)], as the master process runs it (under MPI the other
    processes only serve the pool and exit). *)
Definition main (args : Args) : M unit :=
  (let! p := lift (prepare args) in
   let '(outdir', datadict, _, new_beam) := p in
   for_each datadict (process_cube args outdir' new_beam))%M.

End Program.

(* ===================================================================== *)
(** ** A small instance of the libraries, to run the program on *)
(* ===================================================================== *)

Module Demo.

Definition f (m : Z) : float64 := F64.of_Z m.
Definition half (m : Z) : float64 := F64.of_Z2 m (-1).   (* m / 2 *)

(** A beam log of [n] channels, all with the same beam. *)
Definition table (n : nat) (bmaj' bmin' bpa' : float64) : list BeamRow :=
  (fun ch => mkRow (F64.of_Z (Z.of_nat ch)) bmaj' bmin' bpa') <$> seq 0 n.

(** A cube of shape [(n, 2, 2)] whose channel [ch] holds the value
    [ch] everywhere; the channels in [missing] are blanked. *)
Definition cube (n : nat) (missing : list nat) : Cube :=
  mkCube n 2 2 (fun ch _ _ => F64.of_Z (Z.of_nat ch))
         (fun ch _ _ => bool_decide (ch ∈ missing)).

Definition beam_defined (b : Beam) : bool :=
  negb (F64.isnan (major b) || F64.isnan (minor b)).

(** The defined beam of largest [major * minor], if there is one. *)
Definition largest (l : list Beam) : result Beam :=
  match filter (fun b => beam_defined b = true) l with
  | [] => Raise ValueError
  | b :: bs =>
      Ok (fold_left
            (fun acc b' =>
               if F64.ltb (F64.mul (major acc) (minor acc))
                          (F64.mul (major b') (minor b'))
               then b' else acc)
            bs b)
  end.

(** Two files: [a.fits] with the beam (7.5, 6, 10) and channel 2
    blanked, [b.fits] with the beam (7, 5, 20) and nothing blanked.
    [nb] is the number of rows of the second beam log.  Deconvolution
    yields an undefined beam from an undefined one and a point-like beam
    otherwise; convolution is the identity; the pool of a chunk is
    built without MPI and refused with it (the MPI pool takes no
    [initializer]). *)
Definition libs (nb : nat) : Libs := {|
  glob := fun _ => ["a.fits"; "b.fits"]%string;
  getheader := fun _ => Ok (F64.of_Z (-1), F64.of_Z 1);
  genfromtxt := fun name =>
    if String.eqb name "beamlog.a.txt" then Ok (table 5 (half 15) (f 6) (f 10))
    else Ok (table nb (f 7) (f 5) (f 20));
  SpectralCube_read := fun name =>
    if String.eqb name "a.fits" then Ok (cube 5 [2%nat]) else Ok (cube 5 []);
  Beam_new := fun a b c => Ok (mkBeam a b c);
  largest_beam := largest;
  attr_bpa := fun b => Ok (pa b);
  deconvolve := fun t b =>
    if beam_defined b then Ok (mkBeam (f 0) (f 0) (f 0))
    else Ok (mkBeam F64.nan F64.nan F64.nan);
  gauss_factor := fun _ _ _ _ => Ok (f 1);
  to_arcsec := fun x => F64.mul x (f 3600);
  np_isnan_beam := fun b => negb (beam_defined b);
  as_kernel := fun _ _ => Ok [[f 1]];
  convolve_same := fun im _ => Ok im;
  choose_pool := fun mpi' _ =>
    if mpi' then Raise (LibraryError "TypeError") else Ok tt;
  mpi_size := 1
|}.

(** A world with the two input files, and a symbolic link to the first
    of them. *)
Definition world : World :=
  mkWorld true
    (<["a.fits"%string := HardLink 1]>
       (<["b.fits"%string := HardLink 2]>
          (<["alias.fits"%string := SymLink "a.fits"]> ∅)))
    (<[1%nat := Regular [Byte.x53; Byte.x49]]> (<[2%nat := Regular []]> ∅))
    ∅ [] [] [] None.

Definition args (bmaj' bmin' bpa' : option float64) : Args :=
  mkArgs "*.fits" None bmaj' bmin' bpa' 4 false.

End Demo.

(* ===================================================================== *)
(** ** Vocabulary of the properties *)
(* ===================================================================== *)


(** [preserves I m]: whatever [m] does, and whether it returns or
    raises, a world in [I] is left in [I]. *)
Definition preserves {A} (I : World -> Prop) (m : M A) : Prop :=
  forall w, I w -> I (snd (m w)).

(** The shape of a stack of images: the row lengths of each image. *)
Definition shape3 (buf : list image) : list (list nat) :=
  (fun im : image => List.length <$> im) <$> buf.

(** Both buffers have shape [(width, ny, nx)]. *)
Definition buffers_shaped (width ny nx : nat) (w : World) : Prop :=
  shape3 (arr_in w) = replicate width (replicate ny nx)
  /\ shape3 (arr_out w) = replicate width (replicate ny nx).

(** The chunk writes of a log, oldest first: the channel range and the
    shape of the data written. *)
Definition write_of (e : event) : option (Z * Z * list (list nat)) :=
  match e with
  | EvWrite _ start stop data => Some (start, stop, shape3 data)
  | _ => None
  end.

Definition writes (l : list event) : list (Z * Z * list (list nat)) :=
  omap write_of l.

(** The image of the shape of [im] whose pixels are all NaN. *)
Definition blank_like (im : image) : image :=
  (fun row : list float64 => (fun _ => F64.nan) <$> row) <$> im.

(** Both paths lead, through symbolic links, to one existing inode. *)
Definition refer_to_same_file (w : World) (src dst : string) : Prop :=
  exists i n1 n2, FS.stat w src = Ok (i, n1) /\ FS.stat w dst = Ok (i, n2).

Definition is_SameFileError {A} (r : result A) : Prop :=
  match r with
  | Raise (SameFileError _ _) => True
  | _ => False
  end.

(** [m] never raises [SameFileError]. *)
Definition no_same_file_error {A} (m : M A) : Prop :=
  forall w, ~ is_SameFileError (fst (m w)).

(** [l] read at [c] when broadcast: a single entry is read at every
    index. *)
Definition bcget {A} (d : A) (l : list A) (c : nat) : A :=
  match l with
  | [x] => x
  | _ => default d (l !! c)
  end.

(** The length two arrays of lengths [n] and [k] broadcast to. *)
Definition shape_join (n k : nat) : option nat :=
  if decide (n = k) then Some n
  else if decide (n = 1%nat) then Some k
  else if decide (k = 1%nat) then Some n
  else None.

Fixpoint join_from (n : nat) (ks : list nat) : option nat :=
  match ks with
  | [] => Some n
  | k :: ks' =>
      match shape_join n k with
      | Some n' => join_from n' ks'
      | None => None
      end
  end.

(** The array [g 0, ..., g (n-1)]. *)
Definition tab {A} (g : nat -> A) (n : nat) : list A := g <$> seq 0 n.

(** How many of the masks flag channel [c], and whether one does. *)
Fixpoint hits (ms : list (list bool)) (c : nat) : Z :=
  match ms with
  | [] => 0
  | m :: ms' => Z.b2z (bcget false m c) + hits ms' c
  end.

Definition union_at (ms : list (list bool)) (c : nat) : bool :=
  existsb (fun m => bcget false m c) ms.

(** The length the masks broadcast to ([None]: they do not). *)
Definition joint_length (ms : list (list bool)) : option nat :=
  match ms with
  | [] => None
  | m0 :: ms' => join_from (List.length m0) (List.length <$> ms')
  end.

(** Each mask twice in a row. *)
Definition twice {A} (l : list A) : list A := l ≫= fun x => [x; x].

Section Flags.
Context `{L : Libs}.



End Flags.

(* ===================================================================== *)
(** ** Further worlds, libraries and vocabulary *)
(* ===================================================================== *)

(** A second world: a regular file, a named pipe, a link to the file,
    a link that leads nowhere, and one directory, [out]. *)
Module Files.

Definition world : World :=
  mkWorld true
    (<["in.fits"%string := HardLink 1]>
       (<["pipe"%string := HardLink 2]>
          (<["old.fits"%string := HardLink 3]>
             (<["link.fits"%string := SymLink "in.fits"]>
                (<["lost"%string := SymLink "nowhere"]> ∅)))))
    (<[1%nat := Regular [Byte.x53; Byte.x49; Byte.x4d]]>
       (<[2%nat := Fifo]> (<[3%nat := Regular [Byte.x00]]> ∅)))
    {["out"%string]} [] [] [] None.

End Files.

(** The files of [Files.world] where [os.path] has no [samefile]. *)
Definition world_without_samefile : World :=
  mkWorld false (names Files.world) (inodes Files.world) (dirs Files.world)
          [] [] [] None.

(** Libraries as in [Demo], but with a deconvolution that refuses a
    beam whose major axis exceeds that of the target. *)
Module Strict.

Definition libs : Libs := {|
  glob := glob (Libs := Demo.libs 5);
  getheader := getheader (Libs := Demo.libs 5);
  genfromtxt := genfromtxt (Libs := Demo.libs 5);
  SpectralCube_read := SpectralCube_read (Libs := Demo.libs 5);
  Beam_new := Beam_new (Libs := Demo.libs 5);
  largest_beam := largest_beam (Libs := Demo.libs 5);
  attr_bpa := attr_bpa (Libs := Demo.libs 5);
  deconvolve := fun t b =>
    if F64.ltb (major t) (major b) then Raise (LibraryError "BeamError")
    else deconvolve (Libs := Demo.libs 5) t b;
  gauss_factor := gauss_factor (Libs := Demo.libs 5);
  to_arcsec := to_arcsec (Libs := Demo.libs 5);
  np_isnan_beam := np_isnan_beam (Libs := Demo.libs 5);
  as_kernel := as_kernel (Libs := Demo.libs 5);
  convolve_same := convolve_same (Libs := Demo.libs 5);
  choose_pool := choose_pool (Libs := Demo.libs 5);
  mpi_size := 1
|}.

(** A cube entry with three channels: beams of major axis 7, 9 and an
    undefined one. *)
Definition entry : CubeEntry :=
  mkEntry "c.fits" (Demo.f 1) (Demo.f 1) "beamlog.c.txt"
    [mkBeam (Demo.f 7) (Demo.f 5) (Demo.f 0);
     mkBeam (Demo.f 9) (Demo.f 5) (Demo.f 0);
     mkBeam F64.nan F64.nan F64.nan] [] [].

End Strict.

(** Libraries for two cubes of five channels whose beams are (7, 5) and
    (10, 1): the beam of largest area, which [largest_beam] returns, is
    the first, the largest major axis is that of the second.  The
    deconvolution is that of [Strict]. *)
Module Narrow.

Definition libs : Libs := {|
  glob := glob (Libs := Demo.libs 5);
  getheader := getheader (Libs := Demo.libs 5);
  genfromtxt := fun name =>
    if String.eqb name "beamlog.a.txt"
    then Ok (Demo.table 5 (Demo.f 7) (Demo.f 5) (Demo.f 0))
    else Ok (Demo.table 5 (Demo.f 10) (Demo.f 1) (Demo.f 0));
  SpectralCube_read := fun _ => Ok (Demo.cube 5 []);
  Beam_new := Beam_new (Libs := Demo.libs 5);
  largest_beam := largest_beam (Libs := Demo.libs 5);
  attr_bpa := attr_bpa (Libs := Demo.libs 5);
  deconvolve := deconvolve (Libs := Strict.libs);
  gauss_factor := gauss_factor (Libs := Demo.libs 5);
  to_arcsec := to_arcsec (Libs := Demo.libs 5);
  np_isnan_beam := np_isnan_beam (Libs := Demo.libs 5);
  as_kernel := as_kernel (Libs := Demo.libs 5);
  convolve_same := convolve_same (Libs := Demo.libs 5);
  choose_pool := choose_pool (Libs := Demo.libs 5);
  mpi_size := 1
|}.


End Narrow.

(** Libraries whose [glob] finds nothing. *)
Definition no_files_libs : Libs := {|
  glob := fun _ => [];
  getheader := getheader (Libs := Demo.libs 5);
  genfromtxt := genfromtxt (Libs := Demo.libs 5);
  SpectralCube_read := SpectralCube_read (Libs := Demo.libs 5);
  Beam_new := Beam_new (Libs := Demo.libs 5);
  largest_beam := largest_beam (Libs := Demo.libs 5);
  attr_bpa := attr_bpa (Libs := Demo.libs 5);
  deconvolve := deconvolve (Libs := Demo.libs 5);
  gauss_factor := gauss_factor (Libs := Demo.libs 5);
  to_arcsec := to_arcsec (Libs := Demo.libs 5);
  np_isnan_beam := np_isnan_beam (Libs := Demo.libs 5);
  as_kernel := as_kernel (Libs := Demo.libs 5);
  convolve_same := convolve_same (Libs := Demo.libs 5);
  choose_pool := choose_pool (Libs := Demo.libs 5);
  mpi_size := 1
|}.

(** Shared state as a worker finds it: a plan of three channels, the
    first of them with an undefined kernel, and buffers of two slots. *)
Module Shared.

Definition entry : CubeEntry :=
  mkEntry "c.fits" (Demo.f 1) (Demo.f 1) "beamlog.c.txt" []
    [mkBeam F64.nan F64.nan F64.nan;
     mkBeam (Demo.f 0) (Demo.f 0) (Demo.f 0);
     mkBeam (Demo.f 0) (Demo.f 0) (Demo.f 0)]
    [Demo.f 1; Demo.f 2; Demo.f 3].

Definition world : World :=
  mkWorld true ∅ ∅ ∅ []
    [[[Demo.f 1; Demo.f 2]]; [[Demo.f 3; Demo.f 4]]]
    (Np.nans 2 1 2)
    (Some entry).

End Shared.

(** The shared world of two workers with buffers for two channels of a
    cube of 2 x 2 pixels. *)
Definition chunk_world : World :=
  set_arr_out (set_arr_in Shared.world (Np.nans 2 2 2)) (Np.nans 2 2 2).

(** What the copy loop leaves alone: names, directories, log, buffers,
    and every inode but the destination. *)
Definition untouched_but (w0 : World) (fdst : nat) (w : World) : Prop :=
  names w = names w0 /\ dirs w = dirs w0
  /\ log w = log w0 /\ arr_in w = arr_in w0
  /\ arr_out w = arr_out w0 /\ cubedict w = cubedict w0
  /\ has_samefile w = has_samefile w0
  /\ forall k, k <> fdst -> inodes w !! k = inodes w0 !! k.

(** [m] neither reads nor changes the log of steps: on a world with
    another log it does the same and leaves that log. *)
Definition ignores_log {A} (m : M A) : Prop :=
  forall w l, m (set_log w l) = (fst (m w), set_log (snd (m w)) l).

Section WorkerRuns.
Context `{L : Libs}.

(** What a worker that returns has read and done: [cd] is the cube
    record it found, [j] the slot it wrote and [newim] the image it
    stored there. *)
Inductive worker_run (idx start : Z) (w : World) (cd : CubeEntry) (j : nat)
    (newim : image) : Prop :=
  | WorkerRun (im : image) (cb : Beam) (sf : float64) (old : image)
      (Hcd : cubedict w = Some cd)
      (Hin : py_index (arr_in w) idx = Ok im)
      (Hcb : py_index (conbeams cd) (start + idx) = Ok cb)
      (Hsf : py_index (sfactors cd) (start + idx) = Ok sf)
      (Hsmooth : smooth im (dy cd) cb sf = Ok newim)
      (Hslot : py_norm (List.length (arr_out w)) idx = Ok j)
      (Hold : arr_out w !! j = Some old)
      (Hshape : List.length <$> newim = List.length <$> old).

Definition worker_result (start idx : Z) (w : World) (cd : CubeEntry) (j : nat)
    (newim : image) : World :=
  set_arr_out (set_log w (log w ++ [EvSmooth (filename cd) (start + idx)]))
              (<[j := newim]> (arr_out w)).

End WorkerRuns.

(** The entry and the masked table of one file, for a run whose beam
    logs have their lengths in [ns]. *)
Definition entry_of_file (ns : list nat) (file : string)
    (m : CubeEntry * list BeamRow) : Prop :=
  filename (fst m) = file /\ beamlog (fst m) = beamlog_of file
  /\ conbeams (fst m) = [] /\ sfactors (fst m) = []
  /\ oldbeams (fst m) = beam_of_row <$> snd m
  /\ List.length (snd m) ∈ ns.

(** The header updates of a log, oldest first: the file and the beam
    written to it. *)
Definition header_of (e : event) : option (string * Beam) :=
  match e with
  | EvHeader outfile b => Some (outfile, b)
  | _ => None
  end.

Definition headers (l : list event) : list (string * Beam) := omap header_of l.

(** A step of the chunk loop of the cube [file] with output [outfile]:
    smoothing a channel of the cube, or writing a chunk to the
    output. *)
Definition chunk_step (file outfile : string) (e : event) : bool :=
  match e with
  | EvSmooth f _ => String.eqb f file
  | EvWrite o _ _ _ => String.eqb o outfile
  | _ => false
  end.

(** [f"{outdir}/{os.path.basename(file.replace('.fits', '.sm.fits'))}"] *)
Definition outfile_of (outdir' file : string) : string :=
  outdir' +:+ "/" +:+ Str.basename (Str.replace ".fits" ".sm.fits" file).

(** While the chunks of a cube are processed: the globals name the
    cube, and the log is [X] followed by steps of its chunk loop. *)
Definition in_chunk_loop (file outfile : string) (X : list event) (w : World)
  : Prop :=
  (exists cd, cubedict w = Some cd /\ filename cd = file)
  /\ exists body, log w = X ++ body
       /\ Forall (fun e => chunk_step file outfile e = true) body.

(** The chunk writes of a log with all they hold, oldest first: the
    output file, the channel range and the data. *)
Definition full_write_of (e : event) : option (string * Z * Z * list image) :=
  match e with
  | EvWrite outfile start stop data => Some (outfile, start, stop, data)
  | _ => None
  end.

Definition full_writes (l : list event) : list (string * Z * Z * list image) :=
  omap full_write_of l.

Section Smoothed.
Context `{L : Libs}.



End Smoothed.

(** [s] holds a slash. *)
Definition has_slash (s : string) : bool :=
  existsb (Ascii.eqb "/"%char) (list_ascii_of_string s).

(* ===================================================================== *)
(** * Properties *)
(* ===================================================================== *)

(** ** Results *)

Lemma rbind_Ok {A B} (r : result A) (k : A -> result B) (b : B) :
  rbind r k = Ok b -> exists a, r = Ok a /\ k a = Ok b.
Proof. destruct r as [a|e]; simpl; [eauto | discriminate]. Qed.

Lemma rmap_length {A B} (f : A -> result B) (l : list A) (bs : list B) :
  rmap f l = Ok bs -> List.length bs = List.length l.
Proof.
  revert bs. induction l as [|a l IH]; intros bs; simpl.
  - intros [= <-]. reflexivity.
  - destruct (f a) as [b|e]; simpl; [|discriminate].
    destruct (rmap f l) as [bs'|e]; simpl; [|discriminate].
    intros [= <-]. simpl. f_equal. apply IH. reflexivity.
Qed.

Lemma rmap_lookup {A B} (f : A -> result B) (l : list A) (bs : list B) i a :
  rmap f l = Ok bs -> l !! i = Some a -> exists b, bs !! i = Some b /\ f a = Ok b.
Proof.
  revert bs i. induction l as [|x l IH]; intros bs i; simpl.
  - intros _ Hl. rewrite lookup_nil in Hl. discriminate.
  - destruct (f x) as [b|e] eqn:Hfx; simpl; [|discriminate].
    destruct (rmap f l) as [bs'|e]; simpl; [|discriminate].
    intros [= <-]. destruct i as [|i]; simpl.
    + intros [= <-]. eauto.
    + intros Hl. apply (IH bs' i); [reflexivity | exact Hl].
Qed.

(** ** The chunk planner *)

Lemma fold_max_ge_init (l : list Z) (x : Z) : x <= fold_left Z.max l x.
Proof.
  revert x. induction l as [|y l IH]; intros x; simpl; [lia|].
  specialize (IH (Z.max x y)). lia.
Qed.

Lemma fold_max_upper (l : list Z) (x y : Z) :
  y ∈ x :: l -> y <= fold_left Z.max l x.
Proof.
  revert x. induction l as [|z l IH]; intros x Hy; simpl.
  - apply list_elem_of_singleton in Hy. lia.
  - pose proof (fold_max_ge_init l (Z.max x z)) as Hge.
    apply elem_of_cons in Hy as [Heq | Hy]; [lia|].
    apply elem_of_cons in Hy as [Heq | Hy]; [lia|].
    apply IH. right. exact Hy.
Qed.

Lemma fold_max_elem (l : list Z) (x : Z) : fold_left Z.max l x ∈ x :: l.
Proof.
  revert x. induction l as [|z l IH]; intros x; simpl.
  - left.
  - specialize (IH (Z.max x z)).
    apply elem_of_cons in IH as [Heq | IH].
    + rewrite Heq.
      destruct (Z.max_spec x z) as [[_ ->] | [_ ->]]; [right; left | left].
    + right. right. exact IH.
Qed.

Lemma py_max_spec (l : list Z) (d : Z) :
  py_max l = Ok d -> d ∈ l /\ forall y, y ∈ l -> y <= d.
Proof.
  destruct l as [|x l]; simpl; [discriminate|].
  intros [= <-]. split; [apply fold_max_elem | apply fold_max_upper].
Qed.

Lemma py_max_nonempty (l : list Z) (x : Z) : x ∈ l -> exists d, py_max l = Ok d.
Proof. destruct l; [intros H; inversion H | simpl; eauto]. Qed.

Lemma elem_of_factors (count k : Z) :
  k ∈ factors count <-> 1 <= k <= count /\ Z.divide k count.
Proof.
  unfold factors. rewrite list_elem_of_filter, elem_of_seqZ.
  split.
  - intros [Hm Hr]. split; [lia|]. apply Z.mod_divide; [lia | exact Hm].
  - intros [Hr Hd]. split; [|lia]. apply Z.mod_divide; [lia | exact Hd].
Qed.

Lemma elem_of_candidates (max_cpu count k : Z) :
  k ∈ filter (fun i => i <= max_cpu) (factors count)
  <-> 1 <= k <= count /\ k <= max_cpu /\ Z.divide k count.
Proof. rewrite list_elem_of_filter, elem_of_factors. tauto. Qed.

(** What [cpu_to_use] returns, for positive arguments. *)
Lemma cpu_to_use_spec (max_cpu count : Z) :
  1 <= count -> 1 <= max_cpu ->
  exists d, cpu_to_use max_cpu count = Ok d
    /\ 1 <= d <= count /\ d <= max_cpu /\ Z.divide d count
    /\ forall k, 1 <= k <= max_cpu -> Z.divide k count -> k <= d.
Proof.
  intros Hc Hm. unfold cpu_to_use.
  destruct (py_max_nonempty (filter (fun i => i <= max_cpu) (factors count)) 1)
    as [d Hd].
  { apply elem_of_candidates. repeat split; try lia. apply Z.divide_1_l. }
  exists d. split; [exact Hd|].
  apply py_max_spec in Hd as [Hin Hmax].
  apply elem_of_candidates in Hin as (Hr & Hle & Hdiv).
  repeat split; try lia; try exact Hdiv.
  intros k Hk Hkd. apply Hmax, elem_of_candidates.
  repeat split; try lia; try exact Hkd.
  apply Z.divide_pos_le; [lia | exact Hkd].
Qed.

Lemma cpu_to_use_inv (max_cpu count w : Z) :
  cpu_to_use max_cpu count = Ok w ->
  1 <= w <= count /\ w <= max_cpu /\ Z.divide w count.
Proof.
  unfold cpu_to_use. intros H. apply py_max_spec in H as [Hin _].
  apply elem_of_candidates in Hin. tauto.
Qed.

(** C1.  For a channel count [count >= 1] and a worker bound
    [max_cpu >= 1], [cpu_to_use] returns the largest divisor of [count]
    that does not exceed [max_cpu]: it divides [count], it is at most
    [max_cpu], no divisor of [count] up to [max_cpu] is larger, and it is
    1 when [count] is prime and [max_cpu < count].  For 10 channels and
    4 workers it is 2, which gives the five chunks
    [0,2), [2,4), [4,6), [6,8), [8,10). *)
Theorem cpu_to_use_largest_divisor (max_cpu count : Z) :
  1 <= count -> 1 <= max_cpu ->
  (exists d, cpu_to_use max_cpu count = Ok d
     /\ Z.divide d count /\ 1 <= d <= max_cpu
     /\ (forall k, 1 <= k <= max_cpu -> Z.divide k count -> k <= d)
     /\ (Z.prime count -> max_cpu < count -> d = 1))
  /\ cpu_to_use 4 10 = Ok 2
  /\ chunks 2 (10 / 2) = [(0, 2); (2, 4); (4, 6); (6, 8); (8, 10)].
Proof.
  intros Hc Hm. split; [|split; reflexivity].
  destruct (cpu_to_use_spec max_cpu count Hc Hm)
    as (d & Hd & Hr & Hle & Hdiv & Hmax).
  exists d. repeat split; try lia; try assumption.
  intros [_ Hp] Hlt.
  destruct (Z.eq_dec d 1) as [H1|H1]; [exact H1|].
  exfalso. apply (Hp d); [lia | exact Hdiv].
Qed.

Lemma cpu_to_use_largest_divisor_witness :
  1 <= 10 /\ 1 <= 4 /\
  ((exists d, cpu_to_use 4 10 = Ok d
     /\ Z.divide d 10 /\ 1 <= d <= 4
     /\ (forall k, 1 <= k <= 4 -> Z.divide k 10 -> k <= d)
     /\ (Z.prime 10 -> 4 < 10 -> d = 1))
  /\ cpu_to_use 4 10 = Ok 2
  /\ chunks 2 (10 / 2) = [(0, 2); (2, 4); (4, 6); (6, 8); (8, 10)]).
Proof.
  split; [lia|]. split; [lia|].
  apply (cpu_to_use_largest_divisor 4 10); lia.
Defined.

(** ** Chunks *)






(** ** Invariants of monadic code *)

Lemma preserves_ret {A} I (a : A) : preserves I (ret a).
Proof. intros w H. exact H. Qed.

Lemma preserves_raise {A} I e : preserves I (@raise A e).
Proof. intros w H. exact H. Qed.

Lemma preserves_lift {A} I (r : result A) : preserves I (lift r).
Proof. intros w H. exact H. Qed.

Lemma preserves_get I : preserves I get_world.
Proof. intros w H. exact H. Qed.

Lemma preserves_bind {A B} I (m : M A) (k : A -> M B) :
  preserves I m -> (forall a, preserves I (k a)) -> preserves I (bind m k).
Proof.
  intros Hm Hk w H. unfold bind. specialize (Hm w H).
  destruct (m w) as [[a|e] w']; simpl in *; [apply Hk; exact Hm | exact Hm].
Qed.

Lemma preserves_for_each {A} I (l : list A) (body : A -> M unit) :
  (forall a, a ∈ l -> preserves I (body a)) -> preserves I (for_each l body).
Proof.
  induction l as [|a l IH]; intros Hb; simpl.
  - apply preserves_ret.
  - apply preserves_bind.
    + apply Hb. left.
    + intros _. apply IH. intros b Hin. apply Hb. right. exact Hin.
Qed.

Lemma preserves_modify I (f : World -> World) :
  (forall w, I w -> I (f w)) -> preserves I (modify f).
Proof. intros Hf w H. apply Hf, H. Qed.

Lemma preserves_emit I e :
  (forall w l, I w -> I (set_log w l)) -> preserves I (emit e).
Proof. intros Hf. apply preserves_modify. intros w H. apply Hf, H. Qed.

(** Bind on a known world. *)
Lemma bind_get {B} (k : World -> M B) w : bind get_world k w = k w w.
Proof. reflexivity. Qed.

(** ** The shared buffers keep their shape *)


Lemma fmap_const_replicate {A B} (b : B) (l : list A) :
  (fun _ => b) <$> l = replicate (List.length l) b.
Proof. induction l as [|a l IH]; simpl; [reflexivity | f_equal; exact IH]. Qed.

Lemma shape_channel_image (c : Cube) (ch : nat) :
  List.length <$> channel_image c ch = replicate (ny c) (nx c).
Proof.
  unfold channel_image. rewrite <- list_fmap_compose.
  rewrite (list_fmap_ext _ (fun _ => nx c) (seq 0 (ny c))).
  - rewrite fmap_const_replicate, length_seq. reflexivity.
  - intros i y _. simpl. rewrite length_fmap, length_seq. reflexivity.
Qed.


Lemma shape3_cube_slice (c : Cube) (start stop : Z) :
  shape3 (cube_slice c start stop)
  = replicate (List.length (cube_slice c start stop)) (replicate (ny c) (nx c)).
Proof.
  unfold shape3, cube_slice. rewrite <- list_fmap_compose.
  rewrite length_fmap. rewrite <- fmap_const_replicate.
  apply list_fmap_ext.
  intros i ch _. simpl. apply shape_channel_image.
Qed.

Lemma shape3_length (buf : list image) : List.length (shape3 buf) = List.length buf.
Proof. unfold shape3. apply length_fmap. Qed.

(** [buf[:] = src] returns a buffer of the shape of [buf] when the
    images of [src] have the shape of those of [buf]. *)
Lemma assign_all_shape (buf src out : list image) (n : nat) (s : list nat) :
  shape3 buf = replicate n s ->
  shape3 src = replicate (List.length src) s ->
  Np.assign_all buf src = Ok out ->
  shape3 out = replicate n s.
Proof.
  intros Hb Hs. unfold Np.assign_all.
  assert (Hn : List.length buf = n).
  { rewrite <- shape3_length, Hb. apply length_replicate. }
  case_bool_decide as Hlen.
  - intros [= <-]. rewrite Hs, Hlen, Hn. reflexivity.
  - destruct src as [|a [|b src]]; try discriminate.
    intros [= <-]. unfold shape3 in *. rewrite <- list_fmap_compose.
    simpl in Hs. injection Hs as Ha.
    rewrite (list_fmap_ext _ (fun _ => s) buf); [|intros; simpl; exact Ha].
    rewrite fmap_const_replicate, Hn. reflexivity.
Qed.

Lemma py_norm_lt (n : nat) (i : Z) (j : nat) : py_norm n i = Ok j -> (j < n)%nat.
Proof.
  unfold py_norm. destruct (i <? 0);
    destruct (_ && _) eqn:H; try discriminate; intros [= <-];
    apply andb_prop in H as [H0 H1]; lia.
Qed.

Lemma py_index_lookup {A} (l : list A) (i : Z) (a : A) :
  py_index l i = Ok a ->
  exists j, py_norm (List.length l) i = Ok j /\ l !! j = Some a.
Proof.
  unfold py_index. destruct (py_norm _ _) as [j|]; simpl; [|discriminate].
  destruct (l !! j) eqn:Hl; [intros [= <-]; eauto | discriminate].
Qed.

(** [buf[idx] = newim[:]] keeps the shape of the buffer. *)
Lemma assign_slot_shape (buf out : list image) (idx : Z) (newim : image) :
  assign_slot buf idx newim = Ok out -> shape3 out = shape3 buf.
Proof.
  unfold assign_slot.
  destruct (py_norm _ _) as [j|] eqn:Hj; simpl; [|discriminate].
  destruct (py_index buf idx) as [old|e] eqn:Hold; simpl; [|discriminate].
  case_bool_decide as Hs; [|discriminate]. intros [= <-].
  apply py_index_lookup in Hold as (j' & Hj' & Hold).
  rewrite Hj in Hj'. injection Hj' as <-.
  unfold shape3. rewrite list_fmap_insert, Hs.
  apply list_insert_id. rewrite list_lookup_fmap, Hold. reflexivity.
Qed.

Section Executor.
Context `{L : Libs}.

(** The reads of [worker] before it smooths: each may raise, and [tac]
    closes the goal of a worker that stopped there. *)
Ltac worker_reads w cd idx start tac :=
  unfold worker, bind, get_world, lift, emit, modify; simpl;
  destruct (cubedict w) as [cd|]; simpl; [|tac];
  destruct (py_index (arr_in w) idx); simpl; [|tac];
  destruct (py_index (conbeams cd) (start + idx)); simpl; [|tac];
  destruct (py_index (sfactors cd) (start + idx)); simpl; [|tac].

Lemma worker_shape (width ny nx : nat) (idx start : Z) :
  preserves (buffers_shaped width ny nx) (worker idx start).
Proof.
  intros w [Hin Hout].
  worker_reads w cd idx start ltac:(split; assumption).
  destruct (smooth _ _ _ _) as [newim|]; simpl; [|split; assumption].
  destruct (assign_slot (arr_out w) idx newim) as [out|] eqn:Hout'; simpl;
    [|split; assumption].
  split; simpl; [exact Hin|].
  rewrite (assign_slot_shape _ _ _ _ Hout'). exact Hout.
Qed.


Lemma process_chunk_unfold (args : Args) (cube : Cube) (outfile : string)
    (width : Z) (c : Z * Z) (w : World) :
  process_chunk args cube outfile width c w
  = match Np.assign_all (arr_in w) (cube_slice cube (fst c) (snd c)) with
    | Raise e => (Raise e, w)
    | Ok buf =>
        match choose_pool (mpi args) (n_cores args) with
        | Raise e => (Raise e, set_arr_in w buf)
        | Ok _ =>
            match for_each (seqZ 0 width) (fun idx => worker idx (fst c))
                    (set_arr_in w buf) with
            | (Ok _, w2) =>
                (Ok tt,
                 set_log w2 (log w2 ++ [EvWrite outfile (fst c) (snd c) (arr_out w2)]))
            | (Raise e, w2) => (Raise e, w2)
            end
        end
    end.
Proof.
  unfold process_chunk. rewrite bind_get. unfold bind at 1. unfold lift at 1.
  destruct (Np.assign_all _ _) as [buf|]; [|reflexivity].
  unfold bind at 1. unfold modify at 1. unfold bind at 1. unfold lift at 1.
  destruct (choose_pool _ _) as [[]|]; [|reflexivity].
  unfold bind at 1.
  destruct (for_each _ _ _) as [[[]|e] w2]; reflexivity.
Qed.

Lemma process_chunk_shape (args : Args) (cube : Cube) (outfile : string)
    (width : Z) (c : Z * Z) n :
  preserves (buffers_shaped n (ny cube) (nx cube))
            (process_chunk args cube outfile width c).
Proof.
  intros w [Hin Hout]. rewrite process_chunk_unfold.
  destruct (Np.assign_all _ _) as [buf|] eqn:Hbuf; [|split; assumption].
  pose proof (assign_all_shape _ _ _ _ _ Hin (shape3_cube_slice _ _ _) Hbuf) as Hb.
  assert (H1 : buffers_shaped n (ny cube) (nx cube) (set_arr_in w buf))
    by (split; [exact Hb | exact Hout]).
  destruct (choose_pool _ _) as [[]|]; [|exact H1].
  pose proof (preserves_for_each _ (seqZ 0 width) (fun idx => worker idx (fst c))
                (fun idx _ => worker_shape n (ny cube) (nx cube) idx (fst c))
                _ H1) as H2.
  destruct (for_each _ _ _) as [[[]|e] w2]; exact H2.
Qed.

(** The chunk loop of one cube keeps both buffers in shape. *)
Lemma chunk_loop_shape (args : Args) (cube : Cube) (outfile : string)
    (width : Z) (cs : list (Z * Z)) n :
  preserves (buffers_shaped n (ny cube) (nx cube))
            (for_each cs (process_chunk args cube outfile width)).
Proof.
  apply preserves_for_each. intros c _. apply process_chunk_shape.
Qed.

End Executor.


(** ** Undefined kernels give blank channels *)

Lemma mul_nan (x : float64) : F64.mul x F64.nan = F64.nan.
Proof. destruct x; reflexivity. Qed.

Lemma scale_nan (im : image) : Np.scale im F64.nan = blank_like im.
Proof.
  unfold Np.scale, blank_like. apply list_fmap_ext. intros _ row _.
  apply list_fmap_ext. intros _ x _. apply mul_nan.
Qed.

Lemma blank_like_shape (im : image) :
  List.length <$> blank_like im = List.length <$> im.
Proof.
  unfold blank_like. rewrite <- list_fmap_compose.
  apply list_fmap_ext. intros _ row _. simpl. apply length_fmap.
Qed.

Lemma blank_like_nan (im : image) (row : list float64) (x : float64) :
  row ∈ blank_like im -> x ∈ row -> x = F64.nan.
Proof.
  unfold blank_like. intros Hrow Hx.
  apply list_elem_of_fmap in Hrow as (row0 & -> & _).
  apply list_elem_of_fmap in Hx as (x0 & -> & _). reflexivity.
Qed.

Section Smoothing.
Context `{L : Libs}.

(** C3.  When the kernel of a channel is undefined ([np.isnan] holds of
    it), [smooth] returns, without raising, the image of the shape of
    its input in which every pixel is NaN, whatever the input image,
    pixel scale and factor; and a worker whose channel has such a kernel
    returns normally, having stored exactly that image in its slot of
    the output buffer and touched no other slot. *)
Theorem smooth_undefined_blank (im : image) (conbeam : Beam) (sfactor : float64) :
  np_isnan_beam conbeam = true ->
  (forall dy', smooth im dy' conbeam sfactor = Ok (blank_like im))
  /\ List.length <$> blank_like im = List.length <$> im
  /\ (forall row x, row ∈ blank_like im -> x ∈ row -> x = F64.nan)
  /\ (forall (idx start : Z) (w : World) (cd : CubeEntry),
        cubedict w = Some cd ->
        py_index (arr_in w) idx = Ok im ->
        py_index (conbeams cd) (start + idx) = Ok conbeam ->
        py_index (sfactors cd) (start + idx) = Ok sfactor ->
        shape3 (arr_out w) = shape3 (arr_in w) ->
        exists (j : nat) (w' : World),
          worker idx start w = (Ok tt, w')
          /\ py_norm (List.length (arr_out w)) idx = Ok j
          /\ arr_out w' = <[j := blank_like im]> (arr_out w)
          /\ arr_out w' !! j = Some (blank_like im)
          /\ arr_in w' = arr_in w).
Proof.
  intros Hnan.
  assert (Hs : forall dy', smooth im dy' conbeam sfactor = Ok (blank_like im)).
  { intros dy'. unfold smooth. rewrite Hnan, scale_nan. reflexivity. }
  split; [exact Hs|]. split; [apply blank_like_shape|].
  split; [apply blank_like_nan|].
  intros idx start w cd Hcd Him Hcb Hsf Hshape.
  destruct (py_index_lookup _ _ _ Him) as (j & Hj & Hlk).
  assert (Hlen : List.length (arr_out w) = List.length (arr_in w)).
  { rewrite <- !shape3_length, Hshape. reflexivity. }
  assert (Hold : exists old, arr_out w !! j = Some old
                   /\ List.length <$> old = List.length <$> im).
  { assert (Hsj : shape3 (arr_out w) !! j = shape3 (arr_in w) !! j)
      by (rewrite Hshape; reflexivity).
    unfold shape3 in Hsj. rewrite !list_lookup_fmap, Hlk in Hsj. simpl in Hsj.
    destruct (arr_out w !! j) as [old|]; [|discriminate].
    exists old. split; [reflexivity|]. simpl in Hsj. congruence. }
  destruct Hold as (old & Hold & Hso).
  exists j, (set_arr_out
               (set_log w (log w ++ [EvSmooth (filename cd) (start + idx)]))
               (<[j := blank_like im]> (arr_out w))).
  assert (Hjo : py_norm (List.length (arr_out w)) idx = Ok j)
    by (rewrite Hlen; exact Hj).
  split.
  { unfold worker, bind, get_world, lift, emit, modify. simpl.
    rewrite Hcd. simpl. rewrite Him, Hcb, Hsf. simpl. rewrite Hs. simpl.
    unfold assign_slot, py_index. rewrite Hjo. simpl. rewrite Hold.
    unfold rbind. rewrite blank_like_shape, Hso.
    rewrite bool_decide_eq_true_2 by reflexivity. reflexivity. }
  split; [exact Hjo|]. split; [reflexivity|]. split; [|reflexivity].
  simpl. apply list_lookup_insert_eq. apply lookup_lt_Some in Hold. exact Hold.
Qed.

End Smoothing.

Lemma smooth_undefined_blank_witness :
  np_isnan_beam (Libs := Demo.libs 5) (mkBeam F64.nan F64.nan F64.nan) = true
  /\ smooth (L := Demo.libs 5) [[Demo.f 1; Demo.f 2]; [Demo.f 3; Demo.f 4]]
       (Demo.f 1) (mkBeam F64.nan F64.nan F64.nan) (Demo.f 1)
     = Ok [[F64.nan; F64.nan]; [F64.nan; F64.nan]].
Proof.
  split; [reflexivity|].
  exact (proj1 (smooth_undefined_blank (L := Demo.libs 5)
                  [[Demo.f 1; Demo.f 2]; [Demo.f 3; Demo.f 4]]
                  (mkBeam F64.nan F64.nan F64.nan) (Demo.f 1) eq_refl)
               (Demo.f 1)).
Defined.

(** ** Errors before the first cube *)

Section Preparation.
Context `{L : Libs}.

(** An exception of the preparation leaves the world as it was: no plan
    was computed, no file copied, no channel smoothed or written. *)
Lemma main_prepare_raises (args : Args) (e : exn) (w : World) :
  prepare args = Raise e -> main args w = (Raise e, w).
Proof. intros H. unfold main, bind, lift. rewrite H. reflexivity. Qed.

Lemma prepare_aggregate_raises (args : Args) (e : exn) :
  glob (infile args) <> [] ->
  aggregate (glob (infile args)) = Raise e ->
  exists e', prepare args = Raise e'.
Proof.
  intros Hne Hagg. unfold prepare.
  destruct (fix_outdir (outdir args)) as [o|e0]; simpl; [|eauto].
  rewrite bool_decide_eq_false_2 by exact Hne. rewrite Hagg. simpl. eauto.
Qed.


End Preparation.



Section ChannelCounts.
Context `{L : Libs}.

Lemma getbeams_Ok (beamlog : string) (bn : list BeamRow * nat) :
  getbeams beamlog = Ok bn ->
  genfromtxt beamlog = Ok (fst bn) /\ snd bn = List.length (fst bn)
  /\ List.length (fst bn) <> 1%nat.
Proof.
  unfold getbeams. destruct (genfromtxt beamlog) as [rows|]; simpl; [|discriminate].
  destruct rows as [|r [|r' rows]]; try discriminate; intros [= <-];
    repeat split; discriminate.
Qed.

Lemma load_file_nchan (file : string) (ld : Loaded) :
  load_file file = Ok ld -> l_nchan ld = List.length (l_beam ld).
Proof.
  unfold load_file.
  destruct (getheader file); simpl; [|discriminate].
  destruct (getbeams _) as [bn|] eqn:Hbn; simpl; [|discriminate].
  apply getbeams_Ok in Hbn as (_ & Hn & _).
  destruct (SpectralCube_read file); simpl; [|discriminate].
  destruct (central_mask _); simpl; [|discriminate].
  intros [= <-]. exact Hn.
Qed.

Lemma rmap_load_nchans (files : list string) (loaded : list Loaded) :
  rmap load_file files = Ok loaded ->
  l_nchan <$> loaded = (fun ld => List.length (l_beam ld)) <$> loaded.
Proof.
  revert loaded. induction files as [|f files IH]; intros loaded; simpl.
  - intros [= <-]. reflexivity.
  - destruct (load_file f) as [ld|] eqn:Hld; simpl; [|discriminate].
    destruct (rmap load_file files) as [lds|]; simpl; [|discriminate].
    intros [= <-]. simpl. f_equal; [apply (load_file_nchan f); exact Hld|].
    apply IH. reflexivity.
Qed.

(** A stack of tables is an array exactly when the row counts agree. *)
Lemma array_ragged {A} (tables : list (list A)) :
  all_equal_first (List.length <$> tables) = false ->
  Np.array tables = Raise ValueError.
Proof.
  destruct tables as [|t ts]; simpl; [discriminate|].
  rewrite Nat.eqb_refl. simpl. intros H.
  assert (Hf : forallb (fun t' => Nat.eqb (List.length t') (List.length t)) ts = false).
  { rewrite <- H. clear H. induction ts as [|t' ts IH]; simpl; [reflexivity|].
    rewrite IH. reflexivity. }
  rewrite Hf. reflexivity.
Qed.

(** C6.  When the beam logs of the input cubes were read and do not all
    have the same channel count, the aggregation of the cubes raises;
    so [main] raises too, with that very exception unless the output
    directory was already refused, and it leaves the world untouched:
    the largest beam is never looked for, no target beam is chosen and
    nothing is convolved or written. *)
Theorem unequal_channel_counts_abort (args : Args) (w : World)
    (loaded : list Loaded) :
  rmap load_file (glob (infile args)) = Ok loaded ->
  all_equal_first (l_nchan <$> loaded) = false ->
  (exists e, aggregate (glob (infile args)) = Raise e)
  /\ (exists e, prepare args = Raise e /\ main args w = (Raise e, w)).
Proof.
  intros Hload Hne.
  assert (Hagg : aggregate (glob (infile args)) = Raise ValueError).
  { unfold aggregate. rewrite Hload. simpl.
    rewrite (rmap_load_nchans _ _ Hload) in Hne.
    rewrite array_ragged; [reflexivity|].
    rewrite <- list_fmap_compose. exact Hne. }
  split; [eauto|].
  assert (Hfiles : glob (infile args) <> []).
  { intros Hnil. rewrite Hnil in Hload. simpl in Hload.
    injection Hload as <-. discriminate Hne. }
  destruct (prepare_aggregate_raises args _ Hfiles Hagg) as [e He].
  exists e. split; [exact He | apply main_prepare_raises; exact He].
Qed.

End ChannelCounts.

Lemma unequal_channel_counts_abort_witness :
  exists loaded,
    rmap (load_file (L := Demo.libs 4)) ["a.fits"; "b.fits"]%string = Ok loaded
    /\ l_nchan <$> loaded = [5; 4]%nat
    /\ all_equal_first (l_nchan <$> loaded) = false
    /\ exists e, main (L := Demo.libs 4) (Demo.args None None None) Demo.world
                 = (Raise e, Demo.world).
Proof.
  destruct (rmap (load_file (L := Demo.libs 4)) ["a.fits"; "b.fits"]%string)
    as [loaded|e] eqn:Hload; [|vm_compute in Hload; discriminate].
  assert (Hn : l_nchan <$> loaded = [5; 4]%nat).
  { vm_compute in Hload. injection Hload as <-. reflexivity. }
  assert (Hne : all_equal_first (l_nchan <$> loaded) = false)
    by (rewrite Hn; reflexivity).
  exists loaded. split; [reflexivity|]. split; [exact Hn|]. split; [exact Hne|].
  destruct (unequal_channel_counts_abort (L := Demo.libs 4)
              (Demo.args None None None) Demo.world loaded Hload Hne)
    as (_ & e & _ & Hmain).
  exists e. exact Hmain.
Defined.

(** ** The target beam *)

Section TargetBeam.
Context `{L : Libs}.

(** The axes of the target beam: a value asked for is used as it is
    (it was not below the minimum), a missing one is the rounded-up
    major axis of the largest beam. *)
Lemma target_params_axes (args : Args) (big_beam : Beam)
    (p : float64 * float64 * float64) :
  target_params args big_beam = Ok p ->
  fst (fst p) = default (round_up (major big_beam) 0) (bmaj args)
  /\ snd (fst p) = default (round_up (major big_beam) 0) (bmin args).
Proof.
  unfold target_params.
  destruct (match bpa args, bmin args, bmaj args with
            | None, Some _, Some _ => attr_bpa big_beam
            | _, _, _ => Ok (F64.of_Z 0)
            end) as [v|]; simpl; [|discriminate].
  destruct (bmaj args) as [x|]; simpl;
    [destruct (F64.ltb x _); simpl; [discriminate|]|];
    (destruct (bmin args) as [y|]; simpl;
     [destruct (F64.ltb y _); simpl; [discriminate|]|]);
    intros [= <-]; split; reflexivity.
Qed.

(** The position angle of the target beam when one was asked for: 0,
    whatever was asked for. *)
Lemma supplied_bpa_unused (args : Args) (big_beam : Beam) (x : float64)
    (p : float64 * float64 * float64) :
  bpa args = Some x -> target_params args big_beam = Ok p -> snd p = F64.of_Z 0.
Proof.
  intros Hx. unfold target_params. rewrite Hx. simpl.
  destruct (bmaj args) as [a|]; simpl;
    [destruct (F64.ltb a _); simpl; [discriminate|]|];
    (destruct (bmin args) as [b|]; simpl;
     [destruct (F64.ltb b _); simpl; [discriminate|]|]);
    intros [= <-]; reflexivity.
Qed.

End TargetBeam.

(** C7, as the code has it.  With a position angle [x] on the command
    line and no axes, the arguments of [Beam(...)] are the rounded-up
    major axis of the largest beam, twice, and the position angle 0:
    [x] is not used.  On the two demonstration cubes a requested angle
    of 45 degrees gives the target beam (8, 8, 0). *)
Theorem explicit_bpa_discarded :
  (forall (L : Libs) (inf : string) (o : option string) (n : Z) (m : bool)
          (x : float64) (big_beam : Beam),
      target_params (mkArgs inf o None None (Some x) n m) big_beam
      = Ok (round_up (major big_beam) 0, round_up (major big_beam) 0, F64.of_Z 0))
  /\ (exists o d b,
        prepare (L := Demo.libs 5) (Demo.args None None (Some (Demo.f 45)))
        = Ok (o, d, b, mkBeam (Demo.f 8) (Demo.f 8) (Demo.f 0)))
  /\ Demo.f 0 <> Demo.f 45.
Proof.
  split; [intros; reflexivity|]. split; [|discriminate].
  destruct (prepare (L := Demo.libs 5) (Demo.args None None (Some (Demo.f 45))))
    as [[[[o d] b] nb]|e] eqn:H; vm_compute in H; [|discriminate].
  exists o, d, b. injection H as _ _ _ <-. reflexivity.
Qed.

(** ** The same-file guard of [copyfile] *)

Lemma nsfe_bind {A B} (m : M A) (k : A -> M B) :
  no_same_file_error m -> (forall a, no_same_file_error (k a)) ->
  no_same_file_error (bind m k).
Proof.
  intros Hm Hk w. unfold bind. specialize (Hm w).
  destruct (m w) as [[a|e] w']; simpl in *; [apply Hk | exact Hm].
Qed.

Lemma nsfe_ret {A} (a : A) : no_same_file_error (ret a).
Proof. intros w H. exact H. Qed.

Lemma nsfe_for_each {A} (l : list A) (body : A -> M unit) :
  (forall a, no_same_file_error (body a)) -> no_same_file_error (for_each l body).
Proof.
  intros Hb. induction l as [|a l IH]; simpl; [apply nsfe_ret|].
  apply nsfe_bind; [apply Hb | intros _; exact IH].
Qed.

Lemma nsfe_check_not_fifo (fn : string) : no_same_file_error (check_not_fifo fn).
Proof.
  intros w. unfold check_not_fifo.
  destruct (FS.stat w fn) as [[i n]|e]; simpl; [|tauto].
  destruct (FS.S_ISFIFO n); simpl; tauto.
Qed.

Lemma nsfe_symlink (t dst : string) : no_same_file_error (FS.symlink t dst).
Proof.
  intros w. unfold FS.symlink. destruct (names w !! dst); simpl; [tauto|].
  destruct (FS.dir_exists w (FS.parent dst)); simpl; tauto.
Qed.

Lemma stat_not_same_file_error (w : World) (p : string) :
  ~ is_SameFileError (FS.stat w p).
Proof.
  unfold FS.stat.
  assert (Hf : forall fuel q, ~ is_SameFileError (FS.follow fuel w q)).
  { induction fuel as [|k IH]; intros q; simpl;
      destruct (names w !! q) as [[i|t]|]; simpl; auto. }
  specialize (Hf FS.MAXSYMLINKS p).
  destruct (FS.follow FS.MAXSYMLINKS w p) as [q|e]; simpl; [|exact Hf].
  destruct (names w !! q) as [[i|t]|]; simpl; try tauto.
  destruct (inodes w !! i); simpl; tauto.
Qed.

Lemma nsfe_open_rb (p : string) : no_same_file_error (FS.open_rb p).
Proof.
  intros w. unfold FS.open_rb. pose proof (stat_not_same_file_error w p) as H.
  destruct (FS.stat w p) as [[i n]|e]; simpl; tauto.
Qed.

Lemma nsfe_open_wb (p : string) : no_same_file_error (FS.open_wb p).
Proof.
  intros w. unfold FS.open_wb.
  assert (Hf : forall fuel q, ~ is_SameFileError (FS.follow fuel w q)).
  { induction fuel as [|k IH]; intros q; simpl;
      destruct (names w !! q) as [[i|t]|]; simpl; auto. }
  specialize (Hf FS.MAXSYMLINKS p).
  destruct (FS.follow FS.MAXSYMLINKS w p) as [q|e]; simpl; [|exact Hf].
  destruct (names w !! q) as [[i|t]|]; simpl;
    try (destruct (FS.dir_exists w (FS.parent q)); simpl; tauto).
  destruct (inodes w !! i) as [[c|]|]; simpl; tauto.
Qed.

Lemma nsfe_copy_loop (fuel fsrc fdst spos dpos length : nat) :
  no_same_file_error (copy_loop fuel fsrc fdst spos dpos length).
Proof.
  revert spos dpos. induction fuel as [|k IH]; intros spos dpos w; simpl; [tauto|].
  destruct (FS.read_at w fsrc spos length) as [|b buf]; simpl; [tauto|].
  unfold bind, FS.write_at.
  destruct (inodes w !! fdst) as [[c|]|]; simpl; apply IH.
Qed.

Lemma nsfe_copyfileobj (fsrc fdst : FS.handle) (length : nat) :
  no_same_file_error (copyfileobj fsrc fdst length).
Proof. intros w. unfold copyfileobj. apply nsfe_copy_loop. Qed.

Lemma samefile_true (w : World) (src dst : string) :
  FS.samefile w src dst = Ok true <-> refer_to_same_file w src dst.
Proof.
  unfold FS.samefile, refer_to_same_file. split.
  - destruct (FS.stat w src) as [[i n1]|]; simpl; [|discriminate].
    destruct (FS.stat w dst) as [[j n2]|]; simpl; [|discriminate].
    intros [= H]. apply bool_decide_eq_true_1 in H. simpl in H. subst j. eauto.
  - intros (i & n1 & n2 & -> & ->). simpl.
    rewrite bool_decide_eq_true_2 by reflexivity. reflexivity.
Qed.

Lemma samefile_guard (w : World) (src dst : string) :
  has_samefile w = true ->
  truthy (_samefile w src dst) = true <-> refer_to_same_file w src dst.
Proof.
  intros Hs. unfold _samefile. rewrite Hs. rewrite <- samefile_true.
  destruct (FS.samefile w src dst) as [[|]|e]; simpl; split;
    intros H; try reflexivity; try discriminate.
Qed.

(** C8.  On a platform with [os.path.samefile], [copyfile(src, dst)]
    raises [SameFileError] exactly when [src] and [dst] refer to the
    same file; it then raises at once: the world after the call is the
    world before it, so that nothing was opened, truncated or written,
    and the destination holds what it held. *)
Theorem copyfile_same_file_guard (w : World) (src dst : string)
    (follow_symlinks : bool) :
  has_samefile w = true ->
  (refer_to_same_file w src dst
   <-> is_SameFileError (fst (copyfile src dst follow_symlinks w)))
  /\ (refer_to_same_file w src dst ->
      copyfile src dst follow_symlinks w = (Raise (SameFileError src dst), w)
      /\ FS.stat (snd (copyfile src dst follow_symlinks w)) dst = FS.stat w dst).
Proof.
  intros Hs.
  assert (Hraise : refer_to_same_file w src dst ->
            copyfile src dst follow_symlinks w = (Raise (SameFileError src dst), w)).
  { intros Hsame. apply (samefile_guard w src dst Hs) in Hsame.
    unfold copyfile. rewrite bind_get. rewrite Hsame. reflexivity. }
  split; [split|].
  - intros Hsame. rewrite (Hraise Hsame). exact I.
  - intros Herr.
    destruct (truthy (_samefile w src dst)) eqn:Ht;
      [apply (samefile_guard w src dst Hs); exact Ht|].
    exfalso. revert Herr. unfold copyfile. rewrite bind_get, Ht.
    apply nsfe_bind; [apply nsfe_for_each, nsfe_check_not_fifo|].
    intros _. apply nsfe_bind; [intros w' H; exact H|].
    intros w1. apply nsfe_bind; [|intros _; apply nsfe_ret].
    destruct (negb follow_symlinks && FS.islink w1 src).
    + destruct (names w1 !! src) as [[i|t]|]; try (intros w' H; exact H).
      apply nsfe_symlink.
    + apply nsfe_bind; [apply nsfe_open_rb|]. intros fsrc.
      apply nsfe_bind; [apply nsfe_open_wb|]. intros fdst.
      apply nsfe_copyfileobj.
  - intros Hsame. rewrite (Hraise Hsame). split; reflexivity.
Qed.

Lemma copyfile_same_file_guard_witness :
  has_samefile Demo.world = true
  /\ refer_to_same_file Demo.world "a.fits" "alias.fits"
  /\ copyfile "a.fits" "alias.fits" true Demo.world
     = (Raise (SameFileError "a.fits" "alias.fits"), Demo.world).
Proof.
  assert (Hsame : refer_to_same_file Demo.world "a.fits" "alias.fits").
  { exists 1%nat, (Regular [Byte.x53; Byte.x49]), (Regular [Byte.x53; Byte.x49]).
    split; vm_compute; reflexivity. }
  split; [reflexivity|]. split; [exact Hsame|].
  exact (proj1 (proj2 (copyfile_same_file_guard Demo.world "a.fits" "alias.fits"
                         true eq_refl) Hsame)).
Defined.

(** ** The union of the validity masks *)

(** A closed form of numpy's broadcasting on 1-D arrays. *)

Lemma tab_length {A} (g : nat -> A) n : List.length (tab g n) = n.
Proof. unfold tab. rewrite length_fmap. apply length_seq. Qed.

Lemma tab_lookup {A} (g : nat -> A) n c : (c < n)%nat -> tab g n !! c = Some (g c).
Proof.
  intros H. unfold tab. rewrite list_lookup_fmap, lookup_seq_lt by exact H.
  reflexivity.
Qed.

Lemma tab_ext {A} (g h : nat -> A) n :
  (forall c, (c < n)%nat -> g c = h c) -> tab g n = tab h n.
Proof.
  intros H. unfold tab. apply list_fmap_ext. intros i c Hc.
  apply lookup_seq in Hc as [-> Hlt]. apply H. exact Hlt.
Qed.

Lemma eq_tab {A} (l : list A) (g : nat -> A) :
  (forall c x, l !! c = Some x -> g c = x) -> l = tab g (List.length l).
Proof.
  intros H. apply (list_eq_same_length _ _ (List.length l));
    [apply tab_length | reflexivity|].
  intros i x y Hi Hx Hy. rewrite tab_lookup in Hy by exact Hi.
  injection Hy as <-. symmetry. apply H. exact Hx.
Qed.

Lemma broadcast2_tab {A B C} (dA : A) (dB : B) (f : A -> B -> C)
    (l : list A) (m : list B) :
  Np.broadcast2 f l m
  = match shape_join (List.length l) (List.length m) with
    | None => Raise ValueError
    | Some n => Ok (tab (fun c => f (bcget dA l c) (bcget dB m c)) n)
    end.
Proof.
  unfold Np.broadcast2, shape_join.
  case_bool_decide as Hlen.
  - rewrite decide_True by exact Hlen. f_equal.
    rewrite (eq_tab (zip_with f l m) (fun c => f (bcget dA l c) (bcget dB m c))).
    + rewrite length_zip_with, <- Hlen, Nat.min_id. reflexivity.
    + intros c z Hz. apply lookup_zip_with_Some in Hz as (x & y & -> & Hx & Hy).
      destruct l as [|a [|a' l]]; destruct m as [|b [|b' m]];
        try discriminate Hlen; simpl in *.
      * discriminate Hx.
      * destruct c; simpl in *; [congruence | discriminate Hx].
      * rewrite Hx, Hy. reflexivity.
  - rewrite decide_False by exact Hlen.
    destruct l as [|a [|a' l]].
    + simpl. destruct m as [|b [|b' m]]; reflexivity.
    + simpl. f_equal. rewrite (eq_tab (f a <$> m) (fun c => f a (bcget dB m c))).
      * rewrite length_fmap. reflexivity.
      * intros c z Hz. rewrite list_lookup_fmap in Hz.
        destruct (m !! c) as [y|] eqn:Hy; [|discriminate].
        injection Hz as <-. f_equal.
        destruct m as [|b [|b' m]]; simpl in *.
        -- discriminate Hy.
        -- exfalso. apply Hlen. reflexivity.
        -- rewrite Hy. reflexivity.
    + destruct m as [|b [|b' m]]; [reflexivity | | reflexivity].
      transitivity (Ok ((fun x => f x b) <$> a :: a' :: l));
        [reflexivity|].
      destruct (decide (List.length (a :: a' :: l) = 1%nat)) as [H1|_];
        [discriminate H1|].
      rewrite decide_True by reflexivity. f_equal.
      rewrite (eq_tab ((fun x => f x b) <$> a :: a' :: l)
                 (fun c => f (bcget dA (a :: a' :: l) c) b)).
      * rewrite length_fmap. reflexivity.
      * intros c z Hz. rewrite list_lookup_fmap in Hz.
        destruct ((a :: a' :: l) !! c) as [x|] eqn:Hx; [|discriminate].
        injection Hz as <-. unfold bcget. rewrite Hx. reflexivity.
Qed.

Lemma shape_join_Some (n k n' : nat) :
  shape_join n k = Some n' ->
  (n = k /\ n' = n) \/ (n = 1%nat /\ n' = k) \/ (k = 1%nat /\ n' = n).
Proof. unfold shape_join. repeat case_decide; intros [= <-]; lia. Qed.

Lemma shape_join_absorb (n k n' : nat) :
  shape_join n k = Some n' -> shape_join n' k = Some n'.
Proof.
  intros H. apply shape_join_Some in H. unfold shape_join.
  repeat case_decide; try reflexivity; try (f_equal; lia); exfalso; lia.
Qed.

Lemma shape_join_keeps (n k k' n' : nat) :
  shape_join n k = Some n -> shape_join n k' = Some n' -> shape_join n' k = Some n'.
Proof.
  intros H H'. apply shape_join_Some in H, H'. unfold shape_join.
  repeat case_decide; try reflexivity; try (f_equal; lia); exfalso; lia.
Qed.

Lemma hits_nonneg ms c : 0 <= hits ms c.
Proof. induction ms as [|m ms IH]; simpl; [lia|]. destruct (bcget false m c); simpl; lia. Qed.

Lemma hits_positive ms c : (0 <? hits ms c) = union_at ms c.
Proof.
  induction ms as [|m ms IH]; simpl; [reflexivity|].
  pose proof (hits_nonneg ms c) as Hn.
  destruct (bcget false m c); simpl.
  - apply Z.ltb_lt. lia.
  - exact IH.
Qed.

(** On an array that is constant when it has a single entry, reading
    under broadcast is reading. *)
Lemma bcget_tab (g : nat -> Z) (n c : nat) :
  (n = 1%nat -> forall c', g c' = g 0%nat) ->
  (n <> 1%nat -> (c < n)%nat) ->
  bcget 0 (tab g n) c = g c.
Proof.
  intros Hflat Hc. destruct n as [|[|n]].
  - exfalso. specialize (Hc ltac:(lia)). lia.
  - simpl. symmetry. apply Hflat. reflexivity.
  - specialize (Hc ltac:(lia)).
    change (default 0 (tab g (S (S n)) !! c) = g c).
    rewrite tab_lookup by exact Hc. reflexivity.
Qed.

Lemma add_mask_tab (g : nat -> Z) (n : nat) (m : list bool) :
  (n = 1%nat -> forall c, g c = g 0%nat) ->
  Np.add_mask (Np.Arr (tab g n)) m
  = match shape_join n (List.length m) with
    | None => Raise ValueError
    | Some n' => Ok (Np.Arr (tab (fun c => g c + Z.b2z (bcget false m c)) n'))
    end.
Proof.
  intros Hflat. unfold Np.add_mask.
  rewrite (broadcast2_tab 0 false), tab_length.
  destruct (shape_join n (List.length m)) as [n'|] eqn:Hj; simpl; [|reflexivity].
  f_equal. f_equal. apply tab_ext. intros c Hc. f_equal.
  apply bcget_tab; [exact Hflat|].
  intros Hn1. apply shape_join_Some in Hj. lia.
Qed.

Lemma sum_from_tab (ms : list (list bool)) (g : nat -> Z) (n : nat) :
  (n = 1%nat -> forall c, g c = g 0%nat) ->
  Np.sum_from (Np.Arr (tab g n)) ms
  = match join_from n (List.length <$> ms) with
    | None => Raise ValueError
    | Some n' => Ok (Np.Arr (tab (fun c => g c + hits ms c) n'))
    end.
Proof.
  revert g n. induction ms as [|m ms IH]; intros g n Hflat.
  - simpl. f_equal. f_equal. apply tab_ext. intros c _. lia.
  - rewrite fmap_cons. cbn [Np.sum_from join_from hits].
    rewrite add_mask_tab by exact Hflat.
    destruct (shape_join n (List.length m)) as [n1|] eqn:Hj; simpl; [|reflexivity].
    rewrite IH.
    + destruct (join_from n1 (List.length <$> ms)); [|reflexivity].
      f_equal. f_equal. apply tab_ext. intros c _. lia.
    + intros Hn1 c. apply shape_join_Some in Hj.
      assert (Hm : List.length m = 1%nat) by lia.
      assert (Hn : n = 1%nat) by lia.
      rewrite (Hflat Hn c).
      destruct m as [|b [|b' m]]; try discriminate Hm. reflexivity.
Qed.

(** [sum(masks) > 0] in closed form: Python's [False] for no mask at
    all, a [ValueError] for masks that do not broadcast, and otherwise
    the array that holds, at each channel, whether some mask flags
    it. *)
Lemma totalmask_of_closed (ms : list (list bool)) :
  totalmask_of ms
  = match ms with
    | [] => Ok (Np.BScalar false)
    | _ :: _ =>
        match joint_length ms with
        | None => Raise ValueError
        | Some n => Ok (Np.BArr (tab (union_at ms) n))
        end
    end.
Proof.
  unfold totalmask_of, Np.sum. destruct ms as [|m0 ms]; [reflexivity|].
  cbn [Np.sum_from Np.add_mask joint_length rbind].
  assert (H0 : (fun b => 0 + Z.b2z b) <$> m0
               = tab (fun c => Z.b2z (bcget false m0 c)) (List.length m0)).
  { rewrite (eq_tab ((fun b => 0 + Z.b2z b) <$> m0)
               (fun c => Z.b2z (bcget false m0 c))).
    - rewrite length_fmap. reflexivity.
    - intros c z Hz. rewrite list_lookup_fmap in Hz.
      destruct (m0 !! c) as [b|] eqn:Hb; [|discriminate]. injection Hz as <-.
      destruct m0 as [|b0 [|b1 m0]]; simpl in *.
      + discriminate Hb.
      + destruct c; simpl in Hb; [injection Hb as <-; reflexivity | discriminate Hb].
      + rewrite Hb. reflexivity. }
  rewrite H0, sum_from_tab.
  - destruct (join_from _ _) as [n|]; simpl; [|reflexivity].
    f_equal. f_equal. unfold tab. rewrite <- list_fmap_compose.
    apply list_fmap_ext. intros i c _.
    exact (hits_positive (m0 :: ms) c).
  - intros H1 c. destruct m0 as [|b0 [|b1 m0]]; try discriminate H1. reflexivity.
Qed.

Lemma union_at_twice ms c : union_at (twice ms) c = union_at ms c.
Proof.
  unfold union_at. induction ms as [|m ms IH]; [reflexivity|].
  change (twice (m :: ms)) with (m :: m :: twice ms). cbn [existsb].
  rewrite IH. destruct (bcget false m c); reflexivity.
Qed.

Lemma union_at_app_self ms c : union_at (ms ++ ms) c = union_at ms c.
Proof. unfold union_at. rewrite existsb_app. apply orb_diag. Qed.

Lemma join_from_twice n ks : join_from n (twice ks) = join_from n ks.
Proof.
  revert n. induction ks as [|k ks IH]; intros n; [reflexivity|].
  change (twice (k :: ks)) with (k :: k :: twice ks). cbn [join_from].
  destruct (shape_join n k) as [n'|] eqn:Hj; [|reflexivity].
  rewrite (shape_join_absorb _ _ _ Hj). apply IH.
Qed.

Lemma join_from_app n ks ks' :
  join_from n (ks ++ ks')
  = match join_from n ks with
    | Some n' => join_from n' ks'
    | None => None
    end.
Proof.
  revert n. induction ks as [|k ks IH]; intros n; simpl; [reflexivity|].
  destruct (shape_join n k); [apply IH | reflexivity].
Qed.

(** Lengths already taken in do not change the joint length. *)
Lemma join_from_absorbed n ks :
  Forall (fun k => shape_join n k = Some n) ks -> join_from n ks = Some n.
Proof.
  induction 1 as [|k ks Hk _ IH]; simpl; [reflexivity|]. rewrite Hk. exact IH.
Qed.

Lemma join_from_keeps n ks n' k :
  join_from n ks = Some n' -> shape_join n k = Some n -> shape_join n' k = Some n'.
Proof.
  revert n. induction ks as [|k' ks IH]; intros n; simpl.
  - intros [= <-] H. exact H.
  - destruct (shape_join n k') as [n1|] eqn:Hj; [|discriminate].
    intros Hrest Hk. apply (IH n1 Hrest). apply (shape_join_keeps n k k'); assumption.
Qed.

Lemma join_from_absorbs n ks n' :
  join_from n ks = Some n' -> Forall (fun k => shape_join n' k = Some n') ks.
Proof.
  revert n. induction ks as [|k ks IH]; intros n; simpl; [constructor|].
  destruct (shape_join n k) as [n1|] eqn:Hj; [|discriminate].
  intros Hrest. constructor; [|apply (IH n1 Hrest)].
  apply (join_from_keeps n1 ks n' k Hrest). apply (shape_join_absorb n k n1 Hj).
Qed.

Lemma shape_join_diag n : shape_join n n = Some n.
Proof. unfold shape_join. rewrite decide_True by reflexivity. reflexivity. Qed.

Lemma joint_length_twice ms : joint_length (twice ms) = joint_length ms.
Proof.
  destruct ms as [|m0 ms]; [reflexivity|].
  change (twice (m0 :: ms)) with (m0 :: m0 :: twice ms).
  cbn [joint_length]. rewrite fmap_cons. cbn [join_from].
  rewrite shape_join_diag.
  replace (List.length <$> twice ms) with (twice (List.length <$> ms)).
  - apply join_from_twice.
  - induction ms as [|m ms IH]; [reflexivity|].
    change (twice (m :: ms)) with (m :: m :: twice ms).
    rewrite !fmap_cons, <- IH. reflexivity.
Qed.

Lemma joint_length_app_self ms : joint_length (ms ++ ms) = joint_length ms.
Proof.
  destruct ms as [|m0 ms]; [reflexivity|].
  change ((m0 :: ms) ++ m0 :: ms) with (m0 :: (ms ++ m0 :: ms)).
  cbn [joint_length]. rewrite fmap_app, fmap_cons, join_from_app.
  destruct (join_from (List.length m0) (List.length <$> ms)) as [n|] eqn:Hj;
    [|reflexivity].
  apply join_from_absorbed. constructor.
  - apply (join_from_keeps _ _ _ _ Hj). apply shape_join_diag.
  - apply (join_from_absorbs _ _ _ Hj).
Qed.

Lemma totalmask_of_same ms ms' :
  (ms = [] <-> ms' = []) ->
  joint_length ms = joint_length ms' ->
  (forall c, union_at ms c = union_at ms' c) ->
  totalmask_of ms = totalmask_of ms'.
Proof.
  intros Hnil Hlen Hun. rewrite !totalmask_of_closed.
  destruct ms as [|m ms]; destruct ms' as [|m' ms'];
    try reflexivity;
    try (exfalso; destruct Hnil as [H1 H2];
         (discriminate (H1 eq_refl) || discriminate (H2 eq_refl))).
  rewrite Hlen. destruct (joint_length (m' :: ms')); [|reflexivity].
  f_equal. f_equal. apply tab_ext. intros c _. apply Hun.
Qed.

(** C9.  The union of the validity masks, [sum(masks) > 0], is
    idempotent: with every mask of the list taken twice, each one
    repeated in place or the whole list repeated after itself, the
    result is the same, be it a mask or the error of masks that do not
    fit together. *)
Theorem validity_union_idempotent (masks : list (list bool)) :
  totalmask_of (twice masks) = totalmask_of masks
  /\ totalmask_of (masks ++ masks) = totalmask_of masks.
Proof.
  split; apply totalmask_of_same.
  - destruct masks; simpl; split; intros H; try reflexivity; discriminate H.
  - apply joint_length_twice.
  - intros c. apply union_at_twice.
  - destruct masks; simpl; split; intros H; try reflexivity; discriminate H.
  - apply joint_length_app_self.
  - intros c. apply union_at_app_self.
Qed.

(** ** The joint mask and the beams it blanks *)





Section Aggregation.
Context `{L : Libs}.



End Aggregation.

Section JointMask.
Context `{L : Libs}.




End JointMask.

(** ** The convolution plan has no handler of its own *)

Section Plan.
Context `{L : Libs}.

(** [getfacs] neither catches nor converts: the plan of a cube exists
    exactly when, for every channel, the deconvolution and the factor
    were returned by the libraries, and then it is what they returned. *)
Lemma getfacs_Ok (d : CubeEntry) (new_beam : Beam) (ks : list Beam)
    (fs : list float64) :
  getfacs d new_beam = Ok (ks, fs) ->
  List.length ks = List.length (oldbeams d)
  /\ List.length fs = List.length (oldbeams d)
  /\ forall (i : nat) (b : Beam), oldbeams d !! i = Some b ->
       exists k fac, ks !! i = Some k /\ fs !! i = Some fac
         /\ deconvolve new_beam b = Ok k
         /\ gauss_factor (major k, minor k, pa k) (major b, minor b, pa b)
              (to_arcsec (dx d)) (to_arcsec (dy d)) = Ok fac.
Proof.
  unfold getfacs.
  destruct (rmap (getfacs_one d new_beam) (oldbeams d)) as [l|] eqn:Hl;
    cbn [rbind]; [|discriminate].
  intros [= <- <-]. pose proof (rmap_length _ _ _ Hl) as Hlen.
  rewrite !length_fmap.
  split; [exact Hlen|]. split; [exact Hlen|].
  intros i b Hb. destruct (rmap_lookup _ _ _ _ _ Hl Hb) as ([k fac] & Hi & Hone).
  exists k, fac. rewrite !list_lookup_fmap, Hi. split; [reflexivity|].
  split; [reflexivity|]. unfold getfacs_one in Hone.
  destruct (deconvolve new_beam b) as [k'|]; cbn [rbind] in Hone; [|discriminate].
  destruct (gauss_factor _ _ _ _) as [fac'|] eqn:Hg; cbn [rbind] in Hone;
    [|discriminate].
  injection Hone as <- <-. split; [reflexivity | exact Hg].
Qed.

(** An exception of the deconvolution of the first channel is the
    exception of [getfacs]. *)
Lemma getfacs_deconvolve_raises (d : CubeEntry) (new_beam b : Beam)
    (rest : list Beam) (e : exn) :
  oldbeams d = b :: rest ->
  deconvolve new_beam b = Raise e ->
  getfacs d new_beam = Raise e.
Proof.
  intros Hd He. unfold getfacs. rewrite Hd. simpl.
  unfold getfacs_one. rewrite He. reflexivity.
Qed.

End Plan.

(** ** The copy loop reads the whole source *)

Lemma take_nil_drop {A} (n pos : nat) (c : list A) :
  (0 < n)%nat -> take n (drop pos c) = [] -> drop pos c = [].
Proof. intros Hn. destruct (drop pos c); [reflexivity|]. destruct n; [lia | discriminate]. Qed.

Lemma take_drop_length {A} (n : nat) (l : list A) :
  take n l ++ drop (List.length (take n l)) l = l.
Proof.
  rewrite length_take. destruct (Nat.le_gt_cases n (List.length l)) as [H|H].
  - rewrite Nat.min_l by exact H. apply take_drop.
  - rewrite Nat.min_r by lia. rewrite take_ge by lia.
    rewrite drop_all. apply app_nil_r.
Qed.

(** Writing at an offset. *)
Lemma overwrite_length (c : list Byte.byte) (pos : nat) (buf : list Byte.byte) :
  (pos + List.length buf <= List.length (FS.overwrite c pos buf))%nat.
Proof.
  unfold FS.overwrite.
  rewrite !length_app, length_take, length_replicate, length_drop. lia.
Qed.

Lemma overwrite_nil (c : list Byte.byte) (pos : nat) :
  (pos <= List.length c)%nat -> FS.overwrite c pos [] = c.
Proof.
  intros H. unfold FS.overwrite.
  replace (pos - List.length c)%nat with O by lia.
  simpl. rewrite Nat.add_0_r. apply take_drop.
Qed.

Lemma overwrite_start (buf : list Byte.byte) : FS.overwrite [] 0 buf = buf.
Proof. unfold FS.overwrite. simpl. rewrite drop_nil. apply app_nil_r. Qed.

Lemma overwrite_eq (c : list Byte.byte) (pos : nat) (buf : list Byte.byte) :
  FS.overwrite c pos buf
  = (take pos c ++ replicate (pos - List.length c) Byte.x00)
    ++ buf ++ drop (pos + List.length buf) c.
Proof. unfold FS.overwrite. rewrite <- app_assoc. reflexivity. Qed.

(** Two writes, one after the other, are one write of both. *)
Lemma overwrite_overwrite (c : list Byte.byte) (pos : nat)
    (b1 b2 : list Byte.byte) :
  FS.overwrite (FS.overwrite c pos b1) (pos + List.length b1) b2
  = FS.overwrite c pos (b1 ++ b2).
Proof.
  rewrite (overwrite_eq c pos b1), (overwrite_eq c pos (b1 ++ b2)).
  set (P := take pos c ++ replicate (pos - List.length c) Byte.x00).
  assert (HP : List.length P = pos).
  { unfold P. rewrite length_app, length_take, length_replicate. lia. }
  set (R := drop (pos + List.length b1) c).
  assert (HPb : (pos + List.length b1)%nat = List.length (P ++ b1))
    by (rewrite length_app, HP; reflexivity).
  rewrite (app_assoc P b1 R). unfold FS.overwrite.
  rewrite (take_app_length' _ _ _ HPb).
  replace (pos + List.length b1 - List.length ((P ++ b1) ++ R))%nat with O
    by (rewrite length_app; lia).
  rewrite (drop_app_add' _ _ _ _ HPb). unfold R.
  rewrite drop_drop, length_app. simpl.
  rewrite <- !app_assoc. do 3 f_equal. f_equal. lia.
Qed.

(** With enough reads left, the loop returns, and the destination then
    holds the rest of the source, written at its position. *)
Lemma copy_loop_copies (fsrc fdst len : nat) (c : list Byte.byte) :
  fsrc <> fdst -> (0 < len)%nat ->
  forall (fuel spos dpos : nat) (w : World) (d : list Byte.byte),
    inodes w !! fsrc = Some (Regular c) ->
    inodes w !! fdst = Some (Regular d) ->
    (dpos <= List.length d)%nat ->
    (List.length c - spos < fuel)%nat ->
    fst (copy_loop fuel fsrc fdst spos dpos len w) = Ok tt
    /\ inodes (snd (copy_loop fuel fsrc fdst spos dpos len w)) !! fdst
       = Some (Regular (FS.overwrite d dpos (drop spos c)))
    /\ inodes (snd (copy_loop fuel fsrc fdst spos dpos len w)) !! fsrc
       = Some (Regular c).
Proof.
  intros Hne Hlen. induction fuel as [|fuel IH];
    intros spos dpos w d Hs Hd Hdpos Hfuel; [lia|].
  cbn [copy_loop]. unfold FS.read_at. rewrite Hs.
  destruct (take len (drop spos c)) as [|b buf] eqn:Hbuf.
  - apply take_nil_drop in Hbuf; [|exact Hlen].
    rewrite Hbuf, overwrite_nil by exact Hdpos. simpl. auto.
  - unfold bind, FS.write_at. rewrite Hd. cbn [fst snd].
    assert (Hb : (0 < List.length (b :: buf) <= List.length c - spos)%nat).
    { rewrite <- Hbuf, length_take, length_drop. simpl. split; [|lia].
      assert (H : List.length (take len (drop spos c)) <> O)
        by (rewrite Hbuf; discriminate).
      rewrite length_take, length_drop in H. lia. }
    destruct (IH (spos + List.length (b :: buf))%nat
                (dpos + List.length (b :: buf))%nat
                (set_inodes w
                   (<[fdst := Regular (FS.overwrite d dpos (b :: buf))]> (inodes w)))
                (FS.overwrite d dpos (b :: buf))) as (Hr & Hdst & Hsrc).
    + simpl. rewrite lookup_insert_ne by (intros H; apply Hne; symmetry; exact H).
      exact Hs.
    + simpl. apply lookup_insert_eq.
    + apply overwrite_length.
    + lia.
    + split; [exact Hr|]. split; [|exact Hsrc].
      rewrite Hdst. f_equal. f_equal. rewrite overwrite_overwrite. f_equal.
      rewrite <- drop_drop, <- Hbuf. apply take_drop_length.
Qed.

(** [copyfileobj] between handles on two distinct regular files
    returns, and has then written the rest of the source at the
    position of the destination: the reads granted to the loop are
    never used up. *)
Lemma copyfileobj_copies (fsrc fdst : FS.handle) (len : nat)
    (c d : list Byte.byte) (w : World) :
  FS.h_ino fsrc <> FS.h_ino fdst -> (0 < len)%nat ->
  inodes w !! FS.h_ino fsrc = Some (Regular c) ->
  inodes w !! FS.h_ino fdst = Some (Regular d) ->
  (FS.h_pos fdst <= List.length d)%nat ->
  fst (copyfileobj fsrc fdst len w) = Ok tt
  /\ inodes (snd (copyfileobj fsrc fdst len w)) !! FS.h_ino fdst
     = Some (Regular (FS.overwrite d (FS.h_pos fdst) (drop (FS.h_pos fsrc) c)))
  /\ inodes (snd (copyfileobj fsrc fdst len w)) !! FS.h_ino fsrc
     = Some (Regular c).
Proof.
  intros Hne Hlen Hs Hd Hpos. unfold copyfileobj. rewrite Hs.
  apply (copy_loop_copies _ _ len c Hne Hlen); try assumption. lia.
Qed.

(** ** The program at work *)

Example cpu_to_use_prime : cpu_to_use 4 7 = Ok 1.
Proof. reflexivity. Qed.

Example cpu_to_use_few_channels : cpu_to_use 8 5 = Ok 5.
Proof. reflexivity. Qed.

Example cpu_to_use_no_channel : cpu_to_use 4 0 = Raise ValueError.
Proof. reflexivity. Qed.

Example cpu_to_use_no_worker : cpu_to_use 0 10 = Raise ValueError.
Proof. reflexivity. Qed.

Example round_up_7_5 : round_up (Demo.half 15) 0 = Demo.f 8.
Proof. vm_compute. reflexivity. Qed.

Example round_up_whole : round_up (Demo.f 8) 0 = Demo.f 8.
Proof. vm_compute. reflexivity. Qed.

Example replace_suffix :
  Str.replace ".fits" ".sm.fits" "a/b/cube.fits" = "a/b/cube.sm.fits"%string.
Proof. reflexivity. Qed.

Example basename_path : Str.basename "a/b/cube.sm.fits" = "cube.sm.fits"%string.
Proof. reflexivity. Qed.

Example outdir_slash : fix_outdir (Some "out/"%string) = Ok "out"%string.
Proof. reflexivity. Qed.

Example outdir_empty : fix_outdir (Some ""%string) = Raise IndexError.
Proof. reflexivity. Qed.

(** Two cubes of five channels, channel 2 missing in the first only:
    the joint mask flags channel 2. *)
Example totalmask_two_cubes :
  totalmask_of [[false; false; true; false; false];
                [false; false; false; false; false]]
  = Ok (Np.BArr [false; false; true; false; false]).
Proof. reflexivity. Qed.

Example totalmask_unequal :
  totalmask_of [[false; true]; [false; false; false]] = Raise ValueError.
Proof. reflexivity. Qed.

(** The whole run on the two demonstration cubes: five channels and at
    most four workers give the width 1; both outputs are written in
    five chunks, in order, and channel 2 of either is blank. *)
Example demo_run :
  let r := main (L := Demo.libs 5) (Demo.args None None None) Demo.world in
  fst r = Ok tt
  /\ writes (log (snd r))
     = (fun c : Z * Z => (fst c, snd c, [[2; 2]]%nat))
         <$> (chunks 1 5 ++ chunks 1 5)
  /\ omap (fun e => match e with
                    | EvWrite f 2 3 data => Some (f, data)
                    | _ => None
                    end) (log (snd r))
     = [("./a.sm.fits"%string, [[[F64.nan; F64.nan]; [F64.nan; F64.nan]]]);
        ("./b.sm.fits"%string, [[[F64.nan; F64.nan]; [F64.nan; F64.nan]]])].
Proof. vm_compute. repeat split. Qed.

(** The copy of the first input holds the bytes of the input. *)
Example demo_copy :
  let r := copyfile "a.fits" "./a.sm.fits" true Demo.world in
  fst r = Ok "./a.sm.fits"%string
  /\ (let? st := FS.stat (snd r) "./a.sm.fits" in Ok (snd st))
     = Ok (Regular [Byte.x53; Byte.x49]).
Proof. vm_compute. split; reflexivity. Qed.

(* ===================================================================== *)
(** * Further properties of the program *)
(* ===================================================================== *)

(** ** [cpu_to_use] at its edges *)

Lemma candidates_empty (max_cpu count : Z) :
  count < 1 \/ max_cpu < 1 ->
  filter (fun i => i <= max_cpu) (factors count) = [].
Proof.
  intros H.
  destruct (filter (fun i => i <= max_cpu) (factors count)) as [|k l] eqn:Hl;
    [reflexivity|].
  assert (Hk : k ∈ filter (fun i => i <= max_cpu) (factors count))
    by (rewrite Hl; left).
  apply elem_of_candidates in Hk. lia.
Qed.

(** X1.  [cpu_to_use] raises exactly when there is no channel or no
    worker ([count < 1] or [max_cpu < 1]); it then raises the
    [ValueError] of [max] on an empty sequence, and it never raises
    anything else. *)
Theorem cpu_to_use_raises_iff (max_cpu count : Z) :
  (cpu_to_use max_cpu count = Raise ValueError <-> count < 1 \/ max_cpu < 1)
  /\ (forall e, cpu_to_use max_cpu count = Raise e -> e = ValueError).
Proof.
  assert (Hbad : count < 1 \/ max_cpu < 1 ->
                 cpu_to_use max_cpu count = Raise ValueError).
  { intros H. unfold cpu_to_use. rewrite candidates_empty by exact H. reflexivity. }
  assert (Hgood : forall e, cpu_to_use max_cpu count = Raise e ->
                  count < 1 \/ max_cpu < 1).
  { intros e He.
    destruct (Z_lt_le_dec count 1) as [?|Hc]; [left; assumption|].
    destruct (Z_lt_le_dec max_cpu 1) as [?|Hm]; [right; assumption|].
    destruct (cpu_to_use_spec max_cpu count Hc Hm) as (d & Hd & _).
    rewrite Hd in He. discriminate. }
  split; [split; [apply Hgood | exact Hbad]|].
  intros e He. pose proof (Hbad (Hgood e He)) as H. rewrite H in He.
  injection He as <-. reflexivity.
Qed.

(** X2.  With at least as many workers as channels the width is the
    channel count itself, and the cube is processed as the single chunk
    [[0, count)]. *)
Theorem cpu_to_use_enough_workers (max_cpu count : Z) :
  1 <= count -> count <= max_cpu ->
  cpu_to_use max_cpu count = Ok count
  /\ chunks count (count / count) = [(0, count)].
Proof.
  intros Hc Hm.
  destruct (cpu_to_use_spec max_cpu count Hc ltac:(lia))
    as (d & Hd & Hr & _ & _ & Hmax).
  assert (d = count).
  { specialize (Hmax count ltac:(lia) (Z.divide_refl count)). lia. }
  subst d. split; [exact Hd|].
  rewrite Z.div_same by lia. reflexivity.
Qed.

Lemma cpu_to_use_enough_workers_witness :
  1 <= 5 /\ 5 <= 8 /\ cpu_to_use 8 5 = Ok 5 /\ chunks 5 (5 / 5) = [(0, 5)].
Proof.
  split; [lia|]. split; [lia|]. apply (cpu_to_use_enough_workers 8 5); lia.
Defined.

(** X3.  The width found for a worker bound is found again for every
    bound between that width and the bound: the width itself is a
    fixed point, and allowing more workers changes nothing until the
    next divisor of the channel count is reached. *)
Theorem cpu_to_use_stable (max_cpu count d bound : Z) :
  cpu_to_use max_cpu count = Ok d ->
  d <= bound <= max_cpu ->
  cpu_to_use bound count = Ok d /\ cpu_to_use d count = Ok d.
Proof.
  intros Hd Hb.
  destruct (cpu_to_use_inv _ _ _ Hd) as (Hr & Hle & Hdiv).
  assert (Hmax : forall k, 1 <= k <= max_cpu -> Z.divide k count -> k <= d).
  { unfold cpu_to_use in Hd. apply py_max_spec in Hd as [_ Hmax].
    intros k Hk Hkd. apply Hmax, elem_of_candidates.
    repeat split; try lia; try exact Hkd.
    apply Z.divide_pos_le; [lia | exact Hkd]. }
  assert (Hany : forall b, d <= b <= max_cpu -> cpu_to_use b count = Ok d).
  { intros b Hbb.
    destruct (cpu_to_use_spec b count ltac:(lia) ltac:(lia))
      as (d' & Hd' & Hr' & Hle' & Hdiv' & Hmax').
    assert (d' = d).
    { specialize (Hmax' d ltac:(lia) Hdiv).
      specialize (Hmax d' ltac:(lia) Hdiv'). lia. }
    subst d'. exact Hd'. }
  split; apply Hany; lia.
Qed.

Lemma cpu_to_use_stable_witness :
  cpu_to_use 4 10 = Ok 2 /\ 2 <= 3 <= 4
  /\ cpu_to_use 3 10 = Ok 2 /\ cpu_to_use 2 10 = Ok 2.
Proof.
  split; [reflexivity|]. split; [lia|].
  apply (cpu_to_use_stable 4 10 2 3); [reflexivity | lia].
Defined.

(** ** [copyfile] beyond the same-file guard *)

Lemma not_same_file_guard (w : World) (src dst : string) :
  ~ refer_to_same_file w src dst -> truthy (_samefile w src dst) = false.
Proof.
  intros Hn. unfold _samefile. destruct (has_samefile w); [|reflexivity].
  destruct (FS.samefile w src dst) as [[|]|e] eqn:Hs; try reflexivity.
  exfalso. apply Hn, samefile_true. exact Hs.
Qed.

Lemma check_not_fifo_pass (w : World) (fn : string) :
  (forall i, FS.stat w fn <> Ok (i, Fifo)) -> check_not_fifo fn w = (Ok tt, w).
Proof.
  intros H. unfold check_not_fifo.
  destruct (FS.stat w fn) as [[i [c|]]|e]; try reflexivity.
  exfalso. apply (H i). reflexivity.
Qed.

Lemma check_not_fifo_fifo (w : World) (fn : string) (i : nat) :
  FS.stat w fn = Ok (i, Fifo) -> check_not_fifo fn w = (Raise (SpecialFileError fn), w).
Proof. intros H. unfold check_not_fifo. rewrite H. reflexivity. Qed.

Lemma copyfile_pipe_destination (w : World) (src dst : string)
    (follow_symlinks : bool) (j : nat) :
  truthy (_samefile w src dst) = false ->
  (forall i, FS.stat w src <> Ok (i, Fifo)) ->
  FS.stat w dst = Ok (j, Fifo) ->
  copyfile src dst follow_symlinks w = (Raise (SpecialFileError dst), w).
Proof.
  intros Hn Hs Hj. unfold copyfile. rewrite bind_get, Hn.
  unfold bind at 1. cbn [for_each]. unfold bind at 1.
  rewrite (check_not_fifo_pass w src Hs). unfold bind at 1.
  rewrite (check_not_fifo_fifo w dst j Hj). reflexivity.
Qed.

(** X4.  When source and destination are not the same file and one of
    them is a named pipe, [copyfile] raises [SpecialFileError] for the
    source if the source is a pipe and for the destination otherwise,
    whatever [follow_symlinks] is, and the world is left as it was:
    nothing is opened. *)
Theorem copyfile_named_pipe (w : World) (src dst : string) (follow_symlinks : bool) :
  ~ refer_to_same_file w src dst ->
  ((exists i, FS.stat w src = Ok (i, Fifo)) ->
   copyfile src dst follow_symlinks w = (Raise (SpecialFileError src), w))
  /\ ((forall i, FS.stat w src <> Ok (i, Fifo)) ->
      (exists j, FS.stat w dst = Ok (j, Fifo)) ->
      copyfile src dst follow_symlinks w = (Raise (SpecialFileError dst), w)).
Proof.
  intros Hn. apply not_same_file_guard in Hn.
  split.
  - intros [i Hi]. unfold copyfile. rewrite bind_get, Hn.
    unfold bind at 1. cbn [for_each]. unfold bind at 1.
    rewrite (check_not_fifo_fifo w src i Hi). reflexivity.
  - intros Hs [j Hj]. apply (copyfile_pipe_destination w src dst _ j Hn Hs Hj).
Qed.

Lemma copyfile_named_pipe_witness :
  ~ refer_to_same_file Files.world "in.fits" "pipe"
  /\ FS.stat Files.world "pipe" = Ok (2%nat, Fifo)
  /\ copyfile "in.fits" "pipe" true Files.world
     = (Raise (SpecialFileError "pipe"), Files.world)
  /\ copyfile "pipe" "out.fits" true Files.world
     = (Raise (SpecialFileError "pipe"), Files.world).
Proof.
  assert (H1 : ~ refer_to_same_file Files.world "in.fits" "pipe").
  { intros (i & n1 & n2 & Ha & Hb). vm_compute in Ha, Hb. congruence. }
  assert (H2 : ~ refer_to_same_file Files.world "pipe" "out.fits").
  { intros (i & n1 & n2 & Ha & Hb). vm_compute in Hb. discriminate. }
  split; [exact H1|]. split; [vm_compute; reflexivity|]. split.
  - apply (proj2 (copyfile_named_pipe Files.world "in.fits" "pipe" true H1)).
    + intros i Hi. vm_compute in Hi. discriminate.
    + exists 2%nat. vm_compute. reflexivity.
  - apply (proj1 (copyfile_named_pipe Files.world "pipe" "out.fits" true H2)).
    exists 2%nat. vm_compute. reflexivity.
Defined.

(** The checks of [copyfile] all passed and links are followed: what is
    left is to open both files and copy. *)
Lemma copyfile_body (w : World) (src dst : string) :
  truthy (_samefile w src dst) = false ->
  (forall i, FS.stat w src <> Ok (i, Fifo)) ->
  (forall j, FS.stat w dst <> Ok (j, Fifo)) ->
  copyfile src dst true w
  = bind (bind (FS.open_rb src)
               (fun fsrc => bind (FS.open_wb dst)
                  (fun fdst => copyfileobj fsrc fdst (16 * 1024))))
         (fun _ => ret dst) w.
Proof.
  intros Ht Hs Hd. unfold copyfile. rewrite bind_get, Ht.
  unfold bind at 1. cbn [for_each]. unfold bind at 1.
  rewrite (check_not_fifo_pass w src Hs). unfold bind at 1.
  rewrite (check_not_fifo_pass w dst Hd). unfold ret at 1.
  rewrite bind_get. reflexivity.
Qed.

(** X5.  A source that cannot be stat-ed (missing, or behind a broken
    or circular link) makes [copyfile(src, dst)] raise and leaves the
    world as it was: the source is opened before the destination, so
    an existing destination is not truncated.  The exception is that of
    opening the source, unless the destination is a named pipe. *)
Theorem copyfile_missing_source (w : World) (src dst : string) (e : exn) :
  FS.stat w src = Raise e ->
  exists e', copyfile src dst true w = (Raise e', w)
    /\ ((forall j, FS.stat w dst <> Ok (j, Fifo)) -> e' = e).
Proof.
  intros Hsrc.
  assert (Hn : ~ refer_to_same_file w src dst).
  { intros (i & n1 & n2 & Ha & _). rewrite Hsrc in Ha. discriminate. }
  assert (Hs : forall i, FS.stat w src <> Ok (i, Fifo))
    by (intros i Hi; rewrite Hsrc in Hi; discriminate).
  destruct (FS.stat w dst) as [[j [c|]]|e2] eqn:Hdst.
  - exists e. split; [|reflexivity].
    rewrite copyfile_body;
      [|apply not_same_file_guard; exact Hn | exact Hs
       |intros j' H'; rewrite Hdst in H'; discriminate].
    unfold bind, FS.open_rb. rewrite Hsrc. reflexivity.
  - exists (SpecialFileError dst). split.
    + apply (copyfile_pipe_destination w src dst true j);
        [apply not_same_file_guard; exact Hn | exact Hs | exact Hdst].
    + intros H. exfalso. apply (H j). reflexivity.
  - exists e. split; [|reflexivity].
    rewrite copyfile_body;
      [|apply not_same_file_guard; exact Hn | exact Hs
       |intros j' H'; rewrite Hdst in H'; discriminate].
    unfold bind, FS.open_rb. rewrite Hsrc. reflexivity.
Qed.

Lemma copyfile_missing_source_witness :
  FS.stat Files.world "lost" = Raise OSError
  /\ copyfile "lost" "old.fits" true Files.world = (Raise OSError, Files.world).
Proof.
  assert (H : FS.stat Files.world "lost" = Raise OSError) by (vm_compute; reflexivity).
  split; [exact H|].
  destruct (copyfile_missing_source Files.world "lost" "old.fits" OSError H)
    as (e' & Hc & He).
  rewrite Hc. f_equal. f_equal. apply He.
  intros j Hj. vm_compute in Hj. discriminate.
Defined.

(** Resolution of names. *)

Lemma follow_final (fuel : nat) (w : World) (p q : string) :
  FS.follow fuel w p = Ok q -> forall t, names w !! q <> Some (SymLink t).
Proof.
  revert p. induction fuel as [|k IH]; intros p; simpl.
  - destruct (names w !! p) as [[i|t']|] eqn:Hp; try discriminate;
      intros [= <-] t; rewrite Hp; discriminate.
  - destruct (names w !! p) as [[i|t']|] eqn:Hp;
      try (intros [= <-] t; rewrite Hp; discriminate).
    apply IH.
Qed.


Lemma follow_names (fuel : nat) (w w' : World) (p : string) :
  names w' = names w -> FS.follow fuel w' p = FS.follow fuel w p.
Proof.
  intros Hn. revert p. induction fuel as [|k IH]; intros p; simpl; rewrite Hn;
    destruct (names w !! p) as [[i|t]|]; try reflexivity. apply IH.
Qed.

Lemma stat_intro (w : World) (p q : string) (i : nat) (n : node) :
  FS.follow FS.MAXSYMLINKS w p = Ok q ->
  names w !! q = Some (HardLink i) ->
  inodes w !! i = Some n ->
  FS.stat w p = Ok (i, n).
Proof. intros Hf Hq Hi. unfold FS.stat. rewrite Hf. simpl. rewrite Hq, Hi. reflexivity. Qed.

Lemma stat_inv (w : World) (p : string) (i : nat) (n : node) :
  FS.stat w p = Ok (i, n) ->
  exists q, FS.follow FS.MAXSYMLINKS w p = Ok q
    /\ names w !! q = Some (HardLink i) /\ inodes w !! i = Some n.
Proof.
  unfold FS.stat. destruct (FS.follow FS.MAXSYMLINKS w p) as [q|]; simpl;
    [|discriminate].
  destruct (names w !! q) as [[j|t]|] eqn:Hq; try discriminate.
  destruct (inodes w !! j) as [n'|] eqn:Hj; [|discriminate].
  intros [= <- <-]. eauto.
Qed.

Lemma copy_loop_frame (w0 : World) (fuel fsrc fdst spos dpos len : nat) :
  preserves (untouched_but w0 fdst) (copy_loop fuel fsrc fdst spos dpos len).
Proof.
  revert spos dpos. induction fuel as [|fuel IH]; intros spos dpos w Hw;
    [exact Hw|].
  cbn [copy_loop]. destruct (FS.read_at w fsrc spos len) as [|b buf]; [exact Hw|].
  unfold bind, FS.write_at.
  destruct (inodes w !! fdst) as [[c|]|]; cbn [fst snd]; apply IH; try exact Hw.
  destruct Hw as (H1 & H0 & H2 & H3 & H4 & H5 & H6 & H7).
  repeat split; try assumption.
  intros k Hk. simpl. rewrite lookup_insert_ne by (intros E; apply Hk; symmetry; exact E).
  apply H7. exact Hk.
Qed.

(** Copying into an empty file: the destination ends up with the
    bytes of the source, and nothing else in the world changes. *)
Lemma copy_into (w : World) (fsrc fdst : nat) (c : list Byte.byte) :
  fsrc <> fdst ->
  inodes w !! fsrc = Some (Regular c) ->
  inodes w !! fdst = Some (Regular []) ->
  exists w',
    copyfileobj (FS.mkHandle fsrc 0) (FS.mkHandle fdst 0) (16 * 1024) w
    = (Ok tt, w')
    /\ inodes w' !! fdst = Some (Regular c)
    /\ untouched_but w fdst w'.
Proof.
  intros Hne Hs Hd.
  destruct (copyfileobj_copies (FS.mkHandle fsrc 0) (FS.mkHandle fdst 0)
              (16 * 1024) c [] w Hne ltac:(lia) Hs Hd ltac:(simpl; lia))
    as (Hr & Hc & _).
  cbn [FS.h_ino FS.h_pos] in Hc. rewrite drop_0, overwrite_start in Hc.
  assert (Hf : untouched_but w fdst
                 (snd (copyfileobj (FS.mkHandle fsrc 0) (FS.mkHandle fdst 0)
                         (16 * 1024) w))).
  { unfold copyfileobj. apply copy_loop_frame.
    repeat split; reflexivity. }
  destruct (copyfileobj _ _ _ w) as [r w'] eqn:Hcopy.
  simpl in *. subst r. exists w'. split; [reflexivity|]. split; assumption.
Qed.



(** X7.  Copying a regular file over another regular file: [copyfile]
    returns the destination path; the destination keeps its inode,
    whose former contents are gone and replaced by exactly the bytes of
    the source; names, the source, every other inode and the log are as
    before. *)
Theorem copyfile_overwrites (w : World) (src dst q : string) (i j : nat)
    (c d : list Byte.byte) :
  FS.stat w src = Ok (i, Regular c) ->
  FS.follow FS.MAXSYMLINKS w dst = Ok q ->
  names w !! q = Some (HardLink j) ->
  inodes w !! j = Some (Regular d) ->
  i <> j ->
  exists w', copyfile src dst true w = (Ok dst, w')
    /\ FS.stat w' dst = Ok (j, Regular c)
    /\ FS.stat w' src = Ok (i, Regular c)
    /\ names w' = names w
    /\ log w' = log w
    /\ forall k, k <> j -> inodes w' !! k = inodes w !! k.
Proof.
  intros Hsrc Hf Hq Hj Hij.
  destruct (stat_inv _ _ _ _ Hsrc) as (qs & Hfs & Hqs & Hi).
  assert (Hdst : FS.stat w dst = Ok (j, Regular d))
    by (apply (stat_intro w dst q); assumption).
  set (w1 := set_inodes w (<[j := Regular []]> (inodes w))).
  destruct (copy_into w1 i j c Hij) as (w2 & Hcopy & Hc & Hun).
  { simpl. rewrite lookup_insert_ne by (intros E; apply Hij; symmetry; exact E).
    exact Hi. }
  { simpl. apply lookup_insert_eq. }
  destruct Hun as (Hn & _ & Hl & _ & _ & _ & _ & Hk).
  exists w2. split.
  { rewrite copyfile_body.
    - unfold bind, FS.open_rb. rewrite Hsrc. unfold FS.open_wb. rewrite Hf, Hq, Hj.
      fold w1. rewrite Hcopy. reflexivity.
    - apply not_same_file_guard. intros (k & n1 & n2 & Ha & Hb).
      rewrite Hsrc in Ha. rewrite Hdst in Hb. congruence.
    - intros k Hkf. rewrite Hsrc in Hkf. discriminate.
    - intros k Hkf. rewrite Hdst in Hkf. discriminate. }
  assert (Hfol : forall p, FS.follow FS.MAXSYMLINKS w2 p = FS.follow FS.MAXSYMLINKS w p).
  { intros p. apply follow_names. rewrite Hn. reflexivity. }
  split.
  { apply (stat_intro w2 dst q); [rewrite Hfol; exact Hf | | exact Hc].
    rewrite Hn. exact Hq. }
  split.
  { apply (stat_intro w2 src qs); [rewrite Hfol; exact Hfs | |].
    - rewrite Hn. exact Hqs.
    - rewrite (Hk i Hij). simpl.
      rewrite lookup_insert_ne by (intros E; apply Hij; symmetry; exact E).
      exact Hi. }
  split; [rewrite Hn; reflexivity|]. split; [rewrite Hl; reflexivity|].
  intros k Hkj. rewrite (Hk k Hkj). simpl.
  apply lookup_insert_ne. intros E. apply Hkj. symmetry. exact E.
Qed.

Lemma copyfile_overwrites_witness :
  FS.stat Files.world "in.fits" = Ok (1%nat, Regular [Byte.x53; Byte.x49; Byte.x4d])
  /\ FS.stat Files.world "old.fits" = Ok (3%nat, Regular [Byte.x00])
  /\ exists w', copyfile "in.fits" "old.fits" true Files.world = (Ok "old.fits"%string, w')
       /\ FS.stat w' "old.fits" = Ok (3%nat, Regular [Byte.x53; Byte.x49; Byte.x4d]).
Proof.
  split; [vm_compute; reflexivity|]. split; [vm_compute; reflexivity|].
  destruct (copyfile_overwrites Files.world "in.fits" "old.fits" "old.fits" 1 3
              [Byte.x53; Byte.x49; Byte.x4d] [Byte.x00])
    as (w' & Hc & Hd & _); try (vm_compute; reflexivity); [discriminate|].
  exists w'. split; [exact Hc | exact Hd].
Defined.

(** X8.  [copyfileobj] between handles on two distinct regular files,
    the destination handle standing inside its file, does not depend on
    the chunk length as long as it is positive: it returns, the source
    is unchanged, and the destination holds what it held with the
    bytes from the position of its handle on replaced by the rest of
    the source, from the position of the source handle to its end,
    as one single write of that rest would leave it.  For handles as
    [copyfile] opens them, both at the start and the destination just
    truncated, the destination ends up with exactly the bytes of the
    source.  With the chunk length 0 the first read is empty and
    nothing at all is copied. *)
Theorem copyfileobj_any_length (fsrc fdst : FS.handle) (len : nat)
    (c d : list Byte.byte) (w : World) :
  FS.h_ino fsrc <> FS.h_ino fdst ->
  inodes w !! FS.h_ino fsrc = Some (Regular c) ->
  inodes w !! FS.h_ino fdst = Some (Regular d) ->
  (FS.h_pos fdst <= List.length d)%nat ->
  let rest := drop (FS.h_pos fsrc) c in
  ((0 < len)%nat ->
     fst (copyfileobj fsrc fdst len w) = Ok tt
     /\ inodes (snd (copyfileobj fsrc fdst len w)) !! FS.h_ino fdst
        = Some (Regular (take (FS.h_pos fdst) d ++ rest
                         ++ drop (FS.h_pos fdst + List.length rest) d))
     /\ inodes (snd (copyfileobj fsrc fdst len w)) !! FS.h_ino fsrc
        = Some (Regular c))
  /\ ((0 < len)%nat -> FS.h_pos fsrc = 0%nat -> d = [] ->
      inodes (snd (copyfileobj fsrc fdst len w)) !! FS.h_ino fdst
      = Some (Regular c))
  /\ copyfileobj fsrc fdst 0 w = (Ok tt, w).
Proof.
  intros Hne Hs Hd Hpos rest.
  assert (Hov : FS.overwrite d (FS.h_pos fdst) rest
                = take (FS.h_pos fdst) d ++ rest
                  ++ drop (FS.h_pos fdst + List.length rest) d).
  { unfold FS.overwrite.
    replace (FS.h_pos fdst - List.length d)%nat with O by lia. reflexivity. }
  split; [|split].
  - intros Hlen.
    destruct (copyfileobj_copies fsrc fdst len c d w Hne Hlen Hs Hd Hpos)
      as (Hr & Hdst & Hsrc).
    fold rest in Hdst. rewrite Hov in Hdst. auto.
  - intros Hlen Hp0 Hd0.
    destruct (copyfileobj_copies fsrc fdst len c d w Hne Hlen Hs Hd Hpos)
      as (_ & Hdst & _).
    rewrite Hdst. fold rest. rewrite Hov. unfold rest. subst d.
    rewrite Hp0, drop_0. simpl in Hpos.
    replace (FS.h_pos fdst) with O by lia. simpl.
    rewrite drop_nil. rewrite app_nil_r. reflexivity.
  - unfold copyfileobj. rewrite Hs. cbn [copy_loop]. unfold FS.read_at.
    rewrite Hs. reflexivity.
Qed.

Lemma copyfileobj_any_length_witness :
  inodes Files.world !! 1%nat = Some (Regular [Byte.x53; Byte.x49; Byte.x4d])
  /\ inodes Files.world !! 3%nat = Some (Regular [Byte.x00])
  /\ inodes (snd (copyfileobj (FS.mkHandle 1 1) (FS.mkHandle 3 1) 1 Files.world))
       !! 3%nat
     = Some (Regular [Byte.x00; Byte.x49; Byte.x4d])
  /\ copyfileobj (FS.mkHandle 1 1) (FS.mkHandle 3 1) 0 Files.world
     = (Ok tt, Files.world).
Proof.
  assert (H1 : inodes Files.world !! 1%nat
               = Some (Regular [Byte.x53; Byte.x49; Byte.x4d]))
    by (vm_compute; reflexivity).
  assert (H3 : inodes Files.world !! 3%nat = Some (Regular [Byte.x00]))
    by (vm_compute; reflexivity).
  split; [exact H1|]. split; [exact H3|].
  destruct (copyfileobj_any_length (FS.mkHandle 1 1) (FS.mkHandle 3 1) 1 _ _
              Files.world ltac:(discriminate) H1 H3 ltac:(simpl; lia))
    as (Hpos & _ & Hzero).
  split; [exact (proj1 (proj2 (Hpos ltac:(lia)))) | exact Hzero].
Defined.



(** ** The convolution plan *)

Section PlanShape.
Context `{L : Libs}.

(** X10.  A plan that [getfacs] returns has exactly one kernel and one
    factor per channel of the cube, in channel order: entry [i] of
    either list is what the deconvolution of the target by beam [i],
    and [gauss_factor] on that kernel and that beam with the pixel
    scales in arcsec, returned. *)
Theorem getfacs_plan_aligned (d : CubeEntry) (new_beam : Beam) (ks : list Beam)
    (fs : list float64) :
  getfacs d new_beam = Ok (ks, fs) ->
  List.length ks = List.length (oldbeams d)
  /\ List.length fs = List.length (oldbeams d)
  /\ forall (i : nat) (b : Beam), oldbeams d !! i = Some b ->
       exists k fac, ks !! i = Some k /\ fs !! i = Some fac
         /\ deconvolve new_beam b = Ok k
         /\ gauss_factor (major k, minor k, pa k) (major b, minor b, pa b)
              (to_arcsec (dx d)) (to_arcsec (dy d)) = Ok fac.
Proof. apply getfacs_Ok. Qed.

Lemma rmap_first_raise {A B} (f : A -> result B) (pre : list A) (a : A)
    (post : list A) (e : exn) :
  (forall x, x ∈ pre -> exists b, f x = Ok b) ->
  f a = Raise e ->
  rmap f (pre ++ a :: post) = Raise e.
Proof.
  intros Hpre Ha. induction pre as [|x pre IH]; simpl.
  - rewrite Ha. reflexivity.
  - destruct (Hpre x ltac:(left)) as [b ->]. simpl.
    rewrite IH; [reflexivity|]. intros y Hy. apply Hpre. right. exact Hy.
Qed.

(** X11.  [getfacs] stops at the first channel for which a library
    call raises, be it the deconvolution or [gauss_factor], and raises
    that exception itself: no plan is returned, not even for the
    channels before it. *)
Theorem getfacs_first_failure (d : CubeEntry) (new_beam b : Beam)
    (pre post : list Beam) (e : exn) :
  oldbeams d = pre ++ b :: post ->
  (forall b', b' ∈ pre -> exists r, getfacs_one d new_beam b' = Ok r) ->
  (deconvolve new_beam b = Raise e
   \/ exists k, deconvolve new_beam b = Ok k
        /\ gauss_factor (major k, minor k, pa k) (major b, minor b, pa b)
             (to_arcsec (dx d)) (to_arcsec (dy d)) = Raise e) ->
  getfacs d new_beam = Raise e.
Proof.
  intros Hd Hpre Hb. unfold getfacs. rewrite Hd.
  rewrite (rmap_first_raise _ pre b post e Hpre); [reflexivity|].
  unfold getfacs_one. destruct Hb as [-> | (k & -> & Hg)]; [reflexivity|].
  simpl. rewrite Hg. reflexivity.
Qed.

End PlanShape.

Lemma getfacs_plan_aligned_witness :
  exists ks fs,
    getfacs (L := Strict.libs) Strict.entry (mkBeam (Demo.f 9) (Demo.f 9) (Demo.f 0))
    = Ok (ks, fs)
    /\ List.length ks = 3%nat /\ List.length fs = 3%nat.
Proof.
  destruct (getfacs (L := Strict.libs) Strict.entry
              (mkBeam (Demo.f 9) (Demo.f 9) (Demo.f 0)))
    as [[ks fs]|e] eqn:H; [|vm_compute in H; discriminate].
  exists ks, fs. split; [reflexivity|].
  destruct (getfacs_plan_aligned (L := Strict.libs) _ _ _ _ H) as (H1 & H2 & _).
  split; [exact H1 | exact H2].
Defined.

Lemma getfacs_first_failure_witness :
  oldbeams Strict.entry
  = [mkBeam (Demo.f 7) (Demo.f 5) (Demo.f 0)]
      ++ mkBeam (Demo.f 9) (Demo.f 5) (Demo.f 0)
      :: [mkBeam F64.nan F64.nan F64.nan]
  /\ deconvolve (Libs := Strict.libs) (mkBeam (Demo.f 8) (Demo.f 8) (Demo.f 0))
       (mkBeam (Demo.f 9) (Demo.f 5) (Demo.f 0))
     = Raise (LibraryError "BeamError")
  /\ getfacs (L := Strict.libs) Strict.entry (mkBeam (Demo.f 8) (Demo.f 8) (Demo.f 0))
     = Raise (LibraryError "BeamError").
Proof.
  split; [reflexivity|]. split; [vm_compute; reflexivity|].
  apply (getfacs_first_failure (L := Strict.libs) Strict.entry
           (mkBeam (Demo.f 8) (Demo.f 8) (Demo.f 0))
           (mkBeam (Demo.f 9) (Demo.f 5) (Demo.f 0))
           [mkBeam (Demo.f 7) (Demo.f 5) (Demo.f 0)]
           [mkBeam F64.nan F64.nan F64.nan]).
  - reflexivity.
  - intros b' Hb'. apply list_elem_of_singleton in Hb'. subst b'.
    eexists. vm_compute. reflexivity.
  - left. vm_compute. reflexivity.
Defined.

(** ** Workers *)

Lemma py_index_ok {A} (l : list A) (i : Z) (j : nat) (a : A) :
  py_norm (List.length l) i = Ok j -> l !! j = Some a -> py_index l i = Ok a.
Proof. intros Hj Ha. unfold py_index. rewrite Hj. simpl. rewrite Ha. reflexivity. Qed.

Lemma py_index_out_of_range {A} (l : list A) (i : Z) :
  i < - Z.of_nat (List.length l) \/ Z.of_nat (List.length l) <= i ->
  py_index l i = Raise IndexError.
Proof.
  intros H. unfold py_index, py_norm.
  destruct (i <? 0) eqn:Hneg.
  - apply Z.ltb_lt in Hneg.
    destruct ((0 <=? i + Z.of_nat (List.length l))
              && (i + Z.of_nat (List.length l) <? Z.of_nat (List.length l))) eqn:Hr;
      [|reflexivity].
    apply andb_prop in Hr as [H0 H1]. lia.
  - apply Z.ltb_ge in Hneg.
    destruct ((0 <=? i) && (i <? Z.of_nat (List.length l))) eqn:Hr; [|reflexivity].
    apply andb_prop in Hr as [H0 H1]. lia.
Qed.

Lemma py_norm_nonneg (n : nat) (i : Z) (j : nat) :
  0 <= i -> py_norm n i = Ok j -> j = Z.to_nat i.
Proof.
  intros Hi. unfold py_norm. destruct (i <? 0) eqn:Hneg; [lia|].
  destruct (_ && _); [intros [= <-]; reflexivity | discriminate].
Qed.

Section Workers.
Context `{L : Libs}.

Lemma worker_Ok_intro (idx start : Z) (w : World) (cd : CubeEntry) (j : nat)
    (newim : image) :
  worker_run idx start w cd j newim ->
  worker idx start w = (Ok tt, worker_result start idx w cd j newim).
Proof.
  intros [im cb sf old H1 H2 H3 H4 H5 H6 H7 H8].
  unfold worker, bind, get_world, lift, emit, modify.
  rewrite H1. simpl. rewrite H2, H3, H4. simpl. rewrite H5. simpl.
  unfold assign_slot. rewrite H6. simpl.
  rewrite (py_index_ok _ _ _ _ H6 H7). unfold rbind.
  rewrite bool_decide_eq_true_2 by exact H8. reflexivity.
Qed.

Lemma worker_Ok_inv (idx start : Z) (w w' : World) :
  worker idx start w = (Ok tt, w') ->
  exists cd j newim,
    worker_run idx start w cd j newim
    /\ w' = worker_result start idx w cd j newim.
Proof.
  unfold worker, bind, get_world, lift, emit, modify. simpl.
  destruct (cubedict w) as [cd|] eqn:H1; simpl; [|discriminate].
  destruct (py_index (arr_in w) idx) as [im|] eqn:H2; simpl; [|discriminate].
  destruct (py_index (conbeams cd) (start + idx)) as [cb|] eqn:H3; simpl;
    [|discriminate].
  destruct (py_index (sfactors cd) (start + idx)) as [sf|] eqn:H4; simpl;
    [|discriminate].
  destruct (smooth im (dy cd) cb sf) as [newim|] eqn:H5; simpl; [|discriminate].
  unfold assign_slot.
  destruct (py_norm (List.length (arr_out w)) idx) as [j|] eqn:H6; simpl;
    [|discriminate].
  destruct (py_index (arr_out w) idx) as [old|] eqn:H7; simpl; [|discriminate].
  case_bool_decide as H8; simpl; [|discriminate].
  intros [= <-].
  apply py_index_lookup in H7 as (j' & Hj' & H7). rewrite H6 in Hj'.
  injection Hj' as <-.
  exists cd, j, newim. split; [|reflexivity].
  exact (WorkerRun idx start w cd j newim im cb sf old H1 H2 H3 H4 H5 H6 H7 H8).
Qed.

(** X12.  A worker changes one thing besides the log: its own slot of
    [arr_out].  Whatever its arguments and whether it returns or
    raises, [arr_in], [cubedict] and the file system are as before,
    [arr_out] has the same length and every slot other than the one the
    index denotes is as before; and if it raises, [arr_out] is entirely
    as before. *)
Theorem worker_frame (idx start : Z) (w : World) :
  let w' := snd (worker idx start w) in
  arr_in w' = arr_in w /\ cubedict w' = cubedict w
  /\ names w' = names w /\ inodes w' = inodes w
  /\ List.length (arr_out w') = List.length (arr_out w)
  /\ (forall k, py_norm (List.length (arr_out w)) idx <> Ok k ->
        arr_out w' !! k = arr_out w !! k)
  /\ (forall e, fst (worker idx start w) = Raise e -> arr_out w' = arr_out w).
Proof.
  cbv zeta. destruct (worker idx start w) as [[[]|e] w'] eqn:Hw; cbn [fst snd].
  - apply worker_Ok_inv in Hw as (cd & j & newim & r & ->).
    destruct r as [im cb sf old _ _ _ _ _ Hslot _ _].
    unfold worker_result. simpl.
    repeat split; try reflexivity.
    + apply length_insert.
    + intros k Hk. apply list_lookup_insert_ne. intros E. subst k.
      apply Hk. exact Hslot.
    + intros e He. discriminate He.
  - assert (H : arr_in w' = arr_in w /\ cubedict w' = cubedict w
                /\ names w' = names w /\ inodes w' = inodes w
                /\ arr_out w' = arr_out w).
    { revert Hw. unfold worker, bind, get_world, lift, emit, modify. simpl.
      destruct (cubedict w) as [cd|] eqn:Hcd; simpl;
        [|intros [= _ <-]; rewrite ?Hcd; repeat split; reflexivity].
      destruct (py_index (arr_in w) idx); simpl;
        [|intros [= _ <-]; rewrite ?Hcd; repeat split; reflexivity].
      destruct (py_index (conbeams cd) (start + idx)); simpl;
        [|intros [= _ <-]; rewrite ?Hcd; repeat split; reflexivity].
      destruct (py_index (sfactors cd) (start + idx)); simpl;
        [|intros [= _ <-]; rewrite ?Hcd; repeat split; reflexivity].
      destruct (smooth _ _ _ _) as [newim|]; simpl;
        [|intros [= _ <-]; simpl; rewrite ?Hcd; repeat split; reflexivity].
      destruct (assign_slot (arr_out w) idx newim); simpl;
        [discriminate
        |intros [= _ <-]; simpl; rewrite ?Hcd; repeat split; reflexivity]. }
    destruct H as (H1 & H2 & H3 & H4 & H5).
    rewrite H1, H2, H3, H4, H5. repeat split; reflexivity.
Qed.

End Workers.

Lemma py_index_raise {A} (l : list A) (i : Z) (e : exn) :
  py_index l i = Raise e -> e = IndexError.
Proof.
  unfold py_index, py_norm.
  destruct (if i <? 0 then _ else _) as [|p|p]; simpl;
    try (destruct (_ <? _); simpl); try (intros [= <-]; reflexivity);
    destruct (l !! _); try discriminate; intros [= <-]; reflexivity.
Qed.

Section WorkersTogether.
Context `{L : Libs}.

(** X13.  Two workers of one chunk with different indices commute: if
    running one and then the other returns, so does running them in
    the other order, and the buffers, the cube record and the file
    system it leaves are the same; only the order of the two entries
    in the log differs.  So the order in which the pool runs the tasks
    of a chunk does not matter. *)
Theorem workers_commute (i j start : Z) (w w2 : World) :
  0 <= i -> 0 <= j -> i <> j ->
  bind (worker i start) (fun _ => worker j start) w = (Ok tt, w2) ->
  exists w2',
    bind (worker j start) (fun _ => worker i start) w = (Ok tt, w2')
    /\ arr_out w2' = arr_out w2 /\ arr_in w2' = arr_in w2
    /\ cubedict w2' = cubedict w2
    /\ names w2' = names w2 /\ inodes w2' = inodes w2
    /\ log w2' ≡ₚ log w2.
Proof.
  intros Hi Hj Hij H. unfold bind in H.
  destruct (worker i start w) as [[[]|e] w1] eqn:H1; [|discriminate].
  apply worker_Ok_inv in H1 as (cd1 & j1 & new1 & R1 & ->).
  apply worker_Ok_inv in H as (cd2 & j2 & new2 & R2 & ->).
  destruct R1 as [im1 cb1 sf1 old1 A1 A2 A3 A4 A5 A6 A7 A8].
  destruct R2 as [im2 cb2 sf2 old2 B1 B2 B3 B4 B5 B6 B7 B8].
  simpl in B1, B2, B6, B7.
  assert (cd2 = cd1) by congruence. subst cd2.
  rewrite length_insert in B6.
  assert (Hne : j1 <> j2).
  { rewrite (py_norm_nonneg _ _ _ Hi A6), (py_norm_nonneg _ _ _ Hj B6). lia. }
  rewrite list_lookup_insert_ne in B7 by exact Hne.
  pose proof (worker_Ok_intro j start w cd1 j2 new2
                (WorkerRun j start w cd1 j2 new2 im2 cb2 sf2 old2
                   A1 B2 B3 B4 B5 B6 B7 B8)) as Hfirst.
  assert (R : worker_run i start (worker_result start j w cd1 j2 new2) cd1 j1 new1).
  { apply (WorkerRun _ _ _ _ _ _ im1 cb1 sf1 old1); simpl; try assumption.
    - rewrite length_insert. exact A6.
    - rewrite list_lookup_insert_ne by (intros E; apply Hne; symmetry; exact E).
      exact A7. }
  pose proof (worker_Ok_intro _ _ _ _ _ _ R) as Hsecond.
  eexists. split.
  { unfold bind. rewrite Hfirst. exact Hsecond. }
  unfold worker_result. simpl.
  split; [apply list_insert_insert_ne; exact Hne|].
  repeat split; try reflexivity.
  rewrite <- !app_assoc. apply Permutation_app_head. simpl. apply perm_swap.
Qed.

(** X14.  A worker whose index is outside the input buffer, or whose
    channel [start + idx] is outside the plan of the cube (its kernels
    or its factors), raises [IndexError] and leaves the world as it
    was: nothing is smoothed, logged or stored.  A plan shorter than
    the cube therefore stops the run at the first channel beyond it. *)
Theorem worker_index_error (idx start : Z) (w : World) (cd : CubeEntry) :
  cubedict w = Some cd ->
  let outside (n : nat) (k : Z) := k < - Z.of_nat n \/ Z.of_nat n <= k in
  outside (List.length (arr_in w)) idx
  \/ outside (List.length (conbeams cd)) (start + idx)
  \/ outside (List.length (sfactors cd)) (start + idx) ->
  worker idx start w = (Raise IndexError, w).
Proof.
  intros Hcd outside Hout.
  unfold worker, bind, get_world, lift, emit, modify. rewrite Hcd. simpl.
  destruct (py_index (arr_in w) idx) as [im|e] eqn:H1; simpl;
    [|apply py_index_raise in H1; subst e; reflexivity].
  destruct (py_index (conbeams cd) (start + idx)) as [cb|e] eqn:H2; simpl;
    [|apply py_index_raise in H2; subst e; reflexivity].
  destruct (py_index (sfactors cd) (start + idx)) as [sf|e] eqn:H3; simpl;
    [|apply py_index_raise in H3; subst e; reflexivity].
  exfalso. destruct Hout as [H | [H | H]];
    apply py_index_out_of_range in H; congruence.
Qed.

End WorkersTogether.

Lemma workers_commute_witness :
  0 <= 0 /\ 0 <= 1 /\ 0 <> 1
  /\ exists w2 w2',
       bind (worker (L := Demo.libs 5) 0 0) (fun _ => worker (L := Demo.libs 5) 1 0)
            Shared.world = (Ok tt, w2)
       /\ bind (worker (L := Demo.libs 5) 1 0) (fun _ => worker (L := Demo.libs 5) 0 0)
               Shared.world = (Ok tt, w2')
       /\ arr_out w2' = arr_out w2
       /\ arr_out w2 = [[[F64.nan; F64.nan]];
                        [[F64.mul (Demo.f 3) (Demo.f 2); F64.mul (Demo.f 4) (Demo.f 2)]]].
Proof.
  split; [lia|]. split; [lia|]. split; [lia|].
  destruct (bind (worker (L := Demo.libs 5) 0 0)
                 (fun _ => worker (L := Demo.libs 5) 1 0) Shared.world)
    as [r w2] eqn:H.
  assert (Hr : r = Ok tt /\ arr_out w2
               = [[[F64.nan; F64.nan]];
                  [[F64.mul (Demo.f 3) (Demo.f 2); F64.mul (Demo.f 4) (Demo.f 2)]]]).
  { vm_compute in H. injection H as <- <-. split; reflexivity. }
  destruct Hr as [-> Hout].
  destruct (workers_commute (L := Demo.libs 5) 0 1 0 Shared.world w2
              ltac:(lia) ltac:(lia) ltac:(lia) H) as (w2' & H' & Ho & _).
  exists w2, w2'. split; [reflexivity|]. split; [exact H'|].
  split; [exact Ho | exact Hout].
Defined.

Lemma worker_index_error_witness :
  cubedict Shared.world = Some Shared.entry
  /\ Z.of_nat (List.length (conbeams Shared.entry)) <= 2 + 1
  /\ worker (L := Demo.libs 5) 1 2 Shared.world = (Raise IndexError, Shared.world).
Proof.
  split; [reflexivity|]. split; [simpl; lia|].
  apply (worker_index_error (L := Demo.libs 5) 1 2 Shared.world Shared.entry eq_refl).
  right. left. right. simpl. lia.
Defined.

(** ** [main] before the first cube *)

Lemma last_char_None (s : string) : Str.last_char s = None <-> s = ""%string.
Proof.
  split; [|intros ->; reflexivity].
  induction s as [|c s IH]; [reflexivity|]. simpl.
  destruct s as [|c' s]; [discriminate|]. intros H. apply IH in H. discriminate.
Qed.

Section NoInput.
Context `{L : Libs}.

(** X15.  When the input pattern matches no file, [main] raises and
    leaves the world as it was.  The exception is
    [Exception('No files found!')], except that an empty [--outdir]
    string is refused first, with the [IndexError] of [outdir[-1]]. *)
Theorem main_no_files (args : Args) (w : World) :
  glob (infile args) = [] ->
  exists e, main args w = (Raise e, w)
    /\ (outdir args <> Some ""%string -> e = Exception_ "No files found!")
    /\ (outdir args = Some ""%string -> e = IndexError).
Proof.
  intros Hg.
  assert (H : exists e, prepare args = Raise e
              /\ (outdir args <> Some ""%string -> e = Exception_ "No files found!")
              /\ (outdir args = Some ""%string -> e = IndexError)).
  { unfold prepare, fix_outdir. destruct (outdir args) as [d|].
    - destruct (Str.last_char d) as [c|] eqn:Hc; simpl.
      + rewrite Hg. simpl. eexists. split; [reflexivity|]. split; [reflexivity|].
        intros [= ->]. discriminate Hc.
      + apply last_char_None in Hc. subst d. eexists. split; [reflexivity|].
        split; [intros H; contradiction | reflexivity].
    - simpl. rewrite Hg. simpl. eexists. split; [reflexivity|].
      split; [reflexivity | discriminate]. }
  destruct H as (e & He & H1 & H2). exists e.
  split; [apply main_prepare_raises; exact He|]. split; assumption.
Qed.

End NoInput.

Lemma main_no_files_witness :
  glob (Libs := no_files_libs) "*.fits" = []
  /\ main (L := no_files_libs) (Demo.args None None None) Demo.world
     = (Raise (Exception_ "No files found!"), Demo.world)
  /\ main (L := no_files_libs)
          (mkArgs "*.fits" (Some ""%string) None None None 4 false) Demo.world
     = (Raise IndexError, Demo.world).
Proof.
  split; [reflexivity|]. split.
  - destruct (main_no_files (L := no_files_libs) (Demo.args None None None)
                Demo.world eq_refl) as (e & Hm & H1 & _).
    rewrite Hm, H1; [reflexivity | discriminate].
  - destruct (main_no_files (L := no_files_libs)
                (mkArgs "*.fits" (Some ""%string) None None None 4 false)
                Demo.world eq_refl) as (e & Hm & _ & H2).
    rewrite Hm, H2; reflexivity.
Defined.

(** ** The target beam that is built *)

Lemma ltb_irrefl (x : float64) : F64.ltb x x = false.
Proof.
  unfold F64.ltb, SFltb. destruct x as [s|s| |s m e]; simpl; try reflexivity.
  - destruct s; reflexivity.
  - rewrite Z.compare_refl.
    change (Pos.compare_cont Eq m m) with (Pos.compare m m).
    rewrite Pos.compare_refl. destruct s; reflexivity.
Qed.

Section TargetAxes.
Context `{L : Libs}.

(** X16.  Whenever [main] gets as far as building the target beam, its
    two axes are not below the required minimum
    [round_up(big_beam.major)]: an axis given on the command line is
    used as it is, and had passed the check; an axis that was omitted
    is the minimum itself, for the minor axis as for the major one. *)
Theorem target_axes_not_below_minimum (args : Args) (big_beam : Beam)
    (p : float64 * float64 * float64) :
  target_params args big_beam = Ok p ->
  let minimum := round_up (major big_beam) 0 in
  fst (fst p) = default minimum (bmaj args)
  /\ snd (fst p) = default minimum (bmin args)
  /\ F64.ltb (fst (fst p)) minimum = false
  /\ F64.ltb (snd (fst p)) minimum = false.
Proof.
  unfold target_params.
  destruct (match bpa args, bmin args, bmaj args with
            | None, Some _, Some _ => attr_bpa big_beam
            | _, _, _ => Ok (F64.of_Z 0)
            end) as [v|]; simpl; [|discriminate].
  destruct (bmaj args) as [x|]; simpl;
    [destruct (F64.ltb x _) eqn:Hx; simpl; [discriminate|]|];
    (destruct (bmin args) as [y|]; simpl;
     [destruct (F64.ltb y _) eqn:Hy; simpl; [discriminate|]|]);
    intros [= <-]; simpl; repeat split;
    try assumption; try apply ltb_irrefl.
Qed.

End TargetAxes.

Lemma target_axes_not_below_minimum_witness :
  target_params (L := Demo.libs 5) (Demo.args (Some (Demo.f 9)) None None)
                (mkBeam (Demo.half 15) (Demo.f 6) (Demo.f 10))
  = Ok (Demo.f 9, Demo.f 8, Demo.f 0)
  /\ F64.ltb (Demo.f 9) (Demo.f 8) = false.
Proof.
  assert (H : target_params (L := Demo.libs 5) (Demo.args (Some (Demo.f 9)) None None)
                (mkBeam (Demo.half 15) (Demo.f 6) (Demo.f 10))
              = Ok (Demo.f 9, Demo.f 8, Demo.f 0)) by (vm_compute; reflexivity).
  split; [exact H|].
  destruct (target_axes_not_below_minimum (L := Demo.libs 5) _ _ _ H)
    as (_ & _ & Ha & _).
  exact Ha.
Defined.

(** ** What the aggregation hands to the cube loop *)

Lemma rmap_Forall2 {A B} (f : A -> result B) (l : list A) (bs : list B) :
  rmap f l = Ok bs -> Forall2 (fun a b => f a = Ok b) l bs.
Proof.
  revert bs. induction l as [|a l IH]; intros bs; simpl.
  - intros [= <-]. constructor.
  - destruct (f a) as [b|e] eqn:Hfa; simpl; [|discriminate].
    destruct (rmap f l) as [bs'|e]; simpl; [|discriminate].
    intros [= <-]. constructor; [exact Hfa | apply IH; reflexivity].
Qed.

Lemma assign_where_length {A} (row : list A) (m : Np.bool_val) (v : A)
    (out : list A) :
  Np.assign_where row m v = Ok out -> List.length out = List.length row.
Proof.
  unfold Np.assign_where. destruct m as [b|m].
  - intros [= <-]. destruct b; [apply length_fmap | reflexivity].
  - case_bool_decide as Hlen; [|discriminate]. intros [= <-].
    rewrite length_zip_with. lia.
Qed.

Lemma mask_table_length (m : Np.bool_val) (rows rows' : list BeamRow) :
  mask_table m rows = Ok rows' -> List.length rows' = List.length rows.
Proof.
  unfold mask_table.
  destruct (Np.assign_where (BMAJarcsec <$> rows) m F64.nan)
    as [a1|] eqn:H1; cbn [rbind]; [|discriminate].
  destruct (Np.assign_where (BMINarcsec <$> rows) m F64.nan)
    as [a2|] eqn:H2; cbn [rbind]; [|discriminate].
  destruct (Np.assign_where (BPAdeg <$> rows) m F64.nan)
    as [a3|] eqn:H3; cbn [rbind]; [|discriminate].
  apply assign_where_length in H1, H2, H3. rewrite length_fmap in H1, H2, H3.
  intros [= <-]. repeat rewrite length_zip_with. lia.
Qed.

Lemma all_equal_first_spec (l : list nat) :
  all_equal_first l = true -> forall x y, x ∈ l -> y ∈ l -> x = y.
Proof.
  destruct l as [|n0 l]; [intros _ x y Hx; inversion Hx|].
  unfold all_equal_first. rewrite forallb_forall. intros H x y Hx Hy.
  apply list_elem_of_In, H, Nat.eqb_eq in Hx.
  apply list_elem_of_In, H, Nat.eqb_eq in Hy. congruence.
Qed.

Lemma fmap_concat_list {A B} (f : A -> B) (ls : list (list A)) :
  f <$> concat ls = concat ((fun l : list A => f <$> l) <$> ls).
Proof.
  induction ls as [|l ls IH]; [reflexivity|].
  rewrite fmap_cons. cbn [concat]. rewrite fmap_app, IH. reflexivity.
Qed.

Section Entries.
Context `{L : Libs}.

(** What one file contributes: loaded, then masked. *)
Lemma load_mask_entry (m : Np.bool_val) (file : string) (ld : Loaded)
    (e : CubeEntry) (rows' : list BeamRow) :
  load_file file = Ok ld -> mask_cube m ld = Ok (e, rows') ->
  filename e = file /\ beamlog e = beamlog_of file
  /\ conbeams e = [] /\ sfactors e = []
  /\ oldbeams e = beam_of_row <$> rows'
  /\ List.length rows' = l_nchan ld.
Proof.
  unfold load_file, mask_cube.
  destruct (getheader file) as [hdr|]; simpl; [|discriminate].
  destruct (getbeams (beamlog_of file)) as [bn|] eqn:Hbn; simpl; [|discriminate].
  apply getbeams_Ok in Hbn as (_ & Hn & _).
  destruct (SpectralCube_read file) as [cube|]; simpl; [|discriminate].
  destruct (central_mask cube) as [mask|]; simpl; [|discriminate].
  intros [= <-]. cbn [l_entry l_beam l_nchan filename beamlog conbeams sfactors dx dy].
  destruct (mask_table m (fst bn)) as [t'|] eqn:Ht; cbn [rbind]; [|discriminate].
  intros [= <- <-]. cbn [filename beamlog conbeams sfactors oldbeams].
  repeat split; try reflexivity. rewrite Hn. eapply mask_table_length; exact Ht.
Qed.

Lemma entries_of_files (tm : Np.bool_val) (ns : list nat) (files : list string)
    (loaded : list Loaded) (masked : list (CubeEntry * list BeamRow)) :
  Forall2 (fun f ld => load_file f = Ok ld) files loaded ->
  Forall2 (fun ld m => mask_cube tm ld = Ok m) loaded masked ->
  (forall ld, ld ∈ loaded -> l_nchan ld ∈ ns) ->
  Forall2 (entry_of_file ns) files masked.
Proof.
  intros Hload. revert masked.
  induction Hload as [|file ld fs lds Hf _ IH]; intros masked Hmasked Hsub;
    inversion Hmasked as [|? [e rows'] ? ms Hm Hms]; subst; constructor.
  - destruct (load_mask_entry _ _ _ _ _ Hf Hm) as (H1 & H2 & H3 & H4 & H5 & H6).
    unfold entry_of_file. cbn [fst snd]. repeat split; try assumption.
    rewrite H6. apply Hsub. left.
  - apply IH; [exact Hms|]. intros ld' Hld'. apply Hsub. right. exact Hld'.
Qed.

(** A successful aggregation, file by file. *)
Lemma aggregate_inv (files : list string) (agg : list CubeEntry * list Beam) :
  aggregate files = Ok agg ->
  exists (loaded : list Loaded) (masked : list (CubeEntry * list BeamRow)),
    all_equal_first (l_nchan <$> loaded) = true
    /\ Forall2 (entry_of_file (l_nchan <$> loaded)) files masked
    /\ agg = (fst <$> masked, beam_of_row <$> concat (snd <$> masked)).
Proof.
  unfold aggregate. intros H.
  apply rbind_Ok in H as (loaded & Hload & H).
  apply rbind_Ok in H as (beams & _ & H).
  apply rbind_Ok in H as (tm & _ & H).
  apply rbind_Ok in H as (masked & Hmasked & H).
  destruct (all_equal_first (l_nchan <$> loaded)) eqn:Heq; simpl in H;
    [|discriminate].
  injection H as <-. exists loaded, masked.
  split; [exact Heq|]. split; [|reflexivity].
  apply rmap_Forall2 in Hload. apply rmap_Forall2 in Hmasked.
  eapply entries_of_files; [exact Hload | exact Hmasked |].
  intros ld Hld. apply list_elem_of_fmap. eauto.
Qed.

Lemma entries_filenames (ns : list nat) (files : list string)
    (masked : list (CubeEntry * list BeamRow)) :
  Forall2 (entry_of_file ns) files masked ->
  filename <$> (fst <$> masked) = files.
Proof.
  induction 1 as [|f m fs ms (H1 & _) _ IH]; [reflexivity|].
  rewrite !fmap_cons, H1, IH. reflexivity.
Qed.

(** X17.  What a successful aggregation hands to the cube loop: one
    entry per input file, in the order of [glob]; each entry names its
    beam log, and has no convolving beams or factors yet; the beam
    sets of all entries have the same number of channels; and the list
    from which the largest beam is taken is the beam sets of the
    entries, one after the other. *)
Theorem aggregate_entries (files : list string)
    (agg : list CubeEntry * list Beam) :
  aggregate files = Ok agg ->
  filename <$> fst agg = files
  /\ Forall (fun e => beamlog e = beamlog_of (filename e)
                      /\ conbeams e = [] /\ sfactors e = []) (fst agg)
  /\ (forall e e', e ∈ fst agg -> e' ∈ fst agg ->
        List.length (oldbeams e) = List.length (oldbeams e'))
  /\ snd agg = concat (oldbeams <$> fst agg).
Proof.
  intros H. apply aggregate_inv in H as (loaded & masked & Heq & Hall & ->).
  cbn [fst snd].
  pose proof (all_equal_first_spec _ Heq) as Hsame.
  split; [exact (entries_filenames _ _ _ Hall)|].
  unfold entry_of_file in Hall.
  repeat split.
  - induction Hall as [|f m fs ms (H1 & H2 & H3 & H4 & _) _ IH]; [constructor|].
    rewrite fmap_cons. constructor; [|exact IH].
    rewrite H1. repeat split; assumption.
  - assert (Hlen : forall e, e ∈ fst <$> masked ->
               List.length (oldbeams e) ∈ l_nchan <$> loaded).
    { clear Hsame Heq. revert Hall. generalize (l_nchan <$> loaded) as ns.
      intros ns Hall.
      induction Hall as [|f m fs ms (_ & _ & _ & _ & H5 & H6) _ IH]; intros e He.
      - inversion He.
      - rewrite fmap_cons in He. apply elem_of_cons in He as [He | He].
        + rewrite He, H5, length_fmap. exact H6.
        + apply IH. exact He. }
    intros e e' He He'. apply Hsame; apply Hlen; assumption.
  - rewrite fmap_concat_list. f_equal.
    induction Hall as [|f m fs ms (_ & _ & _ & _ & H5 & _) _ IH]; [reflexivity|].
    rewrite !fmap_cons, IH, H5. reflexivity.
Qed.

End Entries.

Lemma aggregate_entries_witness :
  exists agg,
    aggregate (L := Demo.libs 5) ["a.fits"; "b.fits"]%string = Ok agg
    /\ filename <$> fst agg = ["a.fits"; "b.fits"]%string
    /\ snd agg = concat (oldbeams <$> fst agg).
Proof.
  destruct (aggregate (L := Demo.libs 5) ["a.fits"; "b.fits"]%string)
    as [agg|e] eqn:Hagg; [|vm_compute in Hagg; discriminate Hagg].
  exists agg. split; [reflexivity|].
  destruct (aggregate_entries (L := Demo.libs 5) _ _ Hagg) as (H1 & _ & _ & H4).
  split; assumption.
Defined.

(** ** The order of the steps of a run *)

Lemma headers_app l1 l2 : headers (l1 ++ l2) = headers l1 ++ headers l2.
Proof. apply omap_app. Qed.

Lemma headers_chunk_steps (file outfile : string) (body : list event) :
  Forall (fun e => chunk_step file outfile e = true) body -> headers body = [].
Proof.
  induction 1 as [|e body He _ IH]; [reflexivity|].
  destruct e; try discriminate He; exact IH.
Qed.

Lemma headers_cube (l : list event) (file outfile : string) (b : Beam)
    (body : list event) :
  Forall (fun e => chunk_step file outfile e = true) body ->
  headers (l ++ [EvGetfacs file; EvCopyfile file outfile] ++ body
             ++ [EvHeader outfile b])
  = headers l ++ [(outfile, b)].
Proof.
  intros Hbody. rewrite headers_app. f_equal.
  change (headers (body ++ [EvHeader outfile b]) = [(outfile, b)]).
  rewrite headers_app, (headers_chunk_steps _ _ _ Hbody). reflexivity.
Qed.

(** A bind, by the outcome of its first part. *)
Lemma bind_outcome {A B} (m : M A) (k : A -> M B) (w : World)
    (Q : result B -> World -> Prop) :
  (forall a w1, m w = (Ok a, w1) -> Q (fst (k a w1)) (snd (k a w1))) ->
  (forall e w1, m w = (Raise e, w1) -> Q (Raise e) w1) ->
  Q (fst (bind m k w)) (snd (bind m k w)).
Proof.
  intros Hok Hraise. unfold bind.
  destruct (m w) as [[a|e] w1]; [apply Hok | apply Hraise]; reflexivity.
Qed.

(** [copyfile] and the log of steps: it neither reads nor changes
    it. *)
Lemma ignores_log_ret {A} (a : A) : ignores_log (ret a).
Proof. intros w l. reflexivity. Qed.

Lemma ignores_log_raise {A} (e : exn) : ignores_log (@raise A e).
Proof. intros w l. reflexivity. Qed.

Lemma ignores_log_bind {A B} (m : M A) (k : A -> M B) :
  ignores_log m -> (forall a, ignores_log (k a)) -> ignores_log (bind m k).
Proof.
  intros Hm Hk w l. unfold bind. rewrite (Hm w l).
  destruct (m w) as [[a|e] w1]; cbn [fst snd]; [apply Hk | reflexivity].
Qed.

Lemma ignores_log_get {B} (k : World -> M B) :
  (forall w l w', k (set_log w l) w' = k w w') ->
  (forall w0, ignores_log (k w0)) ->
  ignores_log (bind get_world k).
Proof. intros Hw Hk w l. rewrite !bind_get, Hw. apply Hk. Qed.

Lemma ignores_log_for_each {A} (l : list A) (body : A -> M unit) :
  (forall a, ignores_log (body a)) -> ignores_log (for_each l body).
Proof.
  intros Hb. induction l as [|a l IH]; cbn [for_each]; [apply ignores_log_ret|].
  apply ignores_log_bind; [apply Hb | intros _; exact IH].
Qed.

Lemma follow_set_log (fuel : nat) (w : World) (l : list event) (p : string) :
  FS.follow fuel (set_log w l) p = FS.follow fuel w p.
Proof. apply follow_names. reflexivity. Qed.

Lemma stat_set_log (w : World) (l : list event) (p : string) :
  FS.stat (set_log w l) p = FS.stat w p.
Proof. unfold FS.stat. rewrite follow_set_log. reflexivity. Qed.

Lemma samefile_set_log (w : World) (l : list event) (src dst : string) :
  _samefile (set_log w l) src dst = _samefile w src dst.
Proof. unfold _samefile, FS.samefile. rewrite !stat_set_log. reflexivity. Qed.

Lemma ignores_log_check_not_fifo (fn : string) : ignores_log (check_not_fifo fn).
Proof.
  intros w l. unfold check_not_fifo. rewrite stat_set_log.
  destruct (FS.stat w fn) as [[i n]|]; [|reflexivity].
  destruct (FS.S_ISFIFO n); reflexivity.
Qed.

Lemma ignores_log_symlink (t dst : string) : ignores_log (FS.symlink t dst).
Proof.
  intros w l. unfold FS.symlink.
  change (names (set_log w l)) with (names w).
  change (FS.dir_exists (set_log w l) (FS.parent dst))
    with (FS.dir_exists w (FS.parent dst)).
  destruct (names w !! dst); [reflexivity|].
  destruct (FS.dir_exists w (FS.parent dst)); reflexivity.
Qed.

Lemma ignores_log_open_rb (p : string) : ignores_log (FS.open_rb p).
Proof.
  intros w l. unfold FS.open_rb. rewrite stat_set_log.
  destruct (FS.stat w p) as [[i n]|]; reflexivity.
Qed.

Lemma ignores_log_open_wb (p : string) : ignores_log (FS.open_wb p).
Proof.
  intros w l. unfold FS.open_wb. rewrite follow_set_log.
  destruct (FS.follow FS.MAXSYMLINKS w p) as [q|]; [|reflexivity].
  change (names (set_log w l)) with (names w).
  change (inodes (set_log w l)) with (inodes w).
  change (FS.dir_exists (set_log w l) (FS.parent q))
    with (FS.dir_exists w (FS.parent q)).
  destruct (names w !! q) as [[i|t]|];
    try (destruct (FS.dir_exists w (FS.parent q)); reflexivity).
  destruct (inodes w !! i) as [[c|]|]; reflexivity.
Qed.

Lemma ignores_log_copy_loop (fuel fsrc fdst spos dpos len : nat) :
  ignores_log (copy_loop fuel fsrc fdst spos dpos len).
Proof.
  revert spos dpos. induction fuel as [|fuel IH]; intros spos dpos w l;
    [reflexivity|].
  cbn [copy_loop]. unfold FS.read_at.
  change (inodes (set_log w l)) with (inodes w).
  destruct (inodes w !! fsrc) as [[c|]|]; try reflexivity.
  destruct (take len (drop spos c)) as [|b buf]; [reflexivity|].
  unfold bind, FS.write_at.
  change (inodes (set_log w l)) with (inodes w).
  destruct (inodes w !! fdst) as [[d|]|]; cbn [fst snd]; try apply IH.
  match goal with
  | |- copy_loop _ _ _ _ _ _ (set_inodes (set_log w l) ?x) = _ =>
      change (set_inodes (set_log w l) x) with (set_log (set_inodes w x) l)
  end.
  apply IH.
Qed.

Lemma ignores_log_copyfileobj (fsrc fdst : FS.handle) (len : nat) :
  ignores_log (copyfileobj fsrc fdst len).
Proof.
  intros w l. unfold copyfileobj.
  change (inodes (set_log w l)) with (inodes w). apply ignores_log_copy_loop.
Qed.

Lemma copyfile_ignores_log (src dst : string) (fl : bool) :
  ignores_log (copyfile src dst fl).
Proof.
  unfold copyfile. apply ignores_log_get.
  { intros w l w'. rewrite samefile_set_log. reflexivity. }
  intros w0. destruct (truthy (_samefile w0 src dst)); [apply ignores_log_raise|].
  apply ignores_log_bind;
    [apply ignores_log_for_each, ignores_log_check_not_fifo|].
  intros _. apply ignores_log_get; [intros w l w'; reflexivity|].
  intros w1. apply ignores_log_bind; [|intros _; apply ignores_log_ret].
  destruct (negb fl && FS.islink w1 src).
  - destruct (names w1 !! src) as [[i|t]|]; try apply ignores_log_raise.
    apply ignores_log_symlink.
  - apply ignores_log_bind; [apply ignores_log_open_rb|]. intros fsrc.
    apply ignores_log_bind; [apply ignores_log_open_wb|]. intros fdst.
    apply ignores_log_copyfileobj.
Qed.

Lemma set_log_log (w : World) : set_log w (log w) = w.
Proof. destruct w. reflexivity. Qed.

(** [copyfile] leaves the log of steps alone. *)
Lemma copyfile_log (l : list event) (src dst : string) (fl : bool) :
  preserves (fun w => log w = l) (copyfile src dst fl).
Proof.
  intros w H.
  pose proof (copyfile_ignores_log src dst fl w (log w)) as Hc.
  rewrite set_log_log in Hc. rewrite Hc. exact H.
Qed.

Section Steps.
Context `{L : Libs}.

Lemma in_chunk_loop_step (file outfile : string) (X : list event) (w : World)
    (e : event) :
  in_chunk_loop file outfile X w -> chunk_step file outfile e = true ->
  in_chunk_loop file outfile X (set_log w (log w ++ [e])).
Proof.
  intros [Hcd (body & Hlog & Hbody)] He. split; [exact Hcd|].
  exists (body ++ [e]). simpl. rewrite Hlog, <- app_assoc. split; [reflexivity|].
  apply Forall_app. split; [exact Hbody | constructor; [exact He | constructor]].
Qed.

Lemma worker_in_chunk_loop (file outfile : string) (X : list event)
    (idx start : Z) :
  preserves (in_chunk_loop file outfile X) (worker idx start).
Proof.
  intros w Hw. pose proof Hw as [(cd & Hcd & Hf) _].
  unfold worker, bind, get_world, lift, emit, modify. simpl. rewrite Hcd. simpl.
  destruct (py_index (arr_in w) idx); simpl; [|exact Hw].
  destruct (py_index (conbeams cd) (start + idx)); simpl; [|exact Hw].
  destruct (py_index (sfactors cd) (start + idx)); simpl; [|exact Hw].
  assert (Hs : in_chunk_loop file outfile X
                 (set_log w (log w ++ [EvSmooth (filename cd) (start + idx)]))).
  { apply in_chunk_loop_step; [exact Hw|]. simpl. rewrite Hf. apply String.eqb_refl. }
  destruct (smooth _ _ _ _) as [newim|]; simpl; [|exact Hs].
  destruct (assign_slot (arr_out w) idx newim) as [out|]; simpl; exact Hs.
Qed.

Lemma process_chunk_in_chunk_loop (args : Args) (file : string)
    (X : list event) (cube : Cube) (outfile : string) (width : Z) (c : Z * Z) :
  preserves (in_chunk_loop file outfile X)
            (process_chunk args cube outfile width c).
Proof.
  intros w Hw. rewrite process_chunk_unfold.
  destruct (Np.assign_all _ _) as [buf|]; [|exact Hw].
  destruct (choose_pool _ _) as [[]|]; [|exact Hw].
  assert (H2 : in_chunk_loop file outfile X
                 (snd (for_each (seqZ 0 width) (fun idx => worker idx (fst c))
                         (set_arr_in w buf)))).
  { apply preserves_for_each; [|exact Hw].
    intros idx _. apply worker_in_chunk_loop. }
  destruct (for_each _ _ _) as [[[]|e] w2]; simpl in *; [|exact H2].
  apply in_chunk_loop_step; [exact H2|]. simpl. apply String.eqb_refl.
Qed.

(** One cube, by its outcome: a cube processed to the end leaves the
    chunk loop and then updates the header; a cube that raises has
    updated no header. *)
Lemma process_cube_outcome (args : Args) (outdir' : string) (new_beam : Beam)
    (entry : CubeEntry) (w : World) :
  let file := filename entry in
  let outfile := outfile_of outdir' file in
  let r := process_cube args outdir' new_beam entry w in
  match fst r with
  | Ok _ =>
      exists w8,
        in_chunk_loop file outfile
          (log w ++ [EvGetfacs file; EvCopyfile file outfile]) w8
        /\ snd r = set_log w8 (log w8 ++ [EvHeader outfile new_beam])
  | Raise _ => headers (log (snd r)) = headers (log w)
  end.
Proof.
  cbv zeta.
  set (file := filename entry). set (outfile := outfile_of outdir' file).
  set (X := log w ++ [EvGetfacs file; EvCopyfile file outfile]).
  set (Q := fun (r : result unit) (w' : World) =>
              match r with
              | Ok _ =>
                  exists w8,
                    in_chunk_loop file outfile
                      (log w ++ [EvGetfacs file; EvCopyfile file outfile]) w8
                    /\ w' = set_log w8 (log w8 ++ [EvHeader outfile new_beam])
              | Raise _ => headers (log w') = headers (log w)
              end).
  change (Q (fst (process_cube args outdir' new_beam entry w))
            (snd (process_cube args outdir' new_beam entry w))).
  assert (HX : headers X = headers (log w)).
  { unfold X. rewrite headers_app. simpl. apply app_nil_r. }
  assert (Hloop : forall w', in_chunk_loop file outfile X w' ->
                   headers (log w') = headers (log w)).
  { intros w' [_ (body & Hlog & Hbody)].
    rewrite Hlog, headers_app, (headers_chunk_steps _ _ _ Hbody), app_nil_r.
    exact HX. }
  unfold process_cube. fold file. fold (outfile_of outdir' file). fold outfile.
  apply bind_outcome; [|intros e w1 [=]]. intros [] w1 [= <-].
  assert (H1 : headers (log (set_log w (log w ++ [EvGetfacs file])))
               = headers (log w)).
  { simpl. rewrite headers_app. simpl. apply app_nil_r. }
  apply bind_outcome; [|intros e w1 [= _ <-]; exact H1]. intros cf w1 [= _ <-].
  apply bind_outcome; [|intros e w1 [= _ <-]; exact H1]. intros cube w1 [= _ <-].
  apply bind_outcome; [|intros e w1 [=]]. intros [] w2 [= <-].
  assert (H2 : log (set_log (set_log w (log w ++ [EvGetfacs file]))
                      (log (set_log w (log w ++ [EvGetfacs file]))
                       ++ [EvCopyfile file outfile])) = X).
  { unfold X. simpl. rewrite <- app_assoc. reflexivity. }
  apply bind_outcome.
  2:{ intros e w3 Hc.
      match type of Hc with
      | copyfile _ _ _ ?w0 = _ =>
          pose proof (copyfile_log X file outfile true w0 H2) as Hl
      end.
      rewrite Hc in Hl. simpl in Hl. unfold Q. rewrite Hl. exact HX. }
  intros dst w3 Hc.
  match type of Hc with
  | copyfile _ _ _ ?w0 = _ =>
      pose proof (copyfile_log X file outfile true w0 H2) as Hl
  end.
  rewrite Hc in Hl. simpl in Hl.
  apply bind_outcome; [|intros e w4 [=]]. intros [] w4 [= <-].
  apply bind_outcome.
  2:{ intros e w5 [= _ <-]. unfold Q. simpl. rewrite Hl. exact HX. }
  intros width w5 [= _ <-].
  apply bind_outcome; [|intros e w6 [=]]. intros [] w6 [= <-].
  apply bind_outcome; [|intros e w7 [=]]. intros [] w7 [= <-].
  match goal with
  | |- Q (fst (bind (for_each ?cs ?body) _ ?w0)) _ =>
      assert (Hin : in_chunk_loop file outfile X (snd (for_each cs body w0)))
  end.
  { apply preserves_for_each.
    - intros c _. apply process_chunk_in_chunk_loop.
    - split; [simpl; eauto|]. exists []. simpl. rewrite Hl, app_nil_r.
      split; [reflexivity | constructor]. }
  apply bind_outcome.
  2:{ intros e w8 Hc8. rewrite Hc8 in Hin. simpl in Hin. apply Hloop. exact Hin. }
  intros [] w8 Hc8. rewrite Hc8 in Hin. simpl in Hin.
  unfold Q, emit, modify. simpl. exists w8. split; [exact Hin | reflexivity].
Qed.

(** X18.  The steps of one cube.  A cube that is processed to the end
    has added to the log, in this order: the convolution plan, the copy
    of the input to the output file, then nothing but smoothing of
    channels of this cube and chunk writes to this output file, and
    last, once, the header update of the output file with the target
    beam.  A cube on which the program raises has had no header
    update. *)
Theorem process_cube_steps (args : Args) (outdir' : string) (new_beam : Beam)
    (entry : CubeEntry) (w : World) :
  let file := filename entry in
  let outfile := outfile_of outdir' file in
  let r := process_cube args outdir' new_beam entry w in
  match fst r with
  | Ok _ =>
      exists body,
        log (snd r)
        = log w ++ [EvGetfacs file; EvCopyfile file outfile] ++ body
                ++ [EvHeader outfile new_beam]
        /\ Forall (fun e => chunk_step file outfile e = true) body
  | Raise _ => headers (log (snd r)) = headers (log w)
  end.
Proof.
  pose proof (process_cube_outcome args outdir' new_beam entry w) as H.
  cbv zeta in *.
  destruct (process_cube args outdir' new_beam entry w) as [[[]|e] w'];
    cbn [fst snd] in *; [|exact H].
  destruct H as (w8 & [_ (body & Hlog & Hbody)] & ->).
  exists body. split; [|exact Hbody].
  cbn [log set_log]. rewrite Hlog, <- !app_assoc. reflexivity.
Qed.

(** The cube loop finishes a prefix of its cubes. *)
Lemma cube_loop_headers (args : Args) (outdir' : string) (new_beam : Beam)
    (dd : list CubeEntry) (w : World) :
  let r := for_each dd (process_cube args outdir' new_beam) w in
  exists k, (k <= List.length dd)%nat
    /\ headers (log (snd r))
       = headers (log w)
         ++ ((fun e => (outfile_of outdir' (filename e), new_beam)) <$> take k dd)
    /\ (fst r = Ok tt <-> k = List.length dd).
Proof.
  revert w. induction dd as [|e dd IH]; intros w; cbv zeta; simpl.
  - exists O. split; [lia|]. split; [symmetry; apply app_nil_r|].
    split; reflexivity.
  - pose proof (process_cube_outcome args outdir' new_beam e w) as H1.
    cbv zeta in H1. unfold bind.
    destruct (process_cube args outdir' new_beam e w) as [[[]|x] w1];
      cbn [fst snd] in *.
    + destruct H1 as (w8 & [_ (body & Hlog & Hbody)] & ->).
      destruct (IH (set_log w8 (log w8 ++ [EvHeader
                      (outfile_of outdir' (filename e)) new_beam])))
        as (k & Hk & Hh & Hok). cbv zeta in Hh, Hok.
      exists (S k). split; [lia|]. split.
      * rewrite Hh. cbn [log set_log]. rewrite Hlog, <- !app_assoc.
        rewrite (headers_cube _ _ _ _ _ Hbody).
        rewrite <- app_assoc. reflexivity.
      * rewrite Hok. split; [intros -> | intros [= ->]]; reflexivity.
    + exists O. split; [lia|]. split; [rewrite H1; symmetry; apply app_nil_r|].
      split; discriminate.
Qed.

(** X19.  The outputs of a run.  Once the target beam is settled, the
    header updates of the run are those of the first [k] input files,
    in the order of [glob], each on the file's own output
    [outdir/basename(file.replace('.fits', '.sm.fits'))] and all with
    the one target beam; [k] is the number of inputs exactly when the
    run ends without an exception, and else the position of the cube
    on which it raised. *)
Theorem main_finishes_prefix (args : Args) (w : World) (outdir' : string)
    (datadict : list CubeEntry) (big_beam new_beam : Beam) :
  prepare args = Ok (outdir', datadict, big_beam, new_beam) ->
  let files := glob (infile args) in
  let r := main args w in
  exists k, (k <= List.length files)%nat
    /\ headers (log (snd r))
       = headers (log w)
         ++ ((fun f => (outfile_of outdir' f, new_beam)) <$> take k files)
    /\ (fst r = Ok tt <-> k = List.length files).
Proof.
  intros Hp. cbv zeta.
  assert (Hfiles : filename <$> datadict = glob (infile args)).
  { unfold prepare in Hp.
    apply rbind_Ok in Hp as (o & _ & Hp).
    case_bool_decide; [discriminate|].
    apply rbind_Ok in Hp as (agg & Hagg & Hp).
    apply rbind_Ok in Hp as (big & _ & Hp).
    apply rbind_Ok in Hp as (p & _ & Hp).
    apply rbind_Ok in Hp as (nb & _ & Hp).
    injection Hp as _ <- _ _.
    apply aggregate_inv in Hagg as (loaded & masked & _ & Hall & ->).
    exact (entries_filenames _ _ _ Hall). }
  unfold main, bind at 1, lift. rewrite Hp.
  destruct (cube_loop_headers args outdir' new_beam datadict w)
    as (k & Hk & Hh & Hok). cbv zeta in Hh, Hok.
  exists k. rewrite <- Hfiles, length_fmap, <- fmap_take, <- list_fmap_compose.
  split; [exact Hk|]. split; [exact Hh | exact Hok].
Qed.

End Steps.

Lemma main_finishes_prefix_witness :
  exists outdir' datadict big_beam new_beam,
    prepare (L := Demo.libs 5) (Demo.args None None None)
    = Ok (outdir', datadict, big_beam, new_beam)
    /\ headers (log (snd (main (L := Demo.libs 5) (Demo.args None None None)
                            Demo.world)))
       = [("./a.sm.fits"%string, new_beam); ("./b.sm.fits"%string, new_beam)].
Proof.
  destruct (prepare (L := Demo.libs 5) (Demo.args None None None))
    as [[[[o dd] big] nb]|e] eqn:Hp; [|vm_compute in Hp; discriminate Hp].
  exists o, dd, big, nb. split; [reflexivity|].
  destruct (main_finishes_prefix (L := Demo.libs 5) _ Demo.world _ _ _ _ Hp)
    as (k & Hk & Hh & Hok).
  cbv zeta in Hh, Hok.
  assert (Hrun : fst (main (L := Demo.libs 5) (Demo.args None None None)
                        Demo.world) = Ok tt) by (vm_compute; reflexivity).
  apply Hok in Hrun. rewrite Hh, Hrun.
  assert (Ho : o = "."%string) by (vm_compute in Hp; congruence).
  rewrite Ho. vm_compute. reflexivity.
Defined.

(** ** Where the output goes *)

Lemma last_char_app_slash (d : string) :
  Str.last_char (d +:+ "/") = Some "/"%char.
Proof.
  induction d as [|c d IH]; [reflexivity|].
  change (String c d +:+ "/")%string with (String c (d +:+ "/")).
  cbn [Str.last_char]. rewrite IH.
  destruct (d +:+ "/")%string eqn:E; [|reflexivity].
  destruct d; discriminate E.
Qed.

Lemma drop_last_app_slash (d : string) : Str.drop_last (d +:+ "/") = d.
Proof.
  induction d as [|c d IH]; [reflexivity|].
  change (String c d +:+ "/")%string with (String c (d +:+ "/")).
  cbn [Str.drop_last]. rewrite IH.
  destruct (d +:+ "/")%string eqn:E; [|reflexivity].
  destruct d; discriminate E.
Qed.

(** X20.  The output directory: without [--outdir] it is ["."]; one
    trailing slash of [--outdir], and only one, is removed; a directory
    that does not end in a slash is taken as it is. *)
Theorem fix_outdir_trailing_slash (d : string) :
  fix_outdir None = Ok "."%string
  /\ fix_outdir (Some (d +:+ "/")%string) = Ok d
  /\ (forall c, Str.last_char d = Some c -> c <> "/"%char ->
        fix_outdir (Some d) = Ok d).
Proof.
  split; [reflexivity|]. split.
  - unfold fix_outdir. rewrite last_char_app_slash, drop_last_app_slash.
    reflexivity.
  - intros c Hc Hne. unfold fix_outdir. rewrite Hc.
    destruct (Ascii.eqb c "/") eqn:E; [|reflexivity].
    apply Ascii.eqb_eq in E. contradiction.
Qed.

Lemma has_slash_app (a b : string) :
  has_slash (a +:+ b) = has_slash a || has_slash b.
Proof.
  unfold has_slash. induction a as [|c a IH]; [reflexivity|].
  change (String c a +:+ b)%string with (String c (a +:+ b)).
  cbn [list_ascii_of_string existsb]. rewrite IH. apply orb_assoc.
Qed.

Lemma basename_from_no_slash (s acc : string) :
  has_slash acc = false -> has_slash (Str.basename_from s acc) = false.
Proof.
  revert acc. induction s as [|c s IH]; intros acc Hacc; [exact Hacc|].
  cbn [Str.basename_from]. destruct (Ascii.eqb c "/") eqn:E.
  - apply IH. reflexivity.
  - apply IH. rewrite has_slash_app, Hacc. unfold has_slash.
    cbn [list_ascii_of_string existsb orb]. rewrite Ascii.eqb_sym, E. reflexivity.
Qed.

Lemma basename_from_app_slash (x y acc : string) :
  Str.basename_from (x +:+ String "/" y) acc = Str.basename y.
Proof.
  revert acc. induction x as [|c x IH]; intros acc.
  - reflexivity.
  - change (String c x +:+ String "/" y)%string with (String c (x +:+ String "/" y)).
    cbn [Str.basename_from]. destruct (Ascii.eqb c "/"); apply IH.
Qed.

Lemma prefix_length (p s : string) :
  String.prefix p s = true -> (String.length p <= String.length s)%nat.
Proof.
  revert s. induction p as [|a p IH]; intros s; [simpl; lia|].
  destruct s as [|b s]; simpl; [discriminate|].
  destruct (ascii_dec a b); [|discriminate]. intros H. apply IH in H. lia.
Qed.

Lemma prefix_app_slash (p x y : string) :
  has_slash p = false ->
  String.prefix p (x +:+ String "/" y) = String.prefix p x.
Proof.
  revert x. induction p as [|a p IH]; intros x Hp; [destruct x; reflexivity|].
  unfold has_slash in Hp. cbn [list_ascii_of_string existsb] in Hp.
  apply orb_false_elim in Hp as [Ha Hp].
  destruct x as [|b x].
  - simpl. destruct (ascii_dec a "/") as [->|]; [discriminate Ha | reflexivity].
  - change (String b x +:+ String "/" y)%string with (String b (x +:+ String "/" y)).
    cbn [String.prefix]. destruct (ascii_dec a b); [|reflexivity].
    apply IH. exact Hp.
Qed.

Lemma replace_from_app_slash (old new x y : string) (skip : nat) :
  has_slash old = false -> old <> ""%string ->
  (skip <= String.length x)%nat ->
  Str.replace_from old new (x +:+ String "/" y) skip
  = (Str.replace_from old new x skip +:+ String "/" (Str.replace old new y))%string.
Proof.
  intros Hold Hne. revert skip. induction x as [|c x IH]; intros skip Hskip.
  - simpl in Hskip. assert (skip = O) as -> by lia.
    change (""%string +:+ String "/" y)%string with (String "/" y).
    cbn [Str.replace_from].
    replace (String.prefix old (String "/" y)) with false; [reflexivity|].
    destruct old as [|a old]; [contradiction|].
    unfold has_slash in Hold. cbn [list_ascii_of_string existsb] in Hold.
    apply orb_false_elim in Hold as [Ha _]. simpl.
    destruct (ascii_dec a "/") as [->|]; [discriminate Ha | reflexivity].
  - change (String c x +:+ String "/" y)%string with (String c (x +:+ String "/" y)).
    cbn [Str.replace_from]. destruct skip as [|k].
    + change (String c (x +:+ String "/" y)) with (String c x +:+ String "/" y)%string.
      rewrite (prefix_app_slash _ _ _ Hold).
      destruct (String.prefix old (String c x)) eqn:Hpre.
      * apply prefix_length in Hpre. simpl in Hpre.
        rewrite IH by lia.
        generalize (Str.replace_from old new x (String.length old - 1)).
        generalize (String "/" (Str.replace old new y)).
        intros u t. clear. induction new as [|n new IHn]; [reflexivity|].
        change (String n (new +:+ t +:+ u) = String n ((new +:+ t) +:+ u)).
        rewrite IHn. reflexivity.
      * rewrite IH by lia. reflexivity.
    + apply IH. simpl in Hskip. lia.
Qed.

(** X21.  Where an output file goes: its name is the output directory,
    a slash, and a name that holds no slash, so it lies directly in the
    output directory; and the directory part of the input path plays no
    role, so that inputs of the same name in different directories get
    one and the same output file. *)
Theorem outfile_directly_in_outdir (outdir' dir name : string) :
  (exists n, outfile_of outdir' name = (outdir' +:+ "/" +:+ n)%string
             /\ has_slash n = false)
  /\ outfile_of outdir' (dir +:+ "/" +:+ name) = outfile_of outdir' name.
Proof.
  split.
  - eexists. split; [reflexivity|]. apply basename_from_no_slash. reflexivity.
  - unfold outfile_of. do 2 f_equal. unfold Str.replace at 1.
    change ("/" +:+ name)%string with (String "/" name).
    rewrite replace_from_app_slash; [|reflexivity|discriminate|lia].
    apply basename_from_app_slash.
Qed.

(** ** The guard of [copyfile] on a platform without [os.path.samefile] *)

(** X22.  Where [os.path] has no [samefile], [_samefile] returns
    [None] and the guard of [copyfile] is off: copying a regular file
    onto itself, under the same name or through a link, raises nothing,
    returns the destination, and leaves the file empty. *)
Theorem copyfile_unguarded_empties (w : World) (src dst : string) (i : nat)
    (c : list Byte.byte) :
  has_samefile w = false ->
  FS.stat w src = Ok (i, Regular c) ->
  FS.stat w dst = Ok (i, Regular c) ->
  exists w', copyfile src dst true w = (Ok dst, w')
    /\ FS.stat w' src = Ok (i, Regular [])
    /\ FS.stat w' dst = Ok (i, Regular [])
    /\ names w' = names w.
Proof.
  intros Hno Hs Hd.
  destruct (stat_inv _ _ _ _ Hs) as (qs & Hfs & Hqs & Hi).
  destruct (stat_inv _ _ _ _ Hd) as (qd & Hfd & Hqd & _).
  set (w1 := set_inodes w (<[i := Regular []]> (inodes w))).
  exists w1.
  assert (Hi1 : inodes w1 !! i = Some (Regular [])) by apply lookup_insert_eq.
  split; [|split; [|split]].
  - rewrite copyfile_body.
    + unfold bind at 1. unfold bind at 1. unfold FS.open_rb at 1. rewrite Hs.
      unfold bind at 1. unfold FS.open_wb at 1. rewrite Hfd, Hqd, Hi.
      fold w1. unfold copyfileobj. cbn [FS.h_ino FS.h_pos]. rewrite Hi1.
      cbn [List.length copy_loop]. unfold FS.read_at. rewrite Hi1. reflexivity.
    + unfold _samefile. rewrite Hno. reflexivity.
    + intros j Hj. rewrite Hs in Hj. discriminate.
    + intros j Hj. rewrite Hd in Hj. discriminate.
  - apply (stat_intro w1 src qs i); [|exact Hqs|exact Hi1].
    rewrite <- Hfs. apply follow_names. reflexivity.
  - apply (stat_intro w1 dst qd i); [|exact Hqd|exact Hi1].
    rewrite <- Hfd. apply follow_names. reflexivity.
  - reflexivity.
Qed.

Lemma copyfile_unguarded_empties_witness :
  exists w', copyfile "in.fits" "link.fits" true world_without_samefile
             = (Ok "link.fits"%string, w')
    /\ FS.stat w' "in.fits" = Ok (1%nat, Regular []).
Proof.
  destruct (copyfile_unguarded_empties world_without_samefile
              "in.fits" "link.fits" 1 [Byte.x53; Byte.x49; Byte.x4d])
    as (w' & Hc & Hs & _); [reflexivity | reflexivity | reflexivity |].
  exists w'. split; assumption.
Defined.

(** ** What a chunk writes *)

Lemma py_index_nonneg {A} (l : list A) (i : Z) (a : A) :
  0 <= i -> py_index l i = Ok a -> l !! Z.to_nat i = Some a.
Proof.
  intros Hi H. apply py_index_lookup in H as (j & Hj & Hl).
  apply py_norm_nonneg in Hj; [|exact Hi]. subst j. exact Hl.
Qed.

Lemma cube_slice_lookup (cube : Cube) (start stop idx : Z) :
  0 <= idx < Z.min stop (Z.of_nat (nchan cube)) - start ->
  cube_slice cube start stop !! Z.to_nat idx
  = Some (channel_image cube (Z.to_nat (start + idx))).
Proof.
  intros Hidx. unfold cube_slice. rewrite list_lookup_fmap.
  rewrite (lookup_seqZ_lt _ _ (Z.to_nat idx)) by lia. simpl.
  do 3 f_equal. lia.
Qed.

Section ChunkContent.
Context `{L : Libs}.

(** The tasks of one [pool.map], run one after the other on distinct
    slots. *)
Lemma workers_loop (start : Z) (cd : CubeEntry) (idxs : list Z) (w w' : World) :
  (forall idx, idx ∈ idxs -> 0 <= idx) -> NoDup idxs ->
  cubedict w = Some cd ->
  for_each idxs (fun idx => worker idx start) w = (Ok tt, w') ->
  arr_in w' = arr_in w /\ cubedict w' = Some cd
  /\ log w' = log w ++ ((fun idx => EvSmooth (filename cd) (start + idx)) <$> idxs)
  /\ (forall j, Z.of_nat j ∉ idxs -> arr_out w' !! j = arr_out w !! j)
  /\ forall idx, idx ∈ idxs ->
       exists im cb sf newim,
         arr_in w !! Z.to_nat idx = Some im
         /\ py_index (conbeams cd) (start + idx) = Ok cb
         /\ py_index (sfactors cd) (start + idx) = Ok sf
         /\ smooth im (dy cd) cb sf = Ok newim
         /\ arr_out w' !! Z.to_nat idx = Some newim.
Proof.
  revert w. induction idxs as [|i idxs IH]; intros w Hpos Hnd Hcd Hrun.
  - injection Hrun as <-. repeat split; try assumption.
    + simpl. symmetry. apply app_nil_r.
    + intros idx Hin. inversion Hin.
  - cbn [for_each] in Hrun. unfold bind in Hrun.
    destruct (worker i start w) as [[[]|e] w1] eqn:Hw; [|discriminate].
    apply worker_Ok_inv in Hw as (cd' & j & newim & Hr & ->).
    destruct Hr as [im cb sf old H1 H2 H3 H4 H5 H6 H7 H8].
    rewrite Hcd in H1. injection H1 as <-.
    assert (Hi : 0 <= i) by (apply Hpos; left).
    apply py_norm_nonneg in H6; [|exact Hi]. subst j.
    apply NoDup_cons in Hnd as [Hni Hnd].
    assert (Hpos' : forall idx, idx ∈ idxs -> 0 <= idx)
      by (intros idx Hin; apply Hpos; right; exact Hin).
    destruct (IH (worker_result start i w cd (Z.to_nat i) newim)
                Hpos' Hnd Hcd Hrun) as (Ha & Hb & Hc & Hd & He).
    cbn [worker_result arr_in arr_out log cubedict set_arr_out set_log] in *.
    split; [exact Ha|]. split; [exact Hb|]. split.
    { rewrite Hc, fmap_cons, <- app_assoc. reflexivity. }
    split.
    + intros j Hj. rewrite Hd.
      * apply list_lookup_insert_ne. intros E. apply Hj.
        replace (Z.of_nat j) with i by lia. left.
      * intros Hin. apply Hj. right. exact Hin.
    + intros idx Hin. apply elem_of_cons in Hin as [-> | Hin].
      * exists im, cb, sf, newim. repeat split; try assumption.
        { apply py_index_nonneg; assumption. }
        rewrite Hd by (rewrite Z2Nat.id by exact Hi; exact Hni).
        apply list_lookup_insert_eq. apply lookup_lt_Some in H7. exact H7.
      * apply He. exact Hin.
Qed.

(** X23.  What a chunk writes.  A chunk [start, start + width) inside
    the cube that is processed to the end, with an input buffer of
    [width] slots, smooths its channels once each, in channel order,
    and then writes once; slot [idx] of the data written is channel
    [start + idx] of the input cube, smoothed with the convolving beam
    and the scaling factor of that very channel. *)
Theorem chunk_holds_smoothed_channels (args : Args) (cube : Cube)
    (outfile : string) (width : Z) (c : Z * Z) (cd : CubeEntry) (w w' : World) :
  cubedict w = Some cd ->
  0 <= fst c -> snd c = fst c + width -> snd c <= Z.of_nat (nchan cube) ->
  List.length (arr_in w) = Z.to_nat width ->
  process_chunk args cube outfile width c w = (Ok tt, w') ->
  exists data,
    log w'
    = log w ++ ((fun idx => EvSmooth (filename cd) (fst c + idx)) <$> seqZ 0 width)
            ++ [EvWrite outfile (fst c) (snd c) data]
    /\ forall idx, 0 <= idx < width ->
         exists cb sf newim,
           py_index (conbeams cd) (fst c + idx) = Ok cb
           /\ py_index (sfactors cd) (fst c + idx) = Ok sf
           /\ smooth (channel_image cube (Z.to_nat (fst c + idx))) (dy cd) cb sf
              = Ok newim
           /\ data !! Z.to_nat idx = Some newim.
Proof.
  intros Hcd Hstart Hstop Hn Hlen. rewrite process_chunk_unfold.
  destruct (Np.assign_all _ _) as [buf|] eqn:Hbuf; [|discriminate].
  assert (Hb : buf = cube_slice cube (fst c) (snd c)).
  { unfold Np.assign_all in Hbuf.
    rewrite bool_decide_eq_true_2 in Hbuf; [congruence|].
    unfold cube_slice. rewrite length_fmap, length_seqZ, Hlen. lia. }
  destruct (choose_pool _ _) as [[]|]; [|discriminate].
  destruct (for_each _ _ _) as [[[]|e] w2] eqn:Hloop; [|discriminate].
  intros [= <-].
  destruct (workers_loop (fst c) cd (seqZ 0 width) (set_arr_in w buf) w2)
    as (_ & _ & Hlog & _ & Hdata).
  { intros idx Hin. apply elem_of_seqZ in Hin. lia. }
  { apply NoDup_seqZ. }
  { exact Hcd. }
  { exact Hloop. }
  exists (arr_out w2). split.
  - cbn [log set_log]. rewrite Hlog, <- app_assoc. reflexivity.
  - intros idx Hidx.
    destruct (Hdata idx) as (im & cb & sf & newim & Him & Hcb & Hsf & Hsm & Hout).
    { apply elem_of_seqZ. lia. }
    exists cb, sf, newim. repeat split; try assumption.
    cbn [arr_in set_arr_in] in Him. rewrite Hb, cube_slice_lookup in Him by lia.
    injection Him as <-. exact Hsm.
Qed.

End ChunkContent.

Lemma chunk_holds_smoothed_channels_witness :
  exists w' data,
    process_chunk (L := Demo.libs 5) (Demo.args None None None) (Demo.cube 3 [])
      "c.sm.fits" 2 (0, 2) chunk_world = (Ok tt, w')
    /\ log w' = [EvSmooth "c.fits" 0; EvSmooth "c.fits" 1;
                 EvWrite "c.sm.fits" 0 2 data]
    /\ exists newim,
         smooth (L := Demo.libs 5) (channel_image (Demo.cube 3 []) 1)
                (Demo.f 1) (mkBeam (Demo.f 0) (Demo.f 0) (Demo.f 0)) (Demo.f 2)
         = Ok newim
         /\ data !! 1%nat = Some newim.
Proof.
  destruct (process_chunk (L := Demo.libs 5) (Demo.args None None None)
              (Demo.cube 3 []) "c.sm.fits" 2 (0, 2) chunk_world)
    as [r w'] eqn:Hrun.
  assert (Hr : r = Ok tt) by (vm_compute in Hrun; congruence).
  subst r. exists w'.
  destruct (chunk_holds_smoothed_channels (L := Demo.libs 5)
              (Demo.args None None None) (Demo.cube 3 [])
              "c.sm.fits" 2 (0, 2) Shared.entry chunk_world w')
    as (data & Hlog & Hdata);
    [reflexivity | simpl; lia | reflexivity | simpl; lia | reflexivity | exact Hrun |].
  exists data. split; [reflexivity|]. split; [exact Hlog|].
  destruct (Hdata 1) as (cb & sf & newim & Hcb & Hsf & Hsm & Hout); [lia|].
  vm_compute in Hcb, Hsf. injection Hcb as <-. injection Hsf as <-.
  exists newim. split; [exact Hsm | exact Hout].
Defined.

(* ===================================================================== *)
(** * The run, end to end *)
(* ===================================================================== *)

(** ** One chunk *)





Lemma full_writes_smooth (file : string) (start : Z) (idxs : list Z) :
  full_writes ((fun idx => EvSmooth file (start + idx)) <$> idxs) = [].
Proof. induction idxs as [|i idxs IH]; [reflexivity | exact IH]. Qed.



Section OneChunk.
Context `{L : Libs}.





End OneChunk.

(** ** One cube *)




Section OneCube.
Context `{L : Libs}.





End OneCube.

Section Tiling.
Context `{L : Libs}.


End Tiling.


(** ** Flagged channels in what is written *)

Section Blanking.
Context `{L : Libs}.




End Blanking.

(** ** When the run goes through *)

Section Completion.
Context `{L : Libs}.



End Completion.

Section JointMaskOutput.
Context `{L : Libs}.


End JointMaskOutput.

